(** * Hybrid retrieval and answer grounding: a shallow embedding

    The development follows [src/vector_store.py] (class [HybridRetriever])
    and [src/rag_chain.py] (class [RAGChain]), and then the code around
    them: [src/evaluator.py], [src/document_processor.py] and the listing
    of [cli.py].

    Modelling conventions.
    - Python [float] scores are exact rationals [Q]; "exactly 1.0" is
      [== 1].  Rounding, infinities and NaN are outside the model.
    - Python [str] is [string]: a sequence of 8-bit characters read as the
      code points 0..255.
    - A [Document] carries its [page_content] and the metadata keys the
      code reads ([filename], [page], [section]); an absent key is [None].
    - The collaborators that are not part of the repository (the Chroma
      similarity search, the [BM25Okapi] scorer of [rank_bm25], the chat
      model, the text splitter, the PDF readers, [float] on a string) are
      Section variables or arguments; so is the header pattern of
      [extract_sections], as the test it makes on a line.
    - An exception is a value [Raise e] of the [result] monad.
    - [np.argsort] sorts the indices by ascending score and leaves indices
      of equal score in an order of its own, a parameter [tie_order] of the
      model; [sorted] and [list.sort] are the stable sort of Python and
      [re.finditer] the leftmost scan of a backtracking matcher.
    - [int] on a string of digits is the integer they spell, and raises
      [ValueError] on more than 4300 digits, the default limit of
      CPython. *)

From Stdlib Require Import List String Ascii Bool Arith ZArith QArith Qminmax.
From Stdlib Require Import Lia Lqa Permutation Sorted.
From Stdlib Require Import DecimalString.
Import ListNotations.

Set Implicit Arguments.

(** ** Rationals as Python floats *)

Definition Qlt_bool (x y : Q) : bool := negb (Qle_bool y x).

(** [max(scores)] and [min(scores)] on a sequence whose first item is
    [cur]: Python keeps the first extremal item. *)
Fixpoint py_max (cur : Q) (l : list Q) : Q :=
  match l with
  | [] => cur
  | x :: l' => py_max (if Qlt_bool cur x then x else cur) l'
  end.

Fixpoint py_min (cur : Q) (l : list Q) : Q :=
  match l with
  | [] => cur
  | x :: l' => py_min (if Qlt_bool x cur then x else cur) l'
  end.

(** The two-argument [max(a, b)] and [min(a, b)]. *)
Definition py_max2 (a b : Q) : Q := if Qlt_bool a b then b else a.
Definition py_min2 (a b : Q) : Q := if Qlt_bool b a then b else a.

(** ** Documents *)

(** [doc.metadata]: the keys ['filename'], ['page'], ['section'] and
    ['doc_id']; [None] is what [metadata.get] returns for an absent key. *)
Record Metadata := {
  meta_filename : option string;
  meta_page : option Z;
  meta_section : option string;
  meta_doc_id : option string
}.

Record Document := {
  page_content : string;
  metadata : Metadata
}.

Definition Scored := (Document * Q)%type.

(** ** Score normalisation ([normalize_scores], nested in [hybrid_search]) *)

Definition normalize_scores (results : list Scored) : list Scored :=
  match results with
  | [] => []
  | _ :: _ =>
      let scores := map snd results in
      let max_score := match scores with [] => 1 | s :: rest => py_max s rest end in
      let min_score := match scores with [] => 0 | s :: rest => py_min s rest end in
      let score_range :=
        if negb (Qeq_bool max_score min_score) then max_score - min_score else 1 in
      map (fun r => (fst r, (snd r - min_score) / score_range)) results
  end.

(** The extrema of a score list, as the specification words them. *)
Definition is_maximum (m : Q) (l : list Q) : Prop :=
  In m l /\ forall x, In x l -> x <= m.

Definition is_minimum (m : Q) (l : list Q) : Prop :=
  In m l /\ forall x, In x l -> m <= x.

Definition all_equal (l : list Q) : Prop :=
  forall x y, In x l -> In y l -> x == y.

Definition score_max (results : list Scored) : Q :=
  match map snd results with [] => 1 | s :: rest => py_max s rest end.

Definition score_min (results : list Scored) : Q :=
  match map snd results with [] => 0 | s :: rest => py_min s rest end.

Definition score_range (results : list Scored) : Q :=
  if negb (Qeq_bool (score_max results) (score_min results))
  then score_max results - score_min results else 1.

(** ** Strings as Python uses them *)

Definition is_space (c : ascii) : bool :=
  let n := nat_of_ascii c in
  ((9 <=? n) && (n <=? 13) || (28 <=? n) && (n <=? 32) || (n =? 133) || (n =? 160))%nat.

Definition is_digit (c : ascii) : bool :=
  let n := nat_of_ascii c in ((48 <=? n) && (n <=? 57))%nat.

Definition lower_char (c : ascii) : ascii :=
  let n := nat_of_ascii c in
  if ((65 <=? n) && (n <=? 90) || (192 <=? n) && (n <=? 222) && negb (n =? 215))%nat
  then ascii_of_nat (n + 32) else c.

(** [s.lower()] *)
Fixpoint lower (s : string) : string :=
  match s with
  | EmptyString => EmptyString
  | String c s' => String (lower_char c) (lower s')
  end.

(** [s.startswith(p)] *)
Definition startswith (s p : string) : bool := String.prefix p s.

(** [s.split()]: the maximal runs of non-whitespace characters. *)
Fixpoint split_from (word : string) (s : string) : list string :=
  match s with
  | EmptyString => match word with EmptyString => [] | _ => [word] end
  | String c s' =>
      if is_space c
      then match word with
           | EmptyString => split_from EmptyString s'
           | _ => word :: split_from EmptyString s'
           end
      else split_from (word ++ String c EmptyString) s'
  end.

Definition split (s : string) : list string := split_from EmptyString s.

Fixpoint lstrip (s : string) : string :=
  match s with
  | String c s' => if is_space c then lstrip s' else s
  | EmptyString => EmptyString
  end.

Fixpoint rstrip (s : string) : string :=
  match s with
  | EmptyString => EmptyString
  | String c s' =>
      match rstrip s' with
      | EmptyString => if is_space c then EmptyString else String c EmptyString
      | r => String c r
      end
  end.

(** [s.strip()] *)
Definition strip (s : string) : string := rstrip (lstrip s).

(** [s[:n]] *)
Fixpoint take (n : nat) (s : string) : string :=
  match n, s with
  | S n', String c s' => String c (take n' s')
  | _, _ => EmptyString
  end.

(** ** Exceptions *)

Inductive exn := IndexError | ValueError | AttributeError.

Inductive result (A : Type) : Type :=
| Ok (a : A)
| Raise (e : exn).

Arguments Ok {A} a.
Arguments Raise {A} e.

Definition bind {A B : Type} (c : result A) (f : A -> result B) : result B :=
  match c with
  | Ok a => f a
  | Raise e => Raise e
  end.

Notation "x <- c1 ;; c2" := (bind c1 (fun x => c2))
  (at level 61, c1 at next level, right associativity).

(** [l[i]] for a non-negative index. *)
Definition py_index {A : Type} (l : list A) (i : nat) : result A :=
  match nth_error l i with
  | Some x => Ok x
  | None => Raise IndexError
  end.

(** [k or default] on an optional count: [None] and [0] are falsy. *)
Definition py_or (k : option nat) (default : nat) : nat :=
  match k with
  | None | Some O => default
  | Some n => n
  end.

(** ** The insertion-ordered dictionary [combined_scores] *)

Record Entry := {
  e_doc : Document;    (* item['doc'] *)
  e_score : Q          (* item['score'] *)
}.

Definition Dict := list (string * Entry).

Fixpoint dict_mem (key : string) (d : Dict) : bool :=
  match d with
  | [] => false
  | (k, _) :: d' => if String.eqb k key then true else dict_mem key d'
  end.

Fixpoint dict_get (key : string) (d : Dict) : option Entry :=
  match d with
  | [] => None
  | (k, v) :: d' => if String.eqb k key then Some v else dict_get key d'
  end.

(** [d[key] = v]: a present key keeps its position, a new key goes last. *)
Fixpoint dict_set (key : string) (v : Entry) (d : Dict) : Dict :=
  match d with
  | [] => [(key, v)]
  | (k, w) :: d' =>
      if String.eqb k key then (k, v) :: d' else (k, w) :: dict_set key v d'
  end.

(** [d[key]['score'] += delta] on a present key. *)
Fixpoint dict_add_score (key : string) (delta : Q) (d : Dict) : Dict :=
  match d with
  | [] => []
  | (k, w) :: d' =>
      if String.eqb k key
      then (k, {| e_doc := e_doc w; e_score := e_score w + delta |}) :: d'
      else (k, w) :: dict_add_score key delta d'
  end.

Definition dict_values (d : Dict) : list Entry := map snd d.

(** ** Sorting *)

(** [sorted(items, key=lambda x: x['score'], reverse=True)]: Python's sort
    is stable, also under [reverse=True]; items of equal score keep their
    input order. *)
Fixpoint insert_desc (x : Entry) (l : list Entry) : list Entry :=
  match l with
  | [] => [x]
  | y :: l' =>
      if Qlt_bool (e_score x) (e_score y) then y :: insert_desc x l' else x :: l
  end.

Definition sorted_desc (l : list Entry) : list Entry := fold_right insert_desc [] l.

(** [np.argsort(scores)]: the indices in ascending order of score.  The
    default sort kind of NumPy is not stable: where it leaves two indices
    of equal score is not specified.  [tie_order scores i j] says that it
    leaves [i] before [j]; it is a parameter of the model, asked only for
    indices of equal score, and every ascending order of the indices is the
    [argsort] of some [tie_order]. *)
Fixpoint insert_idx (tie_order : list Q -> nat -> nat -> bool) (scores : list Q)
    (i : nat) (l : list nat) : list nat :=
  match l with
  | [] => [i]
  | j :: l' =>
      if Qlt_bool (nth i scores 0) (nth j scores 0) ||
         (Qeq_bool (nth i scores 0) (nth j scores 0) && tie_order scores i j)
      then i :: l else j :: insert_idx tie_order scores i l'
  end.

Definition argsort (tie_order : list Q -> nat -> nat -> bool) (scores : list Q)
  : list nat :=
  fold_right (insert_idx tie_order scores) [] (seq 0 (List.length scores)).

(** ** Configuration ([config.py]) *)

Record Configuration := {
  TOP_K_RESULTS : nat;
  SIMILARITY_THRESHOLD : Q;
  ENABLE_CONVERSATION_MEMORY : bool
}.

(** ** The vector store and the hybrid retriever *)

(** The Chroma collection behind [VectorStore]: its relevance search and
    its stored chunks. *)
Record VectorStore := {
  similarity_search_with_relevance_scores : string -> nat -> list Scored;
  get_all_documents : list Document
}.

Record HybridRetriever := {
  vector_store : VectorStore;
  bm25 : option (list (list string));   (* the corpus held by [BM25Okapi], or [None] *)
  documents : list Document
}.

Section Retrieval.

Variable Config : Configuration.

(** [BM25Okapi]: the score of one tokenized document of the corpus against
    a tokenized query. *)
Variable bm25_document_score : list (list string) -> list string -> list string -> Q.
Variable tie_order : list Q -> nat -> nat -> bool.

(** [BM25Okapi.get_scores]: one score per document of the corpus. *)
Definition get_scores (corpus : list (list string)) (tokenized_query : list string) : list Q :=
  map (bm25_document_score corpus tokenized_query) corpus.

Definition similarity_search (self : VectorStore) (query : string) (k : option nat)
  : list Scored :=
  let k := py_or k (TOP_K_RESULTS Config) in
  let results := similarity_search_with_relevance_scores self query k in
  filter (fun r => Qle_bool (SIMILARITY_THRESHOLD Config) (snd r)) results.

Definition _update_bm25_index (self : HybridRetriever) : HybridRetriever :=
  let documents := get_all_documents (vector_store self) in
  match documents with
  | [] => {| vector_store := vector_store self; bm25 := bm25 self; documents := documents |}
  | _ :: _ =>
      let tokenized_docs := map (fun doc => split (lower (page_content doc))) documents in
      {| vector_store := vector_store self; bm25 := Some tokenized_docs;
         documents := documents |}
  end.

(** [HybridRetriever.__init__] *)
Definition HybridRetriever_init (vector_store : VectorStore) : HybridRetriever :=
  _update_bm25_index {| vector_store := vector_store; bm25 := None; documents := [] |}.

(** The loop of [bm25_search] over [top_indices]. *)
Fixpoint bm25_collect (documents : list Document) (scores : list Q)
    (top_indices : list nat) : result (list Scored) :=
  match top_indices with
  | [] => Ok []
  | idx :: rest =>
      s <- py_index scores idx ;;
      if Qlt_bool 0 s
      then d <- py_index documents idx ;;
           results <- bm25_collect documents scores rest ;;
           Ok ((d, s) :: results)
      else bm25_collect documents scores rest
  end.

Definition bm25_search (self : HybridRetriever) (query : string) (k : nat)
  : result (list Scored) :=
  match bm25 self with
  | None => Ok []
  | Some index =>
      let tokenized_query := split (lower query) in
      let scores := get_scores index tokenized_query in
      let top_indices := firstn k (rev (argsort tie_order scores)) in
      bm25_collect (documents self) scores top_indices
  end.

(** The two loops of [hybrid_search] that fill [combined_scores]. *)
Definition combine_vector (alpha : Q) (combined_scores : Dict) (r : Scored) : Dict :=
  let doc_key := page_content (fst r) in
  dict_set doc_key {| e_doc := fst r; e_score := alpha * snd r |} combined_scores.

Definition combine_bm25 (alpha : Q) (combined_scores : Dict) (r : Scored) : Dict :=
  let doc_key := page_content (fst r) in
  if dict_mem doc_key combined_scores
  then dict_add_score doc_key ((1 - alpha) * snd r) combined_scores
  else dict_set doc_key {| e_doc := fst r; e_score := (1 - alpha) * snd r |} combined_scores.

Definition combine (alpha : Q) (vector_results bm25_results : list Scored) : Dict :=
  fold_left (combine_bm25 alpha) bm25_results
    (fold_left (combine_vector alpha) vector_results []).

Definition hybrid_search (self : HybridRetriever) (query : string) (k : option nat)
    (alpha : Q) : result (list Scored) :=
  let k := py_or k (TOP_K_RESULTS Config) in
  let vector_results := similarity_search (vector_store self) query (Some (k * 2)%nat) in
  bm25_results <- bm25_search self query (k * 2) ;;
  let vector_results := normalize_scores vector_results in
  let bm25_results := normalize_scores bm25_results in
  let combined_scores := combine alpha vector_results bm25_results in
  let sorted_results := sorted_desc (dict_values combined_scores) in
  Ok (map (fun item => (e_doc item, e_score item)) (firstn k sorted_results)).

End Retrieval.

(** ** Regular expressions ([re]) *)

(** The fragment of Python's regular expressions the citation pattern
    uses.  Repetition is greedy and applies to a character class. *)
Inductive regex :=
| Lit (l : string)                  (* a literal string *)
| StarC (p : ascii -> bool)         (* [c*] *)
| PlusC (p : ascii -> bool)         (* [c+] *)
| Cat (r1 r2 : regex)               (* [r1 r2] *)
| Opt (r : regex)                   (* [(?:r)?] *)
| Grp (n : nat) (r : regex).        (* [(r)], the capturing group [n] *)

(** The groups that took part in a match, most recent first. *)
Definition Captures := list (nat * string).

Fixpoint lookup (n : nat) (caps : Captures) : option string :=
  match caps with
  | [] => None
  | (m, s) :: caps' => if Nat.eqb m n then Some s else lookup n caps'
  end.

Fixpoint strip_prefix (l s : string) : option string :=
  match l, s with
  | EmptyString, _ => Some s
  | String a l', String b s' => if Ascii.eqb a b then strip_prefix l' s' else None
  | String _ _, EmptyString => None
  end.

(** What was read between the input [s] and its suffix [s']. *)
Definition consumed (s s' : string) : string :=
  take (String.length s - String.length s') s.

Section Backtracking.

Variable A : Type.

(** Greedy [c*]: the longest run first, then the shorter ones. *)
Fixpoint star (p : ascii -> bool) (s : string) (k : string -> option A) : option A :=
  match s with
  | String c s' =>
      if p c
      then match star p s' k with
           | Some x => Some x
           | None => k s
           end
      else k s
  | EmptyString => k s
  end.

(** The backtracking matcher: [k] is what remains to be matched. *)
Fixpoint rmatch (r : regex) (s : string) (caps : Captures)
    (k : string -> Captures -> option A) : option A :=
  match r with
  | Lit l =>
      match strip_prefix l s with
      | Some s' => k s' caps
      | None => None
      end
  | StarC p => star p s (fun s' => k s' caps)
  | PlusC p =>
      match s with
      | String c s' => if p c then star p s' (fun s'' => k s'' caps) else None
      | EmptyString => None
      end
  | Cat r1 r2 => rmatch r1 s caps (fun s' caps' => rmatch r2 s' caps' k)
  | Opt r' =>
      match rmatch r' s caps k with
      | Some x => Some x
      | None => k s caps
      end
  | Grp n r' => rmatch r' s caps (fun s' caps' => k s' ((n, consumed s s') :: caps'))
  end.

End Backtracking.

(** A match object: its span in the searched string and its groups. *)
Record Match := {
  m_start : nat;
  m_end : nat;
  m_groups : Captures
}.

(** [match.group(n)] *)
Definition group (m : Match) (n : nat) : option string := lookup n (m_groups m).

(** [pattern.match] at the head of [s], the head being at offset [pos]. *)
Definition match_at (r : regex) (pos : nat) (s : string) : option Match :=
  rmatch r s []
    (fun s' caps =>
       Some {| m_start := pos;
               m_end := pos + (String.length s - String.length s');
               m_groups := caps |}).

(** [re.finditer]: the leftmost matches, none overlapping another.  [skip]
    counts the characters still covered by the last match. *)
Fixpoint finditer_from (r : regex) (pos skip : nat) (s : string) {struct s} : list Match :=
  match skip with
  | S skip' =>
      match s with
      | String _ s' => finditer_from r (S pos) skip' s'
      | EmptyString => []
      end
  | O =>
      match match_at r pos s with
      | Some m =>
          m :: match s with
               | String _ s' => finditer_from r (S pos) (m_end m - m_start m - 1) s'
               | EmptyString => []
               end
      | None =>
          match s with
          | String _ s' => finditer_from r (S pos) 0 s'
          | EmptyString => []
          end
      end
  end.

Definition finditer (r : regex) (s : string) : list Match := finditer_from r 0 0 s.

Definition not_comma_bracket (c : ascii) : bool :=
  negb (Ascii.eqb c ","%char || Ascii.eqb c "]"%char).

Definition not_bracket (c : ascii) : bool := negb (Ascii.eqb c "]"%char).

Declare Scope regex_scope.
Delimit Scope regex_scope with re.
Notation "r1 ;; r2" := (Cat r1 r2) (at level 61, right associativity) : regex_scope.

(** [\[Source:\s*([^,\]]+)(?:,\s*Page:\s*(\d+))?(?:,\s*Section:\s*([^\]]+))?\]] *)
Definition citation_pattern : regex :=
  (Lit "[Source:" ;; StarC is_space ;; Grp 1 (PlusC not_comma_bracket) ;;
   Opt (Lit "," ;; StarC is_space ;; Lit "Page:" ;; StarC is_space ;;
        Grp 2 (PlusC is_digit)) ;;
   Opt (Lit "," ;; StarC is_space ;; Lit "Section:" ;; StarC is_space ;;
        Grp 3 (PlusC not_bracket)) ;;
   Lit "]")%re.

(** [sys.int_info.default_max_str_digits]: the most digits a string may
    have for [int] to convert it, under CPython's default settings. *)
Definition int_max_str_digits : nat := 4300.

(** The value of a string of decimal digits.  Any other character is
    answered with [ValueError]; the code only converts what [\d+] matched. *)
Fixpoint int_digits (acc : Z) (s : string) : result Z :=
  match s with
  | EmptyString => Ok acc
  | String c s' =>
      if is_digit c
      then int_digits (acc * 10 + Z.of_nat (nat_of_ascii c - 48)) s'
      else Raise ValueError
  end.

(** [int(s)]: the value of the digits, and [ValueError] for the empty
    string and for more digits than [int_max_str_digits]. *)
Definition py_int (s : string) : result Z :=
  match s with
  | EmptyString => Raise ValueError
  | _ =>
      if (int_max_str_digits <? String.length s)%nat
      then Raise ValueError
      else int_digits 0 s
  end.

(** ** The RAG chain ([rag_chain.py]) *)

Record Citation := {
  source : string;
  page : option Z;
  section : option string;
  chunk_text : string
}.

Record RAGResponse := {
  answer : string;
  citations : list Citation;
  confidence : Q;
  retrieved_chunks : list Document
}.

Inductive Message :=
| SystemMessage (content : string)
| HumanMessage (content : string)
| AIMessage (content : string).

Definition option_eqb {A : Type} (eqb : A -> A -> bool) (o : option A) (x : A) : bool :=
  match o with
  | Some y => eqb y x
  | None => false
  end.

(** The condition of the inner loop of [_extract_citations]. *)
Definition cites (source : string) (page : option Z) (doc : Document) : bool :=
  option_eqb String.eqb (meta_filename (metadata doc)) source &&
  match page with
  | None => true
  | Some p => option_eqb Z.eqb (meta_page (metadata doc)) p
  end.

(** The inner loop: [chunk_text] starts empty and the first citing chunk
    sets it and breaks. *)
Fixpoint find_chunk_text (source : string) (page : option Z)
    (retrieved_docs : list Document) : string :=
  match retrieved_docs with
  | [] => EmptyString
  | doc :: rest =>
      if cites source page doc
      then (take 200 (page_content doc) ++ "...")%string
      else find_chunk_text source page rest
  end.

(** The body of the loop over the matches. *)
Definition citation_of_match (retrieved_docs : list Document) (m : Match)
  : result Citation :=
  source <- match group m 1 with
            | Some g => Ok (strip g)
            | None => Raise AttributeError
            end ;;
  page <- match group m 2 with
          | Some g => match g with
                      | EmptyString => Ok None
                      | _ => n <- py_int g ;; Ok (Some n)
                      end
          | None => Ok None
          end ;;
  let section := match group m 3 with
                 | Some g => match g with
                             | EmptyString => None
                             | _ => Some (strip g)
                             end
                 | None => None
                 end in
  let chunk_text := find_chunk_text source page retrieved_docs in
  Ok {| source := source; page := page; section := section; chunk_text := chunk_text |}.

Fixpoint citations_loop (retrieved_docs : list Document) (matches : list Match)
  : result (list Citation) :=
  match matches with
  | [] => Ok []
  | m :: rest =>
      c <- citation_of_match retrieved_docs m ;;
      citations <- citations_loop retrieved_docs rest ;;
      Ok (c :: citations)
  end.

Definition _extract_citations (answer : string) (retrieved_docs : list Document)
  : result (list Citation) :=
  let matches := finditer citation_pattern answer in
  citations_loop retrieved_docs matches.

(** [sum(xs)] *)
Definition py_sum (l : list Q) : Q := fold_left Qplus l 0.

Definition Q_of_nat (n : nat) : Q := inject_Z (Z.of_nat n).

Definition _calculate_confidence (answer : string) (retrieved_docs : list Scored)
    (citations : list Citation) : Q :=
  if (String.length answer =? 0)%nat || startswith (lower answer) "i don't have"
  then 0
  else
    let avg_score :=
      match retrieved_docs with
      | [] => 0
      | _ :: _ => py_sum (map snd retrieved_docs) / Q_of_nat (List.length retrieved_docs)
      end in
    let citation_factor := py_min2 (Q_of_nat (List.length citations) / 3) 1 in
    let length_factor := py_min2 (Q_of_nat (String.length answer) / 200) 1 in
    let confidence := 0.5 * avg_score + 0.3 * citation_factor + 0.2 * length_factor in
    py_min2 (py_max2 confidence 0) 1.

(** *** The query orchestrator *)

(** The calls [query] makes to its collaborators, in the order made. *)
Inductive Call :=
| CallHybridSearch (query : string)
| CallSimilaritySearch (query : string)
| CallBm25Search (query : string)
| CallLlmInvoke (prompt : list Message).

Record RAGChain := {
  rag_vector_store : VectorStore;
  retriever : HybridRetriever;
  conversation_history : list Message
}.

(** What a method of [RAGChain] runs in: the object and the log of calls. *)
Record World := {
  self : RAGChain;
  calls : list Call
}.

Definition M (A : Type) : Type := World -> result A * World.

Definition ret {A : Type} (a : A) : M A := fun w => (Ok a, w).

Definition mbind {A B : Type} (c : M A) (f : A -> M B) : M B :=
  fun w =>
    match c w with
    | (Ok a, w') => f a w'
    | (Raise e, w') => (Raise e, w')
    end.

Notation "x <~ c1 ;; c2" := (mbind c1 (fun x => c2))
  (at level 61, c1 at next level, right associativity).
Notation "c1 ;;; c2" := (mbind c1 (fun _ => c2))
  (at level 61, right associativity).

Definition lift {A : Type} (r : result A) : M A := fun w => (r, w).

Definition get_self : M RAGChain := fun w => (Ok (self w), w).

Definition log_call (c : Call) : M unit :=
  fun w => (Ok tt, {| self := self w; calls := calls w ++ [c] |}).

Definition set_conversation_history (h : list Message) : M unit :=
  fun w =>
    (Ok tt,
     {| self := {| rag_vector_store := rag_vector_store (self w);
                   retriever := retriever (self w);
                   conversation_history := h |};
        calls := calls w |}).

(** [RAGChain.__init__] *)
Definition RAGChain_init (vector_store : VectorStore) : RAGChain :=
  {| rag_vector_store := vector_store;
     retriever := HybridRetriever_init vector_store;
     conversation_history := [] |}.

(** [l[-n:]] for [0 < n] *)
Definition last_n {A : Type} (n : nat) (l : list A) : list A :=
  skipn (List.length l - n) l.

Definition no_information : string :=
  "I couldn't find any relevant information in the documents to answer this question.".

Section Query.

Variable Config : Configuration.
Variable bm25_document_score : list (list string) -> list string -> list string -> Q.
Variable tie_order : list Q -> nat -> nat -> bool.

(** [self.llm.invoke(prompt).content] *)
Variable llm_invoke : list Message -> string.

(** [_format_context], which renders the chunks as text, and the system
    message of [_create_qa_prompt]. *)
Variable _format_context : list Scored -> string.
Variable system_message : string.

Definition newline : string := String (ascii_of_nat 10) EmptyString.

(** [self.qa_prompt.format_messages] *)
Definition format_messages (context question : string) (chat_history : list Message)
  : list Message :=
  [SystemMessage system_message] ++ chat_history ++
  [HumanMessage ("Context from documents:" ++ newline ++ context ++ newline ++ newline ++
                 "Question: " ++ question ++ newline ++ newline ++
                 "Provide a detailed answer with proper citations.")%string].

Definition retrieve (question search_mode : string) : M (list Scored) :=
  me <~ get_self ;;
  if String.eqb search_mode "hybrid"
  then log_call (CallHybridSearch question) ;;;
       lift (hybrid_search Config bm25_document_score tie_order (retriever me) question None 0.5)
  else if String.eqb search_mode "vector"
  then log_call (CallSimilaritySearch question) ;;;
       ret (similarity_search Config (rag_vector_store me) question None)
  else log_call (CallBm25Search question) ;;;
       lift (bm25_search bm25_document_score tie_order (retriever me) question 10).

Definition update_conversation_history (question answer : string) : M unit :=
  if ENABLE_CONVERSATION_MEMORY Config
  then
    me <~ get_self ;;
    let history := conversation_history me ++ [HumanMessage question] in
    let history := history ++ [AIMessage answer] in
    if (10 <? List.length history)%nat
    then set_conversation_history (last_n 10 history)
    else set_conversation_history history
  else ret tt.

Definition query (question : string) (use_conversation_history : bool)
    (search_mode : string) : M RAGResponse :=
  retrieved_docs <~ retrieve question search_mode ;;
  match retrieved_docs with
  | [] =>
      ret {| answer := no_information; citations := []; confidence := 0;
             retrieved_chunks := [] |}
  | _ :: _ =>
      let context := _format_context retrieved_docs in
      me <~ get_self ;;
      let messages :=
        if use_conversation_history && ENABLE_CONVERSATION_MEMORY Config
        then conversation_history me else [] in
      let prompt :=
        format_messages context question
          (if use_conversation_history then messages else []) in
      log_call (CallLlmInvoke prompt) ;;;
      let answer := llm_invoke prompt in
      let docs_only := map fst retrieved_docs in
      citations <~ lift (_extract_citations answer docs_only) ;;
      let confidence := _calculate_confidence answer retrieved_docs citations in
      update_conversation_history question answer ;;;
      ret {| answer := answer; citations := citations; confidence := confidence;
             retrieved_chunks := docs_only |}
  end.

End Query.

(** ** Vocabulary of the ranking properties *)

(** The BM25 scores of the corpus a retriever was built on. *)
Definition corpus_scores
    (bm25_document_score : list (list string) -> list string -> list string -> Q)
    (self : HybridRetriever) (query : string) : list Q :=
  match bm25 self with
  | None => []
  | Some index => get_scores bm25_document_score index (split (lower query))
  end.

(** [results] are the chunks at the corpus positions [idxs], with their scores. *)
Definition drawn_from (docs : list Document) (scores : list Q)
    (idxs : list nat) (results : list Scored) : Prop :=
  Forall2 (fun i r => nth_error docs i = Some (fst r) /\ nth_error scores i = Some (snd r))
    idxs results.

(** Descending score, equal scores in corpus order: the earlier index first. *)
Definition earlier_first (scores : list Q) (i j : nat) : Prop :=
  nth j scores 0 < nth i scores 0 \/
  (nth i scores 0 == nth j scores 0 /\ (i < j)%nat).

(** ** Vocabulary of the fusion properties *)

Definition text (r : Scored) : string := page_content (fst r).

Definition texts (l : list Scored) : list string := map text l.

Definition in_texts (key : string) (l : list Scored) : bool :=
  existsb (String.eqb key) (texts l).

(** The normalised score a chunk text has in a candidate list; a text that
    is missing from the list contributes 0. *)
Fixpoint score_in (key : string) (l : list Scored) : Q :=
  match l with
  | [] => 0
  | r :: l' => if String.eqb (text r) key then snd r else score_in key l'
  end.

(** Deduplication by exact text, the first occurrence staying. *)
Fixpoint dedup (seen : list string) (l : list Scored) : list Scored :=
  match l with
  | [] => []
  | r :: l' =>
      if existsb (String.eqb (text r)) seen
      then dedup seen l'
      else r :: dedup (text r :: seen) l'
  end.

(** The union of the two candidate lists in the order of first encounter,
    the semantic list scanned before the lexical one. *)
Definition candidates (semantic lexical : list Scored) : list Scored :=
  dedup [] (semantic ++ lexical).

Definition combined_score (alpha : Q) (semantic lexical : list Scored) (key : string) : Q :=
  alpha * score_in key semantic + (1 - alpha) * score_in key lexical.

(** The fused list as the specification words it. *)
Definition fused (alpha : Q) (semantic lexical : list Scored) : list Scored :=
  map (fun c => (fst c, combined_score alpha semantic lexical (text c)))
      (candidates semantic lexical).

(** [out] is [items] in descending order of [scores], items of equal score
    in their order in [items]. *)
Definition ranked_by {A : Type} (scores : list Q) (items out : list A) : Prop :=
  exists idxs,
    Permutation idxs (seq 0 (List.length items)) /\
    StronglySorted (earlier_first scores) idxs /\
    Forall2 (fun i x => nth_error items i = Some x) idxs out.

(** The same chunk with the same score. *)
Definition same_scored (r r' : Scored) : Prop := fst r = fst r' /\ snd r == snd r'.

(** What [bm25_search] returns, the empty list standing for an exception. *)
Definition lexical_candidates
    (bm25_document_score : list (list string) -> list string -> list string -> Q)
    (tie_order : list Q -> nat -> nat -> bool)
    (self : HybridRetriever) (query : string) (k : nat) : list Scored :=
  match bm25_search bm25_document_score tie_order self query k with
  | Ok results => results
  | Raise _ => []
  end.

(** *** The dictionary the two loops build, spelled out *)

Definition keys (d : Dict) : list string := map fst d.

(** The first score a text has in a list, if it has one. *)
Fixpoint lookup_score (key : string) (l : list Scored) : option Q :=
  match l with
  | [] => None
  | r :: l' => if String.eqb (text r) key then Some (snd r) else lookup_score key l'
  end.

Definition entry_vector (alpha : Q) (r : Scored) : string * Entry :=
  (text r, {| e_doc := fst r; e_score := alpha * snd r |}).

Definition entry_bm25 (alpha : Q) (r : Scored) : string * Entry :=
  (text r, {| e_doc := fst r; e_score := (1 - alpha) * snd r |}).

Definition bm25_update (alpha : Q) (lexical : list Scored) (kv : string * Entry)
  : string * Entry :=
  (fst kv,
   {| e_doc := e_doc (snd kv);
      e_score := match lookup_score (fst kv) lexical with
                 | Some s => e_score (snd kv) + (1 - alpha) * s
                 | None => e_score (snd kv)
                 end |}).

(** The texts of [l] that also occur in [keep], in the order of [l]: the
    ranking [l] restricted to the candidates of [keep]. *)
Definition restricted_order (l keep : list Scored) : list string :=
  filter (fun t => in_texts t keep) (texts l).

(** The candidates of the lexical list that the semantic list lacks. *)
Definition lexical_only (semantic lexical : list Scored) : list Scored :=
  filter (fun b => negb (in_texts (text b) semantic)) lexical.

(** ** Vocabulary of the citation properties *)

Fixpoint all_chars (p : ascii -> bool) (s : string) : bool :=
  match s with
  | EmptyString => true
  | String c s' => p c && all_chars p s'
  end.

(** [s[n:]] *)
Fixpoint drop (n : nat) (s : string) : string :=
  match n, s with
  | S n', String _ s' => drop n' s'
  | _, _ => s
  end.

(** What a regular expression denotes: [matches r s s' caps caps'] says
    that [r] reads a prefix of [s], leaves [s'] and turns the groups [caps]
    into [caps'].  No order of search is built in. *)
Inductive matches : regex -> string -> string -> Captures -> Captures -> Prop :=
| matches_lit l s caps :
    matches (Lit l) (l ++ s) s caps caps
| matches_star p w s caps :
    all_chars p w = true -> matches (StarC p) (w ++ s) s caps caps
| matches_plus p w s caps :
    w <> EmptyString -> all_chars p w = true -> matches (PlusC p) (w ++ s) s caps caps
| matches_cat r1 r2 s s1 s2 caps caps1 caps2 :
    matches r1 s s1 caps caps1 -> matches r2 s1 s2 caps1 caps2 ->
    matches (Cat r1 r2) s s2 caps caps2
| matches_opt_some r s s' caps caps' :
    matches r s s' caps caps' -> matches (Opt r) s s' caps caps'
| matches_opt_none r s caps :
    matches (Opt r) s s caps caps
| matches_grp n r s s' caps caps' :
    matches r s s' caps caps' ->
    matches (Grp n r) s s' caps ((n, consumed s s') :: caps').

(** The marker grammar of the specification:
    [[Source: <name>]], optionally with [, Page: <digits>] and then
    [, Section: <text>] before the closing bracket. *)
Definition page_part (part : string) (pg : option string) : Prop :=
  (pg = None /\ part = EmptyString) \/
  exists ws1 ws2 digits,
    pg = Some digits /\
    all_chars is_space ws1 = true /\ all_chars is_space ws2 = true /\
    digits <> EmptyString /\ all_chars is_digit digits = true /\
    part = ("," ++ ws1 ++ "Page:" ++ ws2 ++ digits)%string.

Definition section_part (part : string) (sec : option string) : Prop :=
  (sec = None /\ part = EmptyString) \/
  exists ws1 ws2 title,
    sec = Some title /\
    all_chars is_space ws1 = true /\ all_chars is_space ws2 = true /\
    title <> EmptyString /\ all_chars not_bracket title = true /\
    part = ("," ++ ws1 ++ "Section:" ++ ws2 ++ title)%string.

Definition marker (m name : string) (pg sec : option string) : Prop :=
  exists ws ppart spart,
    all_chars is_space ws = true /\
    name <> EmptyString /\ all_chars not_comma_bracket name = true /\
    page_part ppart pg /\ section_part spart sec /\
    m = ("[Source:" ++ ws ++ name ++ ppart ++ spart ++ "]")%string.


(** The excerpt of a citation: the bounded preview of the first chunk, in
    evidence order, that has the cited file name and, when a page is cited,
    the cited page; empty when there is none. *)
Definition excerpt (retrieved_docs : list Document) (source : string) (page : option Z)
  : string :=
  match find (cites source page) retrieved_docs with
  | Some doc => (take 200 (page_content doc) ++ "...")%string
  | None => EmptyString
  end.

(** The citation [c] reports the marker that the match [m] spans in [answer]. *)
Definition reports (answer : string) (retrieved_docs : list Document)
    (m : Match) (c : Citation) : Prop :=
  exists text name pg sec rest,
    drop (m_start m) answer = (text ++ rest)%string /\
    String.length text = (m_end m - m_start m)%nat /\
    marker text name pg sec /\
    source c = strip name /\
    match pg with
    | Some digits => exists n, py_int digits = Ok n /\ page c = Some n
    | None => page c = None
    end /\
    section c = option_map strip sec /\
    chunk_text c = excerpt retrieved_docs (source c) (page c).

(** ** Vocabulary of the confidence and orchestration properties *)

(** The mean relevance score of the evidence, 0 without evidence. *)
Definition mean_score (retrieved_docs : list Scored) : Q :=
  match retrieved_docs with
  | [] => 0
  | _ :: _ =>
      fold_right Qplus 0 (map snd retrieved_docs) / Q_of_nat (List.length retrieved_docs)
  end.

Definition clamp_unit (x : Q) : Q := Qmin (Qmax x 0) 1.

(** The weighted confidence of the specification. *)
Definition weighted_confidence (answer : string) (retrieved_docs : list Scored)
    (citations : list Citation) : Q :=
  clamp_unit
    (0.5 * mean_score retrieved_docs +
     0.3 * Qmin (Q_of_nat (List.length citations) / 3) 1 +
     0.2 * Qmin (Q_of_nat (String.length answer) / 200) 1).

(** The call by which [query] retrieves in a given search mode. *)
Definition retrieval_call (question search_mode : string) : Call :=
  if String.eqb search_mode "hybrid" then CallHybridSearch question
  else if String.eqb search_mode "vector" then CallSimilaritySearch question
  else CallBm25Search question.

(** The two entries of one turn: the user question, then the assistant answer. *)
Definition turn_entries (turn : string * string) : list Message :=
  [HumanMessage (fst turn); AIMessage (snd turn)].

(** The [n] most recent entries of a history, oldest first. *)
Definition most_recent {A : Type} (n : nat) (l : list A) : list A :=
  skipn (List.length l - n) l.

(** The history a completed query leaves, when memory is enabled. *)
Definition remembered (history : list Message) (question answer : string) : list Message :=
  most_recent 10 (history ++ turn_entries (question, answer)).

Definition is_llm_call (c : Call) : bool :=
  match c with
  | CallLlmInvoke _ => true
  | _ => false
  end.

(** What the retrieval of [query] yields, apart from the call it logs. *)
Definition retrieved (Config : Configuration)
    (bm25_document_score : list (list string) -> list string -> list string -> Q)
    (tie_order : list Q -> nat -> nat -> bool)
    (me : RAGChain) (question search_mode : string) : result (list Scored) :=
  if String.eqb search_mode "hybrid"
  then hybrid_search Config bm25_document_score tie_order (retriever me) question None 0.5
  else if String.eqb search_mode "vector"
  then Ok (similarity_search Config (rag_vector_store me) question None)
  else bm25_search bm25_document_score tie_order (retriever me) question 10.

(** A chain of the given store and history, its retriever as constructed. *)
Definition chain_of (vs : VectorStore) (history : list Message) : RAGChain :=
  {| rag_vector_store := vs;
     retriever := HybridRetriever_init vs;
     conversation_history := history |}.

Section RoundTrips.

Variable Config : Configuration.
Variable bm25_document_score : list (list string) -> list string -> list string -> Q.
Variable tie_order : list Q -> nat -> nat -> bool.
Variable llm_invoke : list Message -> string.
Variable _format_context : list Scored -> string.
Variable system_message : string.

(** One [query] after the other, each on the world the one before left;
    the responses come back in the order of the questions. *)
Fixpoint round_trips (questions : list string) (use_conversation_history : bool)
    (search_mode : string) (w : World) : list (result RAGResponse) * World :=
  match questions with
  | [] => ([], w)
  | question :: rest =>
      let (r, w1) :=
        query Config bm25_document_score tie_order llm_invoke _format_context system_message
          question use_conversation_history search_mode w in
      let (rs, w2) := round_trips rest use_conversation_history search_mode w1 in
      (r :: rs, w2)
  end.

End RoundTrips.

Definition answer_of (r : result RAGResponse) : string :=
  match r with
  | Ok response => answer response
  | Raise _ => EmptyString
  end.

(** ** Vocabulary of the proofs *)

(** Ascending score: what [np.argsort] guarantees of the indices. *)
Definition ascending (scores : list Q) (i j : nat) : Prop :=
  nth i scores 0 <= nth j scores 0.

(** Descending score: the order of the reversed [np.argsort]. *)
Definition descending (scores : list Q) (i j : nat) : Prop :=
  nth j scores 0 <= nth i scores 0.

(** The indices [bm25_search] keeps. *)
Definition kept_indices (tie_order : list Q -> nat -> nat -> bool) (scores : list Q)
    (k : nat) : list nat :=
  filter (fun i => Qlt_bool 0 (nth i scores 0)) (firstn k (rev (argsort tie_order scores))).

(** An entry of [combined_scores] and an item of the fused list agree. *)
Definition entry_agrees (e : Entry) (f : Scored) : Prop :=
  e_doc e = fst f /\ e_score e == snd f.

(** The two normalised candidate lists [hybrid_search] fuses. *)
Definition semantic_list (Config : Configuration) (vs : VectorStore) (query : string)
    (k : nat) : list Scored :=
  normalize_scores (similarity_search Config vs query (Some (k * 2)%nat)).

Definition lexical_list
    (bm25_document_score : list (list string) -> list string -> list string -> Q)
    (tie_order : list Q -> nat -> nat -> bool)
    (vs : VectorStore) (query : string) (k : nat) : list Scored :=
  normalize_scores
    (lexical_candidates bm25_document_score tie_order (HybridRetriever_init vs) query (k * 2)).

(** ** Sample data *)

Definition chunk (text name : string) (page : option Z) : Document :=
  {| page_content := text;
     metadata := {| meta_filename := Some name; meta_page := page;
                    meta_section := None; meta_doc_id := None |} |}.

(** A stand-in for the BM25 scorer: the number of query tokens that occur
    in the document. *)
Definition overlap_score (corpus : list (list string)) (tokenized_query doc : list string)
  : Q :=
  Q_of_nat (List.length (filter (fun t => existsb (String.eqb t) doc) tokenized_query)).

(** A tie order for [np.argsort]: indices of equal score in index order,
    as the insertion sort that NumPy runs on short arrays leaves them. *)
Definition insertion_ties (scores : list Q) (i j : nat) : bool := true.

(** The opposite tie order: indices of equal score in reverse index order. *)
Definition reversed_ties (scores : list Q) (i j : nat) : bool := false.

Definition sample_config : Configuration :=
  {| TOP_K_RESULTS := 5; SIMILARITY_THRESHOLD := 0.7; ENABLE_CONVERSATION_MEMORY := true |}.

Definition doc_a : Document := chunk "alpha x" "a.txt" None.
Definition doc_b : Document := chunk "beta x" "b.txt" None.
Definition doc_c : Document := chunk "gamma x x" "c.txt" None.

(** A store of two chunks that score alike on the query [x]; its
    similarity search finds nothing. *)
Definition tie_store : VectorStore :=
  {| similarity_search_with_relevance_scores := fun _ _ => [];
     get_all_documents := [doc_a; doc_b] |}.

(** A store of three chunks; its similarity search ranks [doc_c] above
    [doc_a] and returns at most the number of chunks asked for. *)
Definition fusion_store : VectorStore :=
  {| similarity_search_with_relevance_scores :=
       fun _ n => firstn n [(doc_c, 0.9); (doc_a, 0.8)];
     get_all_documents := [doc_a; doc_b; doc_c] |}.

(** A store that holds the same text twice, under two file names. *)
Definition doc_a_copy : Document := chunk "alpha x" "copy.txt" None.

Definition duplicate_store : VectorStore :=
  {| similarity_search_with_relevance_scores :=
       fun _ n => firstn n [(doc_a, 0.9); (doc_c, 0.8)];
     get_all_documents := [doc_a; doc_a_copy; doc_c] |}.

Definition sample_llm (prompt : list Message) : string :=
  "Chunks share x. [Source: c.txt]".

Definition sample_format (retrieved_docs : list Scored) : string := "context".

Definition sample_world (vs : VectorStore) : World :=
  {| self := chain_of vs []; calls := [] |}.

Definition six_questions : list string :=
  ["one"; "two"; "three"; "four"; "five"; "six"]%string.

(** ** Further sample data *)

Definition empty_store : VectorStore :=
  {| similarity_search_with_relevance_scores := fun _ _ => [];
     get_all_documents := [] |}.

(** A retriever that was built on [tie_store] and whose store has been
    emptied since. *)
Definition emptied_retriever : HybridRetriever :=
  {| vector_store := empty_store;
     bm25 := bm25 (HybridRetriever_init tie_store);
     documents := documents (HybridRetriever_init tie_store) |}.

(** ** Vocabulary of the further properties *)

(** An entry of [combined_scores] is filed under the text of its chunk,
    and the chunk is one of [pool]. *)
Definition filed_from (pool : list Document) (kv : string * Entry) : Prop :=
  page_content (e_doc (snd kv)) = fst kv /\ In (e_doc (snd kv)) pool.

(** ** The rest of the RAG chain ([rag_chain.py]) *)

(** [RAGChain.clear_history] *)
Definition clear_history : M unit := set_conversation_history [].

(** [all_results.sort(key=lambda x: x[1], reverse=True)]: the stable sort
    again, on scored chunks. *)
Fixpoint insert_by_score (x : Scored) (l : list Scored) : list Scored :=
  match l with
  | [] => [x]
  | y :: l' =>
      if Qlt_bool (snd x) (snd y) then y :: insert_by_score x l' else x :: l
  end.

Definition sort_by_score (l : list Scored) : list Scored :=
  fold_right insert_by_score [] l.

Section Comparison.

Variable Config : Configuration.
Variable llm_invoke : list Message -> string.
Variable _format_context : list Scored -> string.
Variable system_message : string.

(** The relevance search of the Chroma collection under the filter
    [{"doc_id": doc_id}]. *)
Variable filtered_relevance_search : VectorStore -> string -> nat -> string -> list Scored.

(** [VectorStore.similarity_search] with a [filter_dict] on [doc_id]. *)
Definition similarity_search_filter (self : VectorStore) (query : string)
    (k : option nat) (doc_id : string) : list Scored :=
  let k := py_or k (TOP_K_RESULTS Config) in
  let results := filtered_relevance_search self query k doc_id in
  filter (fun r => Qle_bool (SIMILARITY_THRESHOLD Config) (snd r)) results.

(** The loop of [compare_documents] over [doc_ids]. *)
Fixpoint compare_retrieve (question : string) (doc_ids : list string)
    (all_results : list Scored) : M (list Scored) :=
  match doc_ids with
  | [] => ret all_results
  | doc_id :: rest =>
      me <~ get_self ;;
      log_call (CallSimilaritySearch question) ;;;
      let results := similarity_search_filter (rag_vector_store me) question None doc_id in
      compare_retrieve question rest (all_results ++ results)
  end.

Definition comparison_prompt (question : string) : string :=
  ("Based on the provided context from multiple documents, compare and contrast the information regarding: "
   ++ question ++ newline ++ newline ++
   "Structure your answer as:" ++ newline ++
   "1. Summary of each document's perspective" ++ newline ++
   "2. Key similarities" ++ newline ++
   "3. Key differences" ++ newline ++
   "4. Overall conclusion" ++ newline ++ newline ++
   "Include citations for each point.")%string.

Definition compare_documents (question : string) (doc_ids : list string) : M RAGResponse :=
  all_results <~ compare_retrieve question doc_ids [] ;;
  let all_results := sort_by_score all_results in
  let top := firstn (TOP_K_RESULTS Config * 2) all_results in
  let context := _format_context top in
  let prompt := format_messages system_message context (comparison_prompt question) [] in
  log_call (CallLlmInvoke prompt) ;;;
  let answer := llm_invoke prompt in
  let docs_only := map fst top in
  citations <~ lift (_extract_citations answer docs_only) ;;
  let confidence := _calculate_confidence answer top citations in
  ret {| answer := answer; citations := citations; confidence := confidence;
         retrieved_chunks := docs_only |}.

End Comparison.

(** The chunks [compare_documents] gathers for [doc_ids], in gathering order. *)
Definition gathered (Config : Configuration)
    (filtered_relevance_search : VectorStore -> string -> nat -> string -> list Scored)
    (vs : VectorStore) (question : string) (doc_ids : list string) : list Scored :=
  flat_map (similarity_search_filter Config filtered_relevance_search vs question None)
    doc_ids.

(** The prompt [query] sends for [question] over [evidence] with the
    history entries [chat_history]. *)
Definition query_prompt (_format_context : list Scored -> string) (system_message : string)
    (evidence : list Scored) (question : string) (chat_history : list Message)
  : list Message :=
  format_messages system_message (_format_context evidence) question chat_history.

(** The character [c] does not occur in [s]. *)
Definition free_of (c : ascii) (s : string) : bool :=
  all_chars (fun x => negb (Ascii.eqb x c)) s.


(** A configuration with the conversation memory switched off. *)
Definition memoryless_config : Configuration :=
  {| TOP_K_RESULTS := 2; SIMILARITY_THRESHOLD := 0; ENABLE_CONVERSATION_MEMORY := false |}.

(** ** The evaluator ([evaluator.py]) *)

Record EvaluationMetrics := {
  answer_relevance : Q;
  citation_accuracy : Q;
  faithfulness : Q;
  retrieval_precision : Q;
  response_time : Q;
  timestamp : string
}.

(** An entry of [evaluation_history]. *)
Record Evaluation := {
  ev_question : string;
  ev_answer : string;
  ev_metrics : EvaluationMetrics
}.

(** [sep.join(parts)] *)
Fixpoint join (sep : string) (parts : list string) : string :=
  match parts with
  | [] => EmptyString
  | [p] => p
  | p :: rest => (p ++ sep ++ join sep rest)%string
  end.

(** [s.split(sep)] for a one-character separator: the pieces between the
    separators, the empty ones included. *)
Fixpoint split_on (sep : ascii) (s : string) : list string :=
  match s with
  | EmptyString => [EmptyString]
  | String c s' =>
      if Ascii.eqb c sep
      then EmptyString :: split_on sep s'
      else match split_on sep s' with
           | [] => [String c EmptyString]
           | piece :: pieces => String c piece :: pieces
           end
  end.

Definition newline_char : ascii := ascii_of_nat 10.

(** The loop of [evaluate_citation_accuracy] over the citations; the inner
    loop stops at the first chunk that is the cited one. *)
Fixpoint valid_citations (citations : list Citation) (retrieved_chunks : list Document)
  : nat :=
  match citations with
  | [] => 0
  | citation :: rest =>
      (if existsb (cites (source citation) (page citation)) retrieved_chunks
       then 1 else 0) + valid_citations rest retrieved_chunks
  end.

Definition evaluate_citation_accuracy (answer : string) (citations : list Citation)
    (retrieved_chunks : list Document) : Q :=
  match citations with
  | [] => if (20 <? List.length (split answer))%nat then 0 else 0.5
  | _ :: _ =>
      Q_of_nat (valid_citations citations retrieved_chunks) /
      Q_of_nat (List.length citations)
  end.

(** The keys of the metrics that [get_average_metrics] averages. *)
Definition metrics_keys : list string :=
  ["answer_relevance"; "citation_accuracy"; "faithfulness"; "retrieval_precision";
   "response_time"]%string.

(** [metrics.to_dict()[key]] for the numeric keys. *)
Definition metric (key : string) (m : EvaluationMetrics) : Q :=
  if String.eqb key "answer_relevance" then answer_relevance m
  else if String.eqb key "citation_accuracy" then citation_accuracy m
  else if String.eqb key "faithfulness" then faithfulness m
  else if String.eqb key "retrieval_precision" then retrieval_precision m
  else response_time m.

(** [get_average_metrics]: the returned dict, in insertion order; empty
    for an empty history. *)
Definition get_average_metrics (evaluation_history : list Evaluation) : list (string * Q) :=
  match evaluation_history with
  | [] => []
  | _ :: _ =>
      map (fun key =>
             let values := map (fun eval => metric key (ev_metrics eval)) evaluation_history in
             (("avg_" ++ key)%string, py_sum values / Q_of_nat (List.length values)))
        metrics_keys
  end.

Section Evaluator.

(** [self.llm.invoke(prompt).content]; [Raise] stands for any exception
    the call ends with. *)
Variable llm : string -> result string.

(** [float(s)] on a string: the number read, or [ValueError]. *)
Variable py_float : string -> result Q.

(** [datetime.now().isoformat()] *)
Variable now : string.

Definition relevance_prompt (question answer : string) : string :=
  ("Evaluate the relevance of the answer to the question on a scale of 0-1." ++
   newline ++ newline ++
   "Question: " ++ question ++ newline ++ newline ++
   "Answer: " ++ answer ++ newline ++ newline ++
   "Provide only a number between 0 and 1, where:" ++ newline ++
   "- 1.0 = Perfectly relevant and directly answers the question" ++ newline ++
   "- 0.5 = Partially relevant but misses key points" ++ newline ++
   "- 0.0 = Completely irrelevant" ++ newline ++ newline ++
   "Score:")%string.

(** The body of the [try] of the two graded metrics. *)
Definition graded_score (prompt : string) : result Q :=
  response <- llm prompt ;;
  score <- py_float (strip response) ;;
  Ok (py_max2 0 (py_min2 1 score)).

Definition evaluate_answer_relevance (question answer : string) : Q :=
  match graded_score (relevance_prompt question answer) with
  | Ok score => score
  | Raise _ => 0.5
  end.

Definition faithfulness_prompt (context answer : string) : string :=
  ("Evaluate if the answer is faithful to the provided context. Check if the answer makes claims that are not supported by the context." ++
   newline ++ newline ++
   "Context:" ++ newline ++ context ++ newline ++ newline ++
   "Answer:" ++ newline ++ answer ++ newline ++ newline ++
   "Rate faithfulness on a scale of 0-1:" ++ newline ++
   "- 1.0 = All claims are directly supported by context" ++ newline ++
   "- 0.5 = Some claims go beyond context" ++ newline ++
   "- 0.0 = Answer contradicts or is unrelated to context" ++ newline ++ newline ++
   "Score:")%string.

Definition evaluate_faithfulness (answer : string) (retrieved_chunks : list Document) : Q :=
  let context := join (newline ++ newline) (map page_content (firstn 3 retrieved_chunks)) in
  match graded_score (faithfulness_prompt context answer) with
  | Ok score => score
  | Raise _ => 0.5
  end.

Definition precision_prompt (question : string) (doc : Document) : string :=
  ("Is this document chunk relevant to answering the question?" ++ newline ++ newline ++
   "Question: " ++ question ++ newline ++ newline ++
   "Chunk: " ++ take 500 (page_content doc) ++ "..." ++ newline ++ newline ++
   "Answer with only 'yes' or 'no':")%string.

(** The verdict of the model on one chunk; a failed call counts as no. *)
Definition judged_relevant (question : string) (doc : Document) : bool :=
  match llm (precision_prompt question doc) with
  | Ok response => String.eqb (lower (strip response)) "yes"
  | Raise _ => false
  end.

(** The loop of [evaluate_retrieval_precision]. *)
Fixpoint count_relevant (question : string) (chunks_to_eval : list Document) : nat :=
  match chunks_to_eval with
  | [] => 0
  | doc :: rest =>
      (if judged_relevant question doc then 1 else 0) + count_relevant question rest
  end.

Definition evaluate_retrieval_precision (question : string)
    (retrieved_chunks : list Document) (k : nat) : Q :=
  match retrieved_chunks with
  | [] => 0
  | _ :: _ =>
      let chunks_to_eval := firstn k retrieved_chunks in
      let relevant_count := count_relevant question chunks_to_eval in
      match chunks_to_eval with
      | [] => 0
      | _ :: _ => Q_of_nat relevant_count / Q_of_nat (List.length chunks_to_eval)
      end
  end.

(** [evaluate_response]: the metrics, and the history with the evaluation
    appended. *)
Definition evaluate_response (question : string) (response : RAGResponse)
    (response_time : Q) (evaluation_history : list Evaluation)
  : EvaluationMetrics * list Evaluation :=
  let answer_relevance := evaluate_answer_relevance question (answer response) in
  let citation_accuracy :=
    evaluate_citation_accuracy (answer response) (citations response)
      (retrieved_chunks response) in
  let faithfulness := evaluate_faithfulness (answer response) (retrieved_chunks response) in
  let retrieval_precision :=
    evaluate_retrieval_precision question (retrieved_chunks response) 5 in
  let metrics :=
    {| answer_relevance := answer_relevance;
       citation_accuracy := citation_accuracy;
       faithfulness := faithfulness;
       retrieval_precision := retrieval_precision;
       response_time := response_time;
       timestamp := now |} in
  (metrics,
   evaluation_history ++
   [ {| ev_question := question; ev_answer := answer response; ev_metrics := metrics |} ]).

(** [str(n)] for a count. *)
Definition py_str (n : nat) : string := NilEmpty.string_of_uint (Nat.to_uint n).

Definition questions_prompt (document_text : string) (num_questions : nat) : string :=
  ("Based on the following document excerpt, generate " ++ py_str num_questions ++
   " diverse questions that could be answered using this content." ++ newline ++ newline ++
   "Include:" ++ newline ++
   "- Factual questions (who, what, when, where)" ++ newline ++
   "- Analytical questions (why, how)" ++ newline ++
   "- Comparison questions" ++ newline ++
   "- Definition questions" ++ newline ++ newline ++
   "Document excerpt:" ++ newline ++
   take 2000 document_text ++ newline ++ newline ++
   "Generate " ++ py_str num_questions ++ " questions, one per line:")%string.

(** [TestQuestionGenerator.generate_questions_from_document], for a
    non-negative [num_questions]. *)
Definition generate_questions_from_document (document_text : string) (num_questions : nat)
  : result (list string) :=
  response <- llm (questions_prompt document_text num_questions) ;;
  let questions :=
    map strip (filter (fun q => negb (String.eqb (strip q) EmptyString))
                 (split_on newline_char response)) in
  Ok (firstn num_questions questions).

End Evaluator.

(** The four quality metrics of an evaluation lie between 0 and 1. *)
Definition graded (e : Evaluation) : Prop :=
  0 <= answer_relevance (ev_metrics e) <= 1 /\
  0 <= citation_accuracy (ev_metrics e) <= 1 /\
  0 <= faithfulness (ev_metrics e) <= 1 /\
  0 <= retrieval_precision (ev_metrics e) <= 1.

Definition quality_keys : list string :=
  ["answer_relevance"; "citation_accuracy"; "faithfulness"; "retrieval_precision"]%string.

(** The citation came with an excerpt of a chunk. *)
Definition has_excerpt (c : Citation) : bool :=
  negb (String.eqb (chunk_text c) EmptyString).

(** Sample collaborators of the evaluator: a model that answers every
    prompt with [ 0.8 ] and a reader of that reply. *)
Definition grader_llm (prompt : string) : result string := Ok " 0.8 "%string.

Definition sample_float (s : string) : result Q :=
  if String.eqb s "0.8" then Ok 0.8 else Raise ValueError.


(** A model that proposes questions, some lines blank or padded. *)
Definition question_llm (prompt : string) : result string :=
  Ok ("What is x?" ++ newline ++ newline ++ "  Why x? " ++ newline ++ "How?")%string.

(** ** The document processor ([document_processor.py]) *)

(** A section as [extract_sections] returns it: the dict with the keys
    ['title'] and ['content']. *)
Record SectionDict := {
  title : string;
  content : string
}.

(** The truth value of a string: the empty one is falsy. *)
Definition truthy (s : string) : bool := negb (String.eqb s EmptyString).

(** The metadata a file's text is chunked with: the keys ['filename'],
    ['source'], ['page'], ['total_pages'] and ['doc_id']; the page keys are
    absent for a text file. *)
Record FileMetadata := {
  fm_filename : string;
  fm_source : string;
  fm_page : option Z;
  fm_total_pages : option Z;
  fm_doc_id : string
}.

(** A chunk as [create_semantic_chunks] returns it: the text, the file's
    metadata and the two keys added to its copy. *)
Record Chunk := {
  chunk_content : string;
  chunk_file : FileMetadata;
  chunk_section : string;
  chunk_index : nat
}.

(** The chunk as the retrieval side reads it: the metadata keys that the
    chain and the evaluator look up. *)
Definition as_document (c : Chunk) : Document :=
  {| page_content := chunk_content c;
     metadata := {| meta_filename := Some (fm_filename (chunk_file c));
                    meta_page := fm_page (chunk_file c);
                    meta_section := Some (chunk_section c);
                    meta_doc_id := Some (fm_doc_id (chunk_file c)) |} |}.

(** An entry of [pages_content]. *)
Record PageContent := {
  pg_text : string;
  pg_page : nat;
  pg_total_pages : nat
}.

(** What a PDF library makes of a file: opening it may fail; if not, there
    are the pages, and [extract_text] of a page may fail, or give [None] or
    a text. *)
Definition PdfView := result (list (result (option string))).

(** [if text and text.strip()] *)
Definition has_text (text : option string) : bool :=
  match text with
  | None => false
  | Some t => truthy t && truthy (strip t)
  end.

(** The loop over the pages of one library, [pages_content] being appended
    to; an exception ends it and leaves what was appended. *)
Fixpoint read_pages (pages : list (result (option string))) (page_num total_pages : nat)
    (pages_content : list PageContent) : option exn * list PageContent :=
  match pages with
  | [] => (None, pages_content)
  | Raise e :: _ => (Some e, pages_content)
  | Ok text :: rest =>
      let pages_content :=
        if has_text text
        then pages_content ++
             [ {| pg_text := match text with Some t => t | None => EmptyString end;
                  pg_page := page_num; pg_total_pages := total_pages |} ]
        else pages_content in
      read_pages rest (S page_num) total_pages pages_content
  end.

(** One library's attempt. *)
Definition read_pdf (view : PdfView) (pages_content : list PageContent)
  : option exn * list PageContent :=
  match view with
  | Raise e => (Some e, pages_content)
  | Ok pages => read_pages pages 1 (List.length pages) pages_content
  end.

(** [extract_text_from_pdf]: [pdfplumber] first, [PyPDF2] when it fails. *)
Definition extract_text_from_pdf (pdfplumber pypdf2 : PdfView) : result (list PageContent) :=
  match read_pdf pdfplumber [] with
  | (None, pages_content) => Ok pages_content
  | (Some _, pages_content) =>
      match read_pdf pypdf2 pages_content with
      | (None, pages_content) => Ok pages_content
      | (Some _, _) => Raise ValueError
      end
  end.

Section Processor.

(** [re.match(section_pattern, line)] finds a match. *)
Variable is_header : string -> bool.

(** [self.recursive_splitter.split_text] *)
Variable split_text : string -> list string.

(** The body of the loop of [extract_sections] over the lines. *)
Definition sections_step (state : list SectionDict * SectionDict) (line : string)
  : list SectionDict * SectionDict :=
  let (sections, current_section) := state in
  if is_header (strip line)
  then ((if truthy (strip (content current_section))
         then sections ++ [current_section] else sections),
        {| title := strip line; content := EmptyString |})
  else (sections,
        {| title := title current_section;
           content := (content current_section ++ line ++ newline)%string |}).

Definition extract_sections (text : string) : list SectionDict :=
  let (sections, current_section) :=
    fold_left sections_step (split_on newline_char text)
      ([], {| title := "Introduction"; content := EmptyString |}) in
  let sections :=
    if truthy (strip (content current_section))
    then sections ++ [current_section] else sections in
  match sections with
  | [] => [ {| title := "Document"; content := text |} ]
  | _ :: _ => sections
  end.

(** The chunks of one section, numbered from 0. *)
Definition section_chunks (metadata : FileMetadata) (section : SectionDict) : list Chunk :=
  let section_text := (title section ++ newline ++ newline ++ content section)%string in
  let chunks := split_text section_text in
  map (fun ic => {| chunk_content := snd ic; chunk_file := metadata;
                    chunk_section := title section; chunk_index := fst ic |})
    (List.combine (seq 0 (List.length chunks)) chunks).

Definition create_semantic_chunks (text : string) (metadata : FileMetadata) : list Chunk :=
  flat_map (section_chunks metadata) (extract_sections text).

(** [process_pdf] of the file [name] at [path], [digest] being the MD5 hex
    digest of its bytes. *)
Definition process_pdf (name path digest : string) (pdfplumber pypdf2 : PdfView)
  : result (list Chunk) :=
  let doc_id := take 16 digest in
  pages <- extract_text_from_pdf pdfplumber pypdf2 ;;
  Ok (flat_map
        (fun page_data =>
           let metadata :=
             {| fm_filename := name; fm_source := path;
                fm_page := Some (Z.of_nat (pg_page page_data));
                fm_total_pages := Some (Z.of_nat (pg_total_pages page_data));
                fm_doc_id := doc_id |} in
           create_semantic_chunks (pg_text page_data) metadata)
        pages).

(** [process_text_file] of the file [name] at [path] with the content [text]. *)
Definition process_text_file (name path digest text : string) : list Chunk :=
  let doc_id := take 16 digest in
  let metadata :=
    {| fm_filename := name; fm_source := path; fm_page := None; fm_total_pages := None;
       fm_doc_id := doc_id |} in
  create_semantic_chunks text metadata.

End Processor.

(** The pages of a PDF that have text, each with its position in the file,
    counted from [page_num]. *)
Fixpoint pages_with_text (texts : list (option string)) (page_num total_pages : nat)
  : list PageContent :=
  match texts with
  | [] => []
  | text :: rest =>
      (if has_text text
       then [ {| pg_text := match text with Some t => t | None => EmptyString end;
                 pg_page := page_num; pg_total_pages := total_pages |} ]
       else []) ++ pages_with_text rest (S page_num) total_pages
  end.

(** Sample collaborators of the processor: lines that start with [#] are
    headers, and the splitter cuts a text in two halves. *)
Definition hash_header (line : string) : bool := String.prefix "#" line.

Definition halves (s : string) : list string :=
  [take (Nat.div2 (String.length s)) s; drop (Nat.div2 (String.length s)) s].


(** The title of a section of a text of lines [all]: the first title, or a
    header line of the text, stripped. *)
Definition titled (is_header : string -> bool) (all : list string) (s : SectionDict) : Prop :=
  title s = "Introduction"%string \/
  exists line, In line all /\ is_header (strip line) = true /\ title s = strip line.

(** A section with content, duly titled. *)
Definition proper_section (is_header : string -> bool) (all : list string)
    (s : SectionDict) : Prop :=
  strip (content s) <> EmptyString /\ titled is_header all s.

(** ** The command line ([cli.py]) *)

(** An entry of [doc_map] in [list_documents]: the dict with the keys
    ['filename'], ['chunks'] and ['pages'], the set of pages as the list of
    its members. *)
Record DocInfo := {
  info_filename : string;
  info_chunks : nat;
  info_pages : list Z
}.

Definition DocMap := list (string * DocInfo).

(** [doc_id in doc_map] *)
Fixpoint info_mem (doc_id : string) (doc_map : DocMap) : bool :=
  match doc_map with
  | [] => false
  | (k, _) :: rest => if String.eqb k doc_id then true else info_mem doc_id rest
  end.

(** [doc_map[doc_id]] *)
Fixpoint info_get (doc_id : string) (doc_map : DocMap) : option DocInfo :=
  match doc_map with
  | [] => None
  | (k, v) :: rest => if String.eqb k doc_id then Some v else info_get doc_id rest
  end.

(** An update in place of the entry [doc_map[doc_id]]. *)
Fixpoint info_update (doc_id : string) (f : DocInfo -> DocInfo) (doc_map : DocMap)
  : DocMap :=
  match doc_map with
  | [] => []
  | (k, v) :: rest =>
      if String.eqb k doc_id then (k, f v) :: rest
      else (k, v) :: info_update doc_id f rest
  end.

(** [pages.add(p)] *)
Definition pages_add (p : Z) (pages : list Z) : list Z :=
  if existsb (Z.eqb p) pages then pages else pages ++ [p].

(** [doc.metadata.get('doc_id', 'unknown')] *)
Definition doc_id_or_unknown (doc : Document) : string :=
  match meta_doc_id (metadata doc) with
  | Some doc_id => doc_id
  | None => "unknown"
  end.

(** [doc.metadata.get('filename', 'Unknown')] *)
Definition filename_or_unknown (doc : Document) : string :=
  match meta_filename (metadata doc) with
  | Some filename => filename
  | None => "Unknown"
  end.

(** The body of the grouping loop of [list_documents]. *)
Definition list_documents_step (doc_map : DocMap) (doc : Document) : DocMap :=
  let filename := filename_or_unknown doc in
  let doc_id := doc_id_or_unknown doc in
  let doc_map :=
    if negb (info_mem doc_id doc_map)
    then doc_map ++ [(doc_id, {| info_filename := filename; info_chunks := 0;
                                 info_pages := [] |})]
    else doc_map in
  let doc_map :=
    info_update doc_id
      (fun info => {| info_filename := info_filename info;
                      info_chunks := info_chunks info + 1;
                      info_pages := info_pages info |}) doc_map in
  match meta_page (metadata doc) with
  | Some p =>
      info_update doc_id
        (fun info => {| info_filename := info_filename info;
                        info_chunks := info_chunks info;
                        info_pages := pages_add p (info_pages info) |}) doc_map
  | None => doc_map
  end.

(** [list_documents]: the documents it lists, in the order listed;
    [None] stands for the message that no documents are indexed. *)
Definition list_documents (all_docs : list Document) : option DocMap :=
  match all_docs with
  | [] => None
  | _ :: _ => Some (fold_left list_documents_step all_docs [])
  end.

(** The chunks of [all_docs] filed under [doc_id]. *)
Definition chunks_of (doc_id : string) (all_docs : list Document) : list Document :=
  filter (fun doc => String.eqb (doc_id_or_unknown doc) doc_id) all_docs.


(** The number of chunks that [doc_map] lists in all. *)
Definition listed_chunks (doc_map : DocMap) : nat :=
  list_sum (map (fun kv => info_chunks (snd kv)) doc_map).

(** The entries of [doc_map] count and name the chunks [processed]. *)
Definition groups (processed : list Document) (doc_map : DocMap) : Prop :=
  NoDup (map fst doc_map) /\
  listed_chunks doc_map = List.length processed /\
  forall doc_id,
    match info_get doc_id doc_map with
    | Some info =>
        info_chunks info = List.length (chunks_of doc_id processed) /\
        exists first,
          hd_error (chunks_of doc_id processed) = Some first /\
          info_filename info = filename_or_unknown first
    | None => chunks_of doc_id processed = []
    end.


(** ** Vocabulary of the citation and history properties *)

(** The number of digits of the page a match cites, 0 when it cites none. *)
Definition page_digits (m : Match) : nat :=
  match group m 2 with
  | Some digits => String.length digits
  | None => 0
  end.


(** A round trip that came back with a generated answer: a response with
    evidence. *)
Definition answered (r : result RAGResponse) : Prop :=
  exists response, r = Ok response /\ retrieved_chunks response <> [].

(** [n] times the character [c]. *)
Fixpoint repeat_char (c : ascii) (n : nat) : string :=
  match n with
  | O => EmptyString
  | S n' => String c (repeat_char c n')
  end.

(** An answer that cites a page of 4301 digits. *)
Definition long_page_answer : string :=
  ("See [Source: a.txt, Page: " ++ repeat_char "9" 4301 ++ "].")%string.

(** A model that gives that answer. *)
Definition long_page_llm (prompt : list Message) : string := long_page_answer.


(** The place of [i] in [p], counted from 0; the length of [p] when [i]
    is not in it. *)
Fixpoint position (i : nat) (p : list nat) : nat :=
  match p with
  | [] => 0
  | j :: p' => if Nat.eqb i j then 0 else S (position i p')
  end.

(** The tie order that an outcome [p] of the sort shows: [i] before [j]
    when it comes before it in [p]. *)
Definition shown_ties (p : list nat) (scores : list Q) (i j : nat) : bool :=
  (position i p <? position j p)%nat.

(** * Properties *)

Lemma Qlt_bool_iff (x y : Q) : Qlt_bool x y = true <-> x < y.
Proof.
  unfold Qlt_bool. rewrite negb_true_iff.
  split; intro H.
  - apply Qnot_le_lt. intro Hle. apply Qle_bool_iff in Hle. congruence.
  - destruct (Qle_bool y x) eqn:E; [|reflexivity].
    apply Qle_bool_iff in E. exfalso. apply (Qlt_not_le _ _ H E).
Qed.

Lemma Qlt_bool_false (x y : Q) : Qlt_bool x y = false <-> y <= x.
Proof.
  unfold Qlt_bool. rewrite negb_false_iff. apply Qle_bool_iff.
Qed.

(** *** Facts about [py_max] and [py_min] *)

Lemma py_max_ge_cur (l : list Q) : forall cur, cur <= py_max cur l.
Proof.
  induction l as [|x l IH]; intros cur; simpl.
  - apply Qle_refl.
  - destruct (Qlt_bool cur x) eqn:E.
    + apply Qlt_bool_iff in E. eapply Qle_trans; [apply Qlt_le_weak; exact E | apply IH].
    + apply IH.
Qed.

Lemma py_max_upper (l : list Q) : forall cur x, In x l -> x <= py_max cur l.
Proof.
  induction l as [|y l IH]; intros cur x Hin; simpl in *; [contradiction|].
  destruct Hin as [->|Hin]; [|apply IH; exact Hin].
  destruct (Qlt_bool cur x) eqn:E.
  - apply py_max_ge_cur.
  - apply Qlt_bool_false in E. eapply Qle_trans; [exact E | apply py_max_ge_cur].
Qed.

Lemma py_max_in (l : list Q) : forall cur, py_max cur l = cur \/ In (py_max cur l) l.
Proof.
  induction l as [|y l IH]; intros cur; simpl; [left; reflexivity|].
  destruct (IH (if Qlt_bool cur y then y else cur)) as [H|H].
  - destruct (Qlt_bool cur y); rewrite H; auto.
  - right; right; exact H.
Qed.

Lemma py_min_le_cur (l : list Q) : forall cur, py_min cur l <= cur.
Proof.
  induction l as [|x l IH]; intros cur; simpl.
  - apply Qle_refl.
  - destruct (Qlt_bool x cur) eqn:E.
    + apply Qlt_bool_iff in E. eapply Qle_trans; [apply IH | apply Qlt_le_weak; exact E].
    + apply IH.
Qed.

Lemma py_min_lower (l : list Q) : forall cur x, In x l -> py_min cur l <= x.
Proof.
  induction l as [|y l IH]; intros cur x Hin; simpl in *; [contradiction|].
  destruct Hin as [->|Hin]; [|apply IH; exact Hin].
  destruct (Qlt_bool x cur) eqn:E.
  - apply py_min_le_cur.
  - apply Qlt_bool_false in E. eapply Qle_trans; [apply py_min_le_cur | exact E].
Qed.

Lemma py_min_in (l : list Q) : forall cur, py_min cur l = cur \/ In (py_min cur l) l.
Proof.
  induction l as [|y l IH]; intros cur; simpl; [left; reflexivity|].
  destruct (IH (if Qlt_bool y cur then y else cur)) as [H|H].
  - destruct (Qlt_bool y cur); rewrite H; auto.
  - right; right; exact H.
Qed.

Lemma normalize_scores_unfold (results : list Scored) :
  normalize_scores results =
  map (fun r => (fst r, (snd r - score_min results) / score_range results)) results.
Proof. destruct results; reflexivity. Qed.

Lemma score_max_is_maximum (results : list Scored) :
  results <> [] -> is_maximum (score_max results) (map snd results).
Proof.
  destruct results as [|[d s] rest]; [congruence|]. intros _.
  unfold score_max; simpl. split.
  - destruct (py_max_in (map snd rest) s) as [H|H]; [left; auto | right; exact H].
  - intros x [<-|Hx]; [apply py_max_ge_cur | apply py_max_upper; exact Hx].
Qed.

Lemma score_min_is_minimum (results : list Scored) :
  results <> [] -> is_minimum (score_min results) (map snd results).
Proof.
  destruct results as [|[d s] rest]; [congruence|]. intros _.
  unfold score_min; simpl. split.
  - destruct (py_min_in (map snd rest) s) as [H|H]; [left; auto | right; exact H].
  - intros x [<-|Hx]; [apply py_min_le_cur | apply py_min_lower; exact Hx].
Qed.

Lemma score_min_le_max (results : list Scored) :
  results <> [] -> score_min results <= score_max results.
Proof.
  intros Hne.
  destruct (score_max_is_maximum Hne) as [_ Hub].
  destruct (score_min_is_minimum Hne) as [Hin _].
  apply Hub, Hin.
Qed.

Lemma score_range_pos (results : list Scored) :
  results <> [] -> 0 < score_range results.
Proof.
  intros Hne. unfold score_range.
  destruct (Qeq_bool (score_max results) (score_min results)) eqn:E; cbn [negb].
  - reflexivity.
  - apply Qeq_bool_neq in E. pose proof (score_min_le_max Hne) as Hle.
    destruct (Qlt_le_dec (score_min results) (score_max results)) as [Hlt|Hge].
    + lra.
    + exfalso. apply E. apply Qle_antisym; assumption.
Qed.

Lemma score_range_equal (results : list Scored) :
  all_equal (map snd results) -> results <> [] ->
  score_range results == 1 /\ score_max results == score_min results.
Proof.
  intros Heq Hne.
  destruct (score_max_is_maximum Hne) as [Hmx _].
  destruct (score_min_is_minimum Hne) as [Hmn _].
  pose proof (Heq _ _ Hmx Hmn) as E.
  split; [|exact E].
  unfold score_range. apply Qeq_bool_iff in E. rewrite E. cbn [negb]. reflexivity.
Qed.

Lemma score_range_distinct (results : list Scored) :
  ~ all_equal (map snd results) -> results <> [] ->
  score_range results == score_max results - score_min results /\
  score_min results < score_max results.
Proof.
  intros Hneq Hne.
  destruct (score_max_is_maximum Hne) as [_ Hub].
  destruct (score_min_is_minimum Hne) as [_ Hlb].
  assert (Hlt : score_min results < score_max results).
  { destruct (Qlt_le_dec (score_min results) (score_max results)) as [H|H]; [exact H|].
    exfalso. apply Hneq. intros x y Hx Hy.
    pose proof (Hub _ Hx). pose proof (Hlb _ Hx).
    pose proof (Hub _ Hy). pose proof (Hlb _ Hy).
    apply Qle_antisym; lra. }
  split; [|exact Hlt].
  unfold score_range.
  destruct (Qeq_bool (score_max results) (score_min results)) eqn:E; cbn [negb].
  - apply Qeq_bool_iff in E. lra.
  - reflexivity.
Qed.

Lemma normalized_in_unit (results : list Scored) (s : Q) :
  results <> [] -> In s (map snd results) ->
  0 <= (s - score_min results) / score_range results <= 1.
Proof.
  intros Hne Hin.
  pose proof (score_range_pos Hne) as Hpos.
  destruct (score_max_is_maximum Hne) as [_ Hub].
  destruct (score_min_is_minimum Hne) as [_ Hlb].
  pose proof (Hub _ Hin) as Hle. pose proof (Hlb _ Hin) as Hge.
  split.
  - apply Qle_shift_div_l; [exact Hpos|]. lra.
  - apply Qle_shift_div_r; [exact Hpos|].
    unfold score_range in *.
    destruct (Qeq_bool (score_max results) (score_min results)) eqn:E; cbn [negb] in *.
    + apply Qeq_bool_iff in E. lra.
    + lra.
Qed.

(** C2. Score normalisation: the empty list maps to the empty list; on a
    non-empty list the items keep their order, every normalised score lies
    in [0,1], a constant list maps to 0 everywhere, and otherwise the
    rescaling is the linear map [(s - min) / (max - min)], which sends the
    maximum to 1 and the minimum to 0. *)
Theorem normalize_scores_bounds :
  normalize_scores [] = [] /\
  forall results : list Scored, results <> [] ->
    let out := normalize_scores results in
    let scores := map snd results in
    map fst out = map fst results /\
    (forall d s, In (d, s) out -> 0 <= s <= 1) /\
    (forall i d s, nth_error results i = Some (d, s) ->
       exists s', nth_error out i = Some (d, s') /\
         (all_equal scores -> s' == 0) /\
         (~ all_equal scores ->
            (forall hi lo, is_maximum hi scores -> is_minimum lo scores ->
                           s' == (s - lo) / (hi - lo)) /\
            (is_maximum s scores -> s' == 1) /\
            (is_minimum s scores -> s' == 0))).
Proof.
  split; [reflexivity|].
  intros results Hne out scores. subst out scores.
  rewrite normalize_scores_unfold.
  split; [|split].
  - rewrite map_map. reflexivity.
  - intros d s Hin. apply in_map_iff in Hin. destruct Hin as [[d0 s0] [E Hin]].
    simpl in E. inversion E; subst.
    apply normalized_in_unit; [exact Hne|].
    apply in_map_iff. exists (d, s0). auto.
  - intros i d s Hnth.
    exists ((s - score_min results) / score_range results). split.
    { erewrite map_nth_error by exact Hnth. reflexivity. }
    assert (Hin : In s (map snd results)).
    { apply in_map_iff. exists (d, s). split; [reflexivity|].
      eapply nth_error_In; eauto. }
    destruct (score_max_is_maximum Hne) as [Hmxin Hub].
    destruct (score_min_is_minimum Hne) as [Hmnin Hlb].
    split.
    + intros Heq. destruct (score_range_equal Heq Hne) as [Hr _].
      pose proof (Heq _ _ Hin Hmnin) as E.
      rewrite Hr, E. field.
    + intros Hneq. destruct (score_range_distinct Hneq Hne) as [Hr Hlt].
      assert (Hmax : forall hi, is_maximum hi (map snd results) -> hi == score_max results).
      { intros hi [Hhi Hhub]. apply Qle_antisym; [apply Hub, Hhi | apply Hhub, Hmxin]. }
      assert (Hmin : forall lo, is_minimum lo (map snd results) -> lo == score_min results).
      { intros lo [Hlo Hllb]. apply Qle_antisym; [apply Hllb, Hmnin | apply Hlb, Hlo]. }
      split; [|split].
      * intros hi lo Hhi Hlo. rewrite Hr, (Hmax _ Hhi), (Hmin _ Hlo). reflexivity.
      * intros Hs. rewrite Hr, (Hmax _ Hs). field. lra.
      * intros Hs. rewrite Hr, (Hmin _ Hs). field. lra.
Qed.


(** ** Lexical search *)

Lemma StronglySorted_app {A : Type} (R : A -> A -> Prop) (l1 l2 : list A) :
  StronglySorted R l1 -> StronglySorted R l2 ->
  (forall x y, In x l1 -> In y l2 -> R x y) ->
  StronglySorted R (l1 ++ l2).
Proof.
  induction l1 as [|a l1 IH]; simpl; intros H1 H2 H12; [exact H2|].
  inversion H1 as [|? ? Hs Hf]; subst.
  constructor.
  - apply IH; auto.
  - apply Forall_app. split; [exact Hf|].
    apply Forall_forall. intros y Hy. apply H12; auto.
Qed.

Lemma StronglySorted_app_inv {A : Type} (R : A -> A -> Prop) (l1 l2 : list A) :
  StronglySorted R (l1 ++ l2) ->
  StronglySorted R l1 /\ StronglySorted R l2 /\
  (forall x y, In x l1 -> In y l2 -> R x y).
Proof.
  induction l1 as [|a l1 IH]; simpl; intros H.
  - repeat split; [constructor | exact H | intros x y []].
  - inversion H as [|? ? Hs Hf]; subst.
    destruct (IH Hs) as [H1 [H2 H12]].
    rewrite Forall_app in Hf. destruct Hf as [Hf1 Hf2].
    repeat split; [constructor; assumption | exact H2 |].
    intros x y [<-|Hx] Hy; [|apply H12; assumption].
    rewrite Forall_forall in Hf2. apply Hf2, Hy.
Qed.

Lemma StronglySorted_rev {A : Type} (R : A -> A -> Prop) (l : list A) :
  StronglySorted R l -> StronglySorted (fun x y => R y x) (rev l).
Proof.
  induction 1 as [|a l Hs IH Hf]; simpl; [constructor|].
  apply StronglySorted_app; [exact IH | repeat constructor |].
  intros x y Hx [<-|[]]. apply in_rev in Hx.
  rewrite Forall_forall in Hf. apply Hf, Hx.
Qed.

Lemma In_firstn {A : Type} (x : A) (n : nat) (l : list A) :
  In x (firstn n l) -> In x l.
Proof.
  revert n. induction l as [|a l IH]; intros [|n]; simpl; try tauto.
  intros [H|H]; [left; exact H | right; eapply IH; exact H].
Qed.

Lemma StronglySorted_firstn {A : Type} (R : A -> A -> Prop) (l : list A) :
  StronglySorted R l -> forall n, StronglySorted R (firstn n l).
Proof.
  induction 1 as [|a l Hs IH Hf]; intros [|n]; simpl; try constructor.
  - apply IH.
  - rewrite Forall_forall in *. intros x Hx. apply Hf.
    eapply In_firstn; eauto.
Qed.

Lemma StronglySorted_filter {A : Type} (R : A -> A -> Prop) (f : A -> bool) (l : list A) :
  StronglySorted R l -> StronglySorted R (filter f l).
Proof.
  induction 1 as [|a l Hs IH Hf]; simpl; [constructor|].
  destruct (f a); [|exact IH].
  constructor; [exact IH|].
  rewrite Forall_forall in *. intros x Hx. apply filter_In in Hx. apply Hf, Hx.
Qed.

Lemma seq_sorted (n a : nat) : StronglySorted lt (seq a n).
Proof.
  revert a. induction n as [|n IH]; intros a; simpl; constructor; [apply IH|].
  apply Forall_forall. intros x Hx. apply in_seq in Hx. lia.
Qed.

Section Argsort.

Variable tie_order : list Q -> nat -> nat -> bool.

Lemma insert_idx_perm (scores : list Q) (i : nat) (l : list nat) :
  Permutation (insert_idx tie_order scores i l) (i :: l).
Proof.
  induction l as [|j l IH]; simpl; [reflexivity|].
  destruct (Qlt_bool (nth i scores 0) (nth j scores 0) ||
            Qeq_bool (nth i scores 0) (nth j scores 0) && tie_order scores i j);
    [reflexivity|].
  rewrite IH. apply perm_swap.
Qed.

Lemma insert_idx_sorted (scores : list Q) (i : nat) (l : list nat) :
  StronglySorted (ascending scores) l ->
  StronglySorted (ascending scores) (insert_idx tie_order scores i l).
Proof.
  induction 1 as [|j l Hs IH Hf]; simpl; [repeat constructor|].
  destruct (Qlt_bool (nth i scores 0) (nth j scores 0) ||
            Qeq_bool (nth i scores 0) (nth j scores 0) && tie_order scores i j) eqn:E.
  - assert (Hij : nth i scores 0 <= nth j scores 0).
    { apply orb_true_iff in E. destruct E as [E|E].
      - apply Qlt_bool_iff in E. lra.
      - apply andb_true_iff in E. destruct E as [E _]. apply Qeq_bool_iff in E. lra. }
    constructor; [constructor; assumption|].
    constructor; [exact Hij|].
    rewrite Forall_forall in *. intros x Hx. specialize (Hf x Hx).
    unfold ascending in *. lra.
  - assert (Hji : nth j scores 0 <= nth i scores 0).
    { apply orb_false_iff in E. destruct E as [E _]. apply Qlt_bool_false in E. exact E. }
    constructor; [apply IH|].
    rewrite Forall_forall in *. intros x Hx.
    apply (Permutation_in _ (insert_idx_perm scores i l)) in Hx.
    destruct Hx as [<-|Hx]; [exact Hji | apply Hf, Hx].
Qed.

Lemma fold_insert_idx (scores : list Q) (l : list nat) :
  Permutation (fold_right (insert_idx tie_order scores) [] l) l /\
  StronglySorted (ascending scores) (fold_right (insert_idx tie_order scores) [] l).
Proof.
  induction l as [|i l [IHp IHs]]; simpl; [split; [reflexivity | constructor]|].
  split.
  - rewrite insert_idx_perm. constructor. exact IHp.
  - apply insert_idx_sorted. exact IHs.
Qed.

Lemma argsort_perm (scores : list Q) :
  Permutation (argsort tie_order scores) (seq 0 (List.length scores)).
Proof. apply fold_insert_idx. Qed.

Lemma argsort_sorted (scores : list Q) :
  StronglySorted (ascending scores) (argsort tie_order scores).
Proof. apply fold_insert_idx. Qed.

Lemma argsort_bound (scores : list Q) (i : nat) :
  In i (argsort tie_order scores) -> (i < List.length scores)%nat.
Proof.
  intros H. apply (Permutation_in _ (argsort_perm scores)) in H.
  apply in_seq in H. lia.
Qed.

Lemma kept_indices_sorted (scores : list Q) (k : nat) :
  StronglySorted (descending scores) (kept_indices tie_order scores k).
Proof.
  apply StronglySorted_filter, StronglySorted_firstn.
  apply (StronglySorted_rev (argsort_sorted scores)).
Qed.

End Argsort.

Lemma bm25_collect_ok (docs : list Document) (scores : list Q) (idxs : list nat) :
  List.length docs = List.length scores ->
  Forall (fun i => (i < List.length scores)%nat) idxs ->
  exists results,
    bm25_collect docs scores idxs = Ok results /\
    drawn_from docs scores (filter (fun i => Qlt_bool 0 (nth i scores 0)) idxs) results /\
    Forall (fun r => 0 < snd r) results.
Proof.
  intros Hlen. induction 1 as [|i idxs Hi Hrest IH]; simpl.
  - exists []. repeat split; constructor.
  - destruct IH as [results [Hres [Hdrawn Hpos]]].
    destruct (nth_error scores i) as [s|] eqn:Es;
      [|apply nth_error_None in Es; lia].
    assert (Hs : nth i scores 0 = s) by (apply nth_error_nth; exact Es).
    unfold py_index at 1. rewrite Es. simpl. rewrite Hs.
    destruct (Qlt_bool 0 s) eqn:Epos.
    + destruct (nth_error docs i) as [d|] eqn:Ed;
        [|apply nth_error_None in Ed; lia].
      unfold py_index. rewrite Ed. simpl. rewrite Hres. simpl.
      exists ((d, s) :: results). split; [reflexivity|]. split.
      * constructor; [split; assumption | exact Hdrawn].
      * constructor; [apply Qlt_bool_iff; exact Epos | exact Hpos].
    + exists results. auto.
Qed.

Lemma drawn_from_length (docs : list Document) (scores : list Q) idxs results :
  drawn_from docs scores idxs results -> List.length results = List.length idxs.
Proof. intros H. symmetry. eapply Forall2_length; eauto. Qed.

Lemma drawn_from_sorted (docs : list Document) (scores : list Q) idxs results :
  drawn_from docs scores idxs results ->
  StronglySorted (descending scores) idxs ->
  StronglySorted (fun a b => snd b <= snd a) results.
Proof.
  induction 1 as [|i r idxs results [_ Hr] H IH]; intros Hs; [constructor|].
  inversion Hs as [|? ? Hs' Hf]; subst.
  constructor; [apply IH; exact Hs'|].
  clear IH Hs Hs'. induction H as [|j r' idxs results [_ Hr'] H IH]; [constructor|].
  inversion Hf as [|? ? Hij Hf']; subst.
  constructor; [|apply IH; exact Hf'].
  apply nth_error_nth with (d := 0) in Hr. apply nth_error_nth with (d := 0) in Hr'.
  unfold descending in Hij. rewrite Hr, Hr' in Hij. exact Hij.
Qed.

Section LexicalSearch.

Variable bm25_document_score : list (list string) -> list string -> list string -> Q.
Variable tie_order : list Q -> nat -> nat -> bool.

Lemma init_documents (vs : VectorStore) :
  documents (HybridRetriever_init vs) = get_all_documents vs.
Proof.
  unfold HybridRetriever_init, _update_bm25_index. simpl.
  destruct (get_all_documents vs); reflexivity.
Qed.

Lemma init_bm25 (vs : VectorStore) :
  bm25 (HybridRetriever_init vs) =
  match get_all_documents vs with
  | [] => None
  | docs => Some (map (fun doc => split (lower (page_content doc))) docs)
  end.
Proof.
  unfold HybridRetriever_init, _update_bm25_index. simpl.
  destruct (get_all_documents vs); reflexivity.
Qed.

Lemma init_scores_length (vs : VectorStore) (query : string) :
  bm25 (HybridRetriever_init vs) <> None ->
  List.length (corpus_scores bm25_document_score (HybridRetriever_init vs) query) =
  List.length (documents (HybridRetriever_init vs)).
Proof.
  unfold corpus_scores. rewrite init_bm25, init_documents.
  destruct (get_all_documents vs) as [|d docs]; [congruence|]. intros _.
  unfold get_scores. rewrite !length_map. reflexivity.
Qed.

(** The outcome of [bm25_search] on a retriever as its constructor leaves
    it: it returns, and what it returns are the positive-score chunks among
    the first [k] of the reversed [argsort]. *)
Lemma bm25_search_returns (vs : VectorStore) (query : string) (k : nat) :
  let self := HybridRetriever_init vs in
  let scores := corpus_scores bm25_document_score self query in
  exists results,
    bm25_search bm25_document_score tie_order self query k = Ok results /\
    drawn_from (documents self) scores (kept_indices tie_order scores k) results /\
    Forall (fun r => 0 < snd r) results.
Proof.
  intros self scores. subst self scores.
  unfold bm25_search, corpus_scores.
  destruct (bm25 (HybridRetriever_init vs)) as [index|] eqn:Ebm.
  - assert (Hlen := @init_scores_length vs query).
    unfold corpus_scores in Hlen. rewrite Ebm in Hlen.
    specialize (Hlen ltac:(congruence)).
    apply bm25_collect_ok; [symmetry; exact Hlen|].
    apply Forall_forall. intros i Hi.
    apply In_firstn, in_rev in Hi. apply (@argsort_bound tie_order _ _ Hi).
  - exists []. repeat split; try constructor.
    unfold kept_indices. simpl. destruct k; constructor.
Qed.

End LexicalSearch.

(** C5 (amended). On a retriever as its constructor leaves it,
    [bm25_search] returns; it returns at most [k] chunks, each with a score
    above 0, in descending order of score.  They are the chunks with a
    score above 0 among the first [k] of the reversed [np.argsort]: chunks
    of equal score come in the reverse of the order in which [np.argsort]
    leaves their indices, an order that NumPy does not specify.  Without an
    index the result is empty. *)
Theorem bm25_search_ranking
    (bm25_document_score : list (list string) -> list string -> list string -> Q)
    (tie_order : list Q -> nat -> nat -> bool)
    (vs : VectorStore) (query : string) (k : nat) :
  let self := HybridRetriever_init vs in
  let scores := corpus_scores bm25_document_score self query in
  let order := argsort tie_order scores in
  (exists results idxs,
     bm25_search bm25_document_score tie_order self query k = Ok results /\
     (List.length results <= k)%nat /\
     Forall (fun r => 0 < snd r) results /\
     StronglySorted (fun a b => snd b <= snd a) results /\
     drawn_from (documents self) scores idxs results /\
     Permutation order (seq 0 (List.length scores)) /\
     StronglySorted (ascending scores) order /\
     idxs = filter (fun i => Qlt_bool 0 (nth i scores 0)) (firstn k (rev order)) /\
     (get_all_documents vs = [] -> results = [])) /\
  (forall unbuilt : HybridRetriever,
     bm25 unbuilt = None ->
     bm25_search bm25_document_score tie_order unbuilt query k = Ok []).
Proof.
  intros self scores order. split.
  - destruct (bm25_search_returns bm25_document_score tie_order vs query k)
      as [results [Hres [Hdrawn Hpos]]].
    fold self in Hres, Hdrawn. fold scores in Hdrawn.
    exists results, (kept_indices tie_order scores k).
    split; [exact Hres|].
    pose proof (kept_indices_sorted tie_order scores k) as Hsorted.
    split; [|split; [exact Hpos|split; [|split; [exact Hdrawn|]]]].
    + rewrite (drawn_from_length Hdrawn). unfold kept_indices.
      etransitivity; [apply filter_length_le | apply firstn_le_length].
    + eapply drawn_from_sorted; eauto.
    + split; [apply argsort_perm|]. split; [apply argsort_sorted|].
      split; [reflexivity|].
      intros Hempty. subst self. unfold bm25_search in Hres.
      rewrite init_bm25, Hempty in Hres. congruence.
  - intros unbuilt Hnone. unfold bm25_search. rewrite Hnone. reflexivity.
Qed.

(** C5, as stated, fails: with two chunks of equal score and an
    [np.argsort] that leaves their indices in index order, as a stable sort
    and the insertion sort that NumPy runs on short arrays do,
    [bm25_search] returns the later chunk first, and no reading of its
    result has equal scores in corpus order.  With an [np.argsort] that
    leaves them the other way round the same search returns the earlier
    chunk first: the code fixes no order of ties. *)
Lemma bm25_search_ties_counterexample :
  let self := HybridRetriever_init tie_store in
  let scores := corpus_scores overlap_score self "x" in
  scores = [1; 1] /\
  bm25_search overlap_score insertion_ties self "x" 2 = Ok [(doc_b, 1); (doc_a, 1)] /\
  bm25_search overlap_score reversed_ties self "x" 2 = Ok [(doc_a, 1); (doc_b, 1)] /\
  ~ exists idxs,
      drawn_from (documents self) scores idxs [(doc_b, 1); (doc_a, 1)] /\
      StronglySorted (earlier_first scores) idxs.
Proof.
  intros self scores.
  assert (Hs : scores = [1; 1]) by reflexivity.
  split; [exact Hs|]. split; [reflexivity|]. split; [reflexivity|].
  rewrite Hs. intros [idxs [Hdrawn Hsorted]].
  inversion Hdrawn as [|i r idxs1 res1 [Hi _] Hrest]; subst.
  inversion Hrest as [|j r idxs2 res2 [Hj _] Hnil]; subst.
  inversion Hnil; subst.
  assert (Ei : i = 1%nat).
  { destruct i as [|[|i]]; simpl in Hi; [discriminate | reflexivity |].
    destruct i; discriminate. }
  assert (Ej : j = 0%nat).
  { destruct j as [|[|j]]; simpl in Hj; [reflexivity | discriminate |].
    destruct j; discriminate. }
  subst i j.
  inversion Hsorted as [|? ? _ Hf]; subst.
  inversion Hf as [|? ? H10 _]; subst.
  destruct H10 as [H|[_ H]]; [|lia].
  simpl in H. revert H. apply Qlt_irrefl.
Qed.

(** ** Any order of the ties is an [argsort] *)

Lemma StronglySorted_ext_in {A : Type} (R R' : A -> A -> Prop) (l : list A) :
  (forall a b, In a l -> In b l -> R a b -> R' a b) ->
  StronglySorted R l -> StronglySorted R' l.
Proof.
  intros Himp Hs. induction Hs as [|a l Hs IH Hf]; constructor.
  - apply IH. intros x y Hx Hy. apply Himp; right; assumption.
  - rewrite Forall_forall in *. intros x Hx.
    apply Himp; [left; reflexivity | right; exact Hx | apply Hf, Hx].
Qed.

(** [i] goes before every index that scores no less and that the tie order
    puts after it. *)
Lemma insert_idx_front (tie_order : list Q -> nat -> nat -> bool) (scores : list Q)
    (i : nat) (l : list nat) :
  Forall (fun x => ascending scores i x /\ tie_order scores i x = true) l ->
  insert_idx tie_order scores i l = i :: l.
Proof.
  intros Hf. destruct l as [|x l]; [reflexivity|].
  inversion Hf as [|? ? [Hle Ht] _]; subst. cbn [insert_idx]. rewrite Ht, andb_true_r.
  unfold ascending in Hle. unfold Qlt_bool.
  destruct (Qle_bool (nth x scores 0) (nth i scores 0)) eqn:E; [|reflexivity].
  apply Qle_bool_iff in E. cbn [negb orb].
  replace (Qeq_bool (nth i scores 0) (nth x scores 0)) with true; [reflexivity|].
  symmetry. apply Qeq_bool_iff. lra.
Qed.

(** Inserting [i] among the indices of [p] that [keep] selects puts it at
    its place in [p], when [p] is in ascending order of score and in the
    order of the ties. *)
Lemma insert_idx_place (tie_order : list Q -> nat -> nat -> bool) (scores : list Q)
    (keep : nat -> bool) (i : nat) (p : list nat) :
  StronglySorted (fun a b => ascending scores a b /\
                             tie_order scores a b = true /\
                             tie_order scores b a = false) p ->
  In i p -> keep i = false ->
  insert_idx tie_order scores i (filter keep p) =
  filter (fun x => Nat.eqb x i || keep x) p.
Proof.
  intros Hs. induction Hs as [|j p Hs IH Hf]; intros Hin Hkeep; [destruct Hin|].
  cbn [filter]. destruct (Nat.eqb j i) eqn:Eji.
  - apply Nat.eqb_eq in Eji. subst j. rewrite Hkeep. cbn [orb].
    assert (E : filter (fun x => Nat.eqb x i || keep x) p = filter keep p).
    { apply filter_ext_in. intros x Hx. rewrite Forall_forall in Hf.
      destruct (Hf x Hx) as [_ [H1 H2]].
      destruct (Nat.eqb x i) eqn:Exi; [|reflexivity].
      apply Nat.eqb_eq in Exi. subst x. congruence. }
    rewrite E. apply insert_idx_front.
    apply Forall_forall. intros x Hx. apply filter_In in Hx. destruct Hx as [Hx _].
    rewrite Forall_forall in Hf. destruct (Hf x Hx) as [Ha [Ht _]]. split; assumption.
  - assert (Hip : In i p).
    { destruct Hin as [->|H]; [|exact H]. rewrite Nat.eqb_refl in Eji. discriminate. }
    rewrite Forall_forall in Hf. destruct (Hf i Hip) as [Ha [_ Ht]].
    cbn [orb]. destruct (keep j) eqn:Ekj; [|apply IH; assumption].
    cbn [insert_idx]. rewrite Ht, andb_false_r, orb_false_r.
    unfold ascending in Ha. unfold Qlt_bool.
    replace (Qle_bool (nth j scores 0) (nth i scores 0)) with true
      by (symmetry; apply Qle_bool_iff; exact Ha).
    cbn [negb]. rewrite IH by assumption. reflexivity.
Qed.

Lemma filter_none {A : Type} (l : list A) : filter (fun _ => false) l = [].
Proof. induction l as [|a l IH]; [reflexivity | exact IH]. Qed.

Lemma filter_all {A : Type} (f : A -> bool) (l : list A) :
  (forall x, In x l -> f x = true) -> filter f l = l.
Proof.
  induction l as [|a l IH]; intros H; [reflexivity|]. cbn [filter].
  rewrite (H a (or_introl eq_refl)). f_equal. apply IH. intros x Hx. apply H. right. exact Hx.
Qed.

(** The sort of some indices [l] is the part of [p] that [l] holds. *)
Lemma fold_insert_idx_place (tie_order : list Q -> nat -> nat -> bool) (scores : list Q)
    (p l : list nat) :
  StronglySorted (fun a b => ascending scores a b /\
                             tie_order scores a b = true /\
                             tie_order scores b a = false) p ->
  NoDup l -> incl l p ->
  fold_right (insert_idx tie_order scores) [] l =
  filter (fun x => existsb (Nat.eqb x) l) p.
Proof.
  intros Hs. induction l as [|i l IH]; intros Hnd Hincl.
  - cbn [fold_right existsb]. rewrite filter_none. reflexivity.
  - inversion Hnd as [|? ? Hni Hnd']; subst. cbn [fold_right existsb].
    rewrite IH; [|exact Hnd' | intros x Hx; apply Hincl; right; exact Hx].
    apply insert_idx_place; [exact Hs | apply Hincl; left; reflexivity |].
    destruct (existsb (Nat.eqb i) l) eqn:E; [|reflexivity].
    apply existsb_exists in E. destruct E as [x [Hx E]].
    apply Nat.eqb_eq in E. subst x. contradiction.
Qed.

Lemma shown_ties_sorted (scores : list Q) (p : list nat) :
  NoDup p -> StronglySorted (ascending scores) p ->
  StronglySorted (fun a b => ascending scores a b /\
                             shown_ties p scores a b = true /\
                             shown_ties p scores b a = false) p.
Proof.
  intros Hnd Hs. induction Hs as [|j p Hs IH Hf]; [constructor|].
  inversion Hnd as [|? ? Hnj Hnd']; subst.
  assert (Hne : forall x, In x p -> Nat.eqb x j = false).
  { intros x Hx. apply Nat.eqb_neq. intros ->. contradiction. }
  constructor.
  - eapply StronglySorted_ext_in; [|exact (IH Hnd')].
    intros a b Ha Hb [Hab [H1 H2]]. split; [exact Hab|].
    unfold shown_ties in *. cbn [position]. rewrite (Hne a Ha), (Hne b Hb).
    split; assumption.
  - rewrite Forall_forall in *. intros x Hx. split; [apply Hf, Hx|].
    unfold shown_ties. cbn [position]. rewrite Nat.eqb_refl, (Hne x Hx).
    split; reflexivity.
Qed.

(** The model leaves [np.argsort] free in its choice among equal scores:
    every order of the indices that is ascending in score is the [argsort]
    of the tie order it shows. *)
Lemma argsort_any_order (scores : list Q) (p : list nat) :
  Permutation p (seq 0 (List.length scores)) ->
  StronglySorted (ascending scores) p ->
  argsort (shown_ties p) scores = p.
Proof.
  intros Hperm Hs. unfold argsort.
  assert (Hnd : NoDup p).
  { apply (Permutation_NoDup (Permutation_sym Hperm)), seq_NoDup. }
  rewrite (@fold_insert_idx_place (shown_ties p) scores p);
    [|apply shown_ties_sorted; assumption | apply seq_NoDup |
      intros x Hx; apply (Permutation_in _ (Permutation_sym Hperm)), Hx].
  apply filter_all. intros x Hx. apply existsb_exists. exists x.
  split; [apply (Permutation_in _ Hperm), Hx | apply Nat.eqb_refl].
Qed.

(** ** Stable sorting *)

Lemma StronglySorted_impl {A : Type} (R R' : A -> A -> Prop) (l : list A) :
  (forall x y, In x l -> In y l -> R x y -> R' x y) ->
  StronglySorted R l -> StronglySorted R' l.
Proof.
  intros Himp H. induction H as [|a l Hs IH Hf]; [constructor|].
  constructor.
  - apply IH. intros x y Hx Hy. apply Himp; right; assumption.
  - rewrite Forall_forall in *. intros x Hx.
    apply Himp; [left; reflexivity | right; exact Hx | apply Hf, Hx].
Qed.

Lemma StronglySorted_map {A B : Type} (f : A -> B) (R : B -> B -> Prop) (l : list A) :
  StronglySorted (fun x y => R (f x) (f y)) l -> StronglySorted R (map f l).
Proof.
  induction 1 as [|a l Hs IH Hf]; simpl; constructor; [exact IH|].
  rewrite Forall_forall in *. intros y Hy.
  apply in_map_iff in Hy. destruct Hy as [x [<- Hx]]. apply Hf, Hx.
Qed.

Lemma insert_desc_split (x : Entry) (l : list Entry) :
  exists pre post,
    l = pre ++ post /\
    insert_desc x l = pre ++ x :: post /\
    Forall (fun y => e_score x < e_score y) pre /\
    match post with
    | [] => True
    | y :: _ => e_score y <= e_score x
    end.
Proof.
  induction l as [|y l IH]; simpl.
  - exists [], []. repeat split; constructor.
  - destruct (Qlt_bool (e_score x) (e_score y)) eqn:E.
    + destruct IH as [pre [post [Hl [Hins [Hpre Hpost]]]]].
      exists (y :: pre), post. simpl. rewrite Hins, <- Hl.
      repeat split; try assumption.
      constructor; [apply Qlt_bool_iff; exact E | exact Hpre].
    + exists [], (y :: l). simpl. repeat split; [constructor|].
      apply Qlt_bool_false; exact E.
Qed.

Lemma Forall2_app_inv_r' {A B : Type} (R : A -> B -> Prop) (l : list A) (l1 l2 : list B) :
  Forall2 R l (l1 ++ l2) ->
  exists k1 k2, l = k1 ++ k2 /\ Forall2 R k1 l1 /\ Forall2 R k2 l2.
Proof.
  intros H. apply Forall2_app_inv_r in H.
  destruct H as [k1 [k2 [H1 [H2 E]]]]. exists k1, k2. auto.
Qed.

Lemma earlier_first_shift (s : Q) (scores : list Q) (i j : nat) :
  earlier_first scores i j -> earlier_first (s :: scores) (S i) (S j).
Proof.
  unfold earlier_first. simpl. intros [H|[H Hlt]]; [left; exact H | right; split; [exact H | lia]].
Qed.

Lemma earlier_first_le (scores : list Q) (i j : nat) :
  earlier_first scores i j -> nth j scores 0 <= nth i scores 0.
Proof. intros [H|[H _]]; lra. Qed.

(** [sorted_desc] is the stable descending sort. *)
Lemma sorted_desc_ranked (l : list Entry) :
  ranked_by (map e_score l) l (sorted_desc l).
Proof.
  induction l as [|x l IH].
  - exists []. repeat split; constructor.
  - destruct IH as [idxs [Hperm [Hsorted Hpick]]].
    simpl sorted_desc.
    destruct (insert_desc_split x (sorted_desc l)) as [pre [post [Hl [Hins [Hpre Hpost]]]]].
    rewrite Hins. rewrite Hl in Hpick.
    apply Forall2_app_inv_r' in Hpick.
    destruct Hpick as [ipre [ipost [Hidxs [Hpick1 Hpick2]]]]. subst idxs.
    exists (map S ipre ++ 0%nat :: map S ipost).
    assert (Hscore : forall ix es i,
               Forall2 (fun i e => nth_error l i = Some e) ix es -> In i ix ->
               exists e, In e es /\ nth i (map e_score l) 0 = e_score e).
    { intros ix es i HF. induction HF as [|i0 e0 ix es Hi0 HF IHF]; intros Hin; [destruct Hin|].
      destruct Hin as [->|Hin].
      - exists e0. split; [left; reflexivity|].
        apply nth_error_nth. erewrite map_nth_error; eauto.
      - destruct (IHF Hin) as [e [He Hn]]. exists e. split; [right; exact He | exact Hn]. }
    split; [|split].
    + simpl List.length. cbn [seq]. rewrite <- seq_shift.
      transitivity (0%nat :: map S (ipre ++ ipost)).
      * rewrite map_app. symmetry. apply Permutation_middle.
      * constructor. apply Permutation_map. exact Hperm.
    + apply StronglySorted_app_inv in Hsorted. destruct Hsorted as [Hs1 [Hs2 Hcross]].
      apply StronglySorted_app.
      * apply StronglySorted_map.
        eapply StronglySorted_impl; [|exact Hs1].
        intros i j _ _ H. simpl map. apply earlier_first_shift, H.
      * constructor.
        -- apply StronglySorted_map.
           eapply StronglySorted_impl; [|exact Hs2].
           intros i j _ _ H. simpl map. apply earlier_first_shift, H.
        -- apply Forall_forall. intros j' Hj'.
           apply in_map_iff in Hj'. destruct Hj' as [j [<- Hj]].
           assert (Hle : nth j (map e_score l) 0 <= e_score x).
           { destruct post as [|y post]; [inversion Hpick2; subst; destruct Hj|].
             inversion Hpick2 as [|j0 ? ipost' ? Hj0 Hrest]; subst.
             assert (Hy : nth j0 (map e_score l) 0 = e_score y).
             { apply nth_error_nth. erewrite map_nth_error; eauto. }
             destruct Hj as [->|Hj]; [rewrite Hy; exact Hpost|].
             inversion Hs2 as [|? ? _ Hf]; subst.
             rewrite Forall_forall in Hf.
             pose proof (earlier_first_le (Hf j Hj)) as H. rewrite Hy in H. lra. }
           unfold earlier_first. simpl.
           destruct (Qlt_le_dec (nth j (map e_score l) 0) (e_score x)) as [H|H];
             [left; exact H | right; split; [lra | lia]].
      * intros i' j' Hi' Hj'.
        apply in_map_iff in Hi'. destruct Hi' as [i [<- Hi]].
        destruct (Hscore _ _ i Hpick1 Hi) as [e [He Hn]].
        rewrite Forall_forall in Hpre. pose proof (Hpre e He) as Hlt.
        destruct Hj' as [<-|Hj'].
        -- left. simpl. rewrite Hn. exact Hlt.
        -- apply in_map_iff in Hj'. destruct Hj' as [j [<- Hj]].
           apply earlier_first_shift. apply Hcross; assumption.
    + apply Forall2_app.
      * clear - Hpick1. induction Hpick1; simpl; constructor; auto.
      * constructor; [reflexivity|].
        clear - Hpick2. induction Hpick2; simpl; constructor; auto.
Qed.

(** ** The fusion loops *)

Lemma dict_mem_In (key : string) (d : Dict) :
  dict_mem key d = true <-> In key (keys d).
Proof.
  induction d as [|[k w] d IH]; simpl.
  - split; [discriminate | tauto].
  - destruct (String.eqb k key) eqn:E.
    + apply String.eqb_eq in E. subst. tauto.
    + apply String.eqb_neq in E. rewrite IH.
      split; [auto | intros [H|H]; [congruence | exact H]].
Qed.

Lemma dict_mem_notin (key : string) (d : Dict) :
  dict_mem key d = false <-> ~ In key (keys d).
Proof.
  rewrite <- dict_mem_In. destruct (dict_mem key d); split; congruence.
Qed.

Lemma dict_set_fresh (key : string) (v : Entry) (d : Dict) :
  ~ In key (keys d) -> dict_set key v d = d ++ [(key, v)].
Proof.
  induction d as [|[k w] d IH]; simpl; intros H; [reflexivity|].
  destruct (String.eqb k key) eqn:E.
  - apply String.eqb_eq in E. subst. exfalso. apply H. left. reflexivity.
  - f_equal. apply IH. intro Hin. apply H. right. exact Hin.
Qed.

Lemma keys_add_score (key : string) (delta : Q) (d : Dict) :
  keys (dict_add_score key delta d) = keys d.
Proof.
  induction d as [|[k w] d IH]; simpl; [reflexivity|].
  destruct (String.eqb k key); simpl; [reflexivity | f_equal; exact IH].
Qed.

Lemma texts_In (r : Scored) (l : list Scored) : In r l -> In (text r) (texts l).
Proof. intros H. unfold texts. apply in_map. exact H. Qed.

Lemma fold_vector (alpha : Q) (V : list Scored) :
  forall d : Dict,
    NoDup (texts V) ->
    (forall key, In key (texts V) -> ~ In key (keys d)) ->
    fold_left (combine_vector alpha) V d = d ++ map (entry_vector alpha) V.
Proof.
  induction V as [|r V IH]; intros d Hnd Hfresh; simpl.
  - rewrite app_nil_r. reflexivity.
  - inversion Hnd as [|? ? Hr Hnd']; subst.
    unfold combine_vector at 2.
    rewrite dict_set_fresh by (apply Hfresh; left; reflexivity).
    rewrite IH; [rewrite <- app_assoc; reflexivity | exact Hnd' |].
    intros key Hkey. unfold keys. rewrite map_app, in_app_iff. simpl.
    intros [H|[H|[]]].
    + apply (Hfresh key); [right; exact Hkey | exact H].
    + subst key. apply Hr. exact Hkey.
Qed.

Lemma lookup_score_notin (key : string) (l : list Scored) :
  ~ In key (texts l) -> lookup_score key l = None.
Proof.
  induction l as [|r l IH]; simpl; intros H; [reflexivity|].
  destruct (String.eqb (text r) key) eqn:E.
  - apply String.eqb_eq in E. exfalso. apply H. left. exact E.
  - apply IH. intro Hin. apply H. right. exact Hin.
Qed.

Lemma bm25_update_skip (alpha : Q) (b : Scored) (B : list Scored) (d : Dict) :
  ~ In (text b) (keys d) ->
  map (bm25_update alpha (b :: B)) d = map (bm25_update alpha B) d.
Proof.
  intros H. apply map_ext_in. intros [k w] Hin.
  unfold bm25_update. simpl.
  destruct (String.eqb (text b) k) eqn:E; [|reflexivity].
  apply String.eqb_eq in E. exfalso. apply H. subst k.
  apply (in_map fst) in Hin. exact Hin.
Qed.

Lemma bm25_update_add (alpha : Q) (b : Scored) (B : list Scored) (d : Dict) :
  NoDup (keys d) -> ~ In (text b) (texts B) ->
  map (bm25_update alpha B) (dict_add_score (text b) ((1 - alpha) * snd b) d) =
  map (bm25_update alpha (b :: B)) d.
Proof.
  intros Hnd Hb. induction d as [|[k w] d IH]; simpl; [reflexivity|].
  inversion Hnd as [|? ? Hk Hnd']; subst.
  destruct (String.eqb k (text b)) eqn:E.
  - apply String.eqb_eq in E. subst k. simpl. f_equal.
    + unfold bm25_update. simpl. rewrite String.eqb_refl.
      rewrite (@lookup_score_notin (text b) B Hb). reflexivity.
    + symmetry. apply bm25_update_skip. exact Hk.
  - simpl. f_equal; [|apply IH; exact Hnd'].
    unfold bm25_update. simpl. rewrite String.eqb_sym, E. reflexivity.
Qed.

Lemma bm25_update_nil (alpha : Q) (d : Dict) : map (bm25_update alpha []) d = d.
Proof.
  induction d as [|[k [doc s]] d IH]; simpl; [reflexivity|]. rewrite IH. reflexivity.
Qed.

Lemma combine_bm25_step (alpha : Q) (d : Dict) (b : Scored) :
  combine_bm25 alpha d b =
  if dict_mem (text b) d
  then dict_add_score (text b) ((1 - alpha) * snd b) d
  else dict_set (text b) {| e_doc := fst b; e_score := (1 - alpha) * snd b |} d.
Proof. reflexivity. Qed.

Lemma fold_bm25 (alpha : Q) (B : list Scored) :
  forall d : Dict,
    NoDup (texts B) -> NoDup (keys d) ->
    fold_left (combine_bm25 alpha) B d =
    map (bm25_update alpha B) d ++
    map (entry_bm25 alpha) (filter (fun b => negb (dict_mem (text b) d)) B).
Proof.
  induction B as [|b B IH]; intros d HndB Hndd.
  - simpl. rewrite bm25_update_nil, app_nil_r. reflexivity.
  - inversion HndB as [|? ? Hb HndB']; subst.
    cbn [fold_left filter]. rewrite combine_bm25_step.
    destruct (dict_mem (text b) d) eqn:Emem; cbn [negb].
    + rewrite IH; [| exact HndB' | rewrite keys_add_score; exact Hndd].
      rewrite bm25_update_add by assumption. f_equal. f_equal.
      apply filter_ext. intros b'. f_equal.
      destruct (dict_mem (text b') d) eqn:E'.
      * apply dict_mem_In. rewrite keys_add_score. apply dict_mem_In. exact E'.
      * apply dict_mem_notin. rewrite keys_add_score. apply dict_mem_notin. exact E'.
    + apply dict_mem_notin in Emem.
      rewrite dict_set_fresh by exact Emem.
      rewrite IH; [| exact HndB' |].
      * rewrite map_app. cbn [map]. rewrite <- app_assoc. cbn [app].
        rewrite (@bm25_update_skip alpha b B d Emem).
        f_equal. f_equal.
        -- unfold bm25_update, entry_bm25. cbn [fst snd e_doc e_score].
           rewrite (@lookup_score_notin (text b) B Hb). reflexivity.
        -- f_equal. apply filter_ext_in. intros b' Hb'. f_equal.
           destruct (dict_mem (text b') d) eqn:E'.
           ++ apply dict_mem_In. unfold keys. rewrite map_app, in_app_iff.
              left. apply dict_mem_In. exact E'.
           ++ apply dict_mem_notin. unfold keys. rewrite map_app, in_app_iff.
              intros [H|[H|[]]].
              ** apply dict_mem_notin in E'. apply E'. exact H.
              ** cbn [fst] in H. apply Hb. rewrite H. apply texts_In. exact Hb'.
      * unfold keys. rewrite map_app. cbn [map fst].
        apply Permutation_NoDup with (l := text b :: map fst d).
        -- apply Permutation_cons_append.
        -- constructor; assumption.
Qed.

Lemma entry_vector_keys (alpha : Q) (V : list Scored) :
  keys (map (entry_vector alpha) V) = texts V.
Proof. unfold keys, texts. rewrite map_map. reflexivity. Qed.

(** The dictionary after both loops, for candidate lists without repeated
    texts. *)
Lemma combine_distinct (alpha : Q) (V B : list Scored) :
  NoDup (texts V) -> NoDup (texts B) ->
  combine alpha V B =
  map (fun v => bm25_update alpha B (entry_vector alpha v)) V ++
  map (entry_bm25 alpha) (filter (fun b => negb (in_texts (text b) V)) B).
Proof.
  intros HV HB. unfold combine.
  rewrite fold_vector; [| exact HV | intros key _ []]. simpl.
  rewrite fold_bm25; [| exact HB | rewrite entry_vector_keys; exact HV].
  rewrite map_map. f_equal. f_equal.
  apply filter_ext. intros b. f_equal.
  unfold in_texts.
  destruct (existsb (String.eqb (text b)) (texts V)) eqn:E.
  - apply dict_mem_In. rewrite entry_vector_keys.
    apply existsb_exists in E. destruct E as [x [Hx E]].
    apply String.eqb_eq in E. subst x. exact Hx.
  - apply dict_mem_notin. rewrite entry_vector_keys. intros Hin.
    assert (existsb (String.eqb (text b)) (texts V) = true); [|congruence].
    apply existsb_exists. exists (text b). split; [exact Hin | apply String.eqb_refl].
Qed.

(** ** The fused list *)

Lemma existsb_eqb_In (key : string) (l : list string) :
  existsb (String.eqb key) l = true <-> In key l.
Proof.
  rewrite existsb_exists. split.
  - intros [x [Hx E]]. apply String.eqb_eq in E. subst. exact Hx.
  - intros H. exists key. split; [exact H | apply String.eqb_refl].
Qed.

Lemma existsb_eqb_notin (key : string) (l : list string) :
  existsb (String.eqb key) l = false <-> ~ In key l.
Proof.
  rewrite <- existsb_eqb_In. destruct (existsb (String.eqb key) l); split; congruence.
Qed.

Lemma dedup_distinct (V B : list Scored) :
  NoDup (texts V) -> NoDup (texts B) ->
  forall seen,
    dedup seen (V ++ B) =
    filter (fun r => negb (existsb (String.eqb (text r)) seen)) V ++
    filter (fun r => negb (existsb (String.eqb (text r)) seen) &&
                     negb (in_texts (text r) V)) B.
Proof.
  intros HV HB. induction V as [|v V IH]; intros seen.
  - simpl. clear HV. revert seen. induction B as [|b B IHB]; intros seen; simpl; [reflexivity|].
    inversion HB as [|? ? Hb HB']; subst.
    destruct (existsb (String.eqb (text b)) seen) eqn:E; simpl.
    + apply IHB. exact HB'.
    + f_equal. rewrite (IHB HB').
      apply filter_ext_in. intros r Hr. simpl. f_equal.
      destruct (String.eqb (text r) (text b)) eqn:Er; [|reflexivity].
      apply String.eqb_eq in Er. exfalso. apply Hb. rewrite <- Er.
      apply texts_In. exact Hr.
  - inversion HV as [|? ? Hv HV']; subst.
    cbn [app dedup filter].
    destruct (existsb (String.eqb (text v)) seen) eqn:E; cbn [negb].
    + rewrite (IH HV'). f_equal.
      apply filter_ext. intros r.
      destruct (existsb (String.eqb (text r)) seen) eqn:Er; [reflexivity|]. simpl.
      unfold in_texts. simpl.
      destruct (String.eqb (text r) (text v)) eqn:Erv; [|reflexivity].
      apply String.eqb_eq in Erv. rewrite Erv in Er. congruence.
    + rewrite (IH HV'). cbn [app]. f_equal. f_equal.
      * apply filter_ext_in. intros r Hr. simpl. f_equal.
        destruct (String.eqb (text r) (text v)) eqn:Er; [|reflexivity].
        apply String.eqb_eq in Er. exfalso. apply Hv. rewrite <- Er.
        apply texts_In. exact Hr.
      * apply filter_ext. intros r. unfold in_texts. simpl.
        destruct (String.eqb (text r) (text v));
          destruct (existsb (String.eqb (text r)) seen); reflexivity.
Qed.

Lemma candidates_distinct (V B : list Scored) :
  NoDup (texts V) -> NoDup (texts B) ->
  candidates V B = V ++ filter (fun b => negb (in_texts (text b) V)) B.
Proof.
  intros HV HB. unfold candidates. rewrite (@dedup_distinct V B HV HB). simpl.
  f_equal. clear. induction V as [|v V IH]; simpl; [reflexivity | f_equal; exact IH].
Qed.

Lemma score_in_lookup (key : string) (l : list Scored) :
  score_in key l = match lookup_score key l with Some s => s | None => 0 end.
Proof.
  induction l as [|r l IH]; simpl; [reflexivity|].
  destruct (String.eqb (text r) key); [reflexivity | exact IH].
Qed.

Lemma lookup_score_self (r : Scored) (l : list Scored) :
  NoDup (texts l) -> In r l -> lookup_score (text r) l = Some (snd r).
Proof.
  induction l as [|x l IH]; simpl; intros Hnd Hin; [destruct Hin|].
  inversion Hnd as [|? ? Hx Hnd']; subst.
  destruct (String.eqb (text x) (text r)) eqn:E.
  - destruct Hin as [->|Hin]; [reflexivity|].
    apply String.eqb_eq in E. exfalso. apply Hx. rewrite E. apply texts_In. exact Hin.
  - destruct Hin as [->|Hin]; [rewrite String.eqb_refl in E; discriminate|].
    apply IH; assumption.
Qed.

Lemma Forall2_map_same {A B C : Type} (R : B -> C -> Prop) (f : A -> B) (g : A -> C)
    (l : list A) :
  (forall x, In x l -> R (f x) (g x)) -> Forall2 R (map f l) (map g l).
Proof.
  induction l as [|a l IH]; simpl; intros H; constructor.
  - apply H. left. reflexivity.
  - apply IH. intros x Hx. apply H. right. exact Hx.
Qed.

(** The code's dictionary holds the fused list of the specification. *)
Lemma combine_fused (alpha : Q) (V B : list Scored) :
  NoDup (texts V) -> NoDup (texts B) ->
  Forall2 entry_agrees (dict_values (combine alpha V B)) (fused alpha V B).
Proof.
  intros HV HB. unfold dict_values, fused.
  rewrite (@combine_distinct alpha V B HV HB), (@candidates_distinct V B HV HB).
  rewrite !map_app. apply Forall2_app.
  - rewrite map_map. apply Forall2_map_same. intros v Hv.
    unfold entry_agrees, combined_score. cbn [fst snd bm25_update entry_vector e_doc e_score].
    split; [reflexivity|].
    rewrite !score_in_lookup, (@lookup_score_self v V HV Hv).
    destruct (lookup_score (text v) B); ring.
  - rewrite map_map. apply Forall2_map_same. intros b Hb.
    apply filter_In in Hb. destruct Hb as [Hb Hnot].
    apply negb_true_iff in Hnot. apply existsb_eqb_notin in Hnot.
    unfold entry_agrees, combined_score. cbn [fst snd entry_bm25 e_doc e_score].
    split; [reflexivity|].
    rewrite !score_in_lookup, (@lookup_score_self b B HB Hb), (@lookup_score_notin (text b) V Hnot).
    ring.
Qed.

Lemma Forall2_nth_error {A B : Type} (R : A -> B -> Prop) (l : list A) (l' : list B) :
  Forall2 R l l' ->
  forall i x, nth_error l i = Some x -> exists y, nth_error l' i = Some y /\ R x y.
Proof.
  induction 1 as [|a b l l' Hab H IH]; intros [|i] x Hx; simpl in *; try discriminate.
  - inversion Hx; subst. exists b. auto.
  - apply IH. exact Hx.
Qed.

Lemma Forall2_firstn {A B : Type} (R : A -> B -> Prop) (l : list A) (l' : list B) :
  Forall2 R l l' -> forall n, Forall2 R (firstn n l) (firstn n l').
Proof.
  induction 1; intros [|n]; simpl; constructor; auto.
Qed.

Lemma earlier_first_ext (s s' : list Q) :
  (forall i, nth i s 0 == nth i s' 0) ->
  forall i j, earlier_first s i j -> earlier_first s' i j.
Proof.
  intros H i j. unfold earlier_first. rewrite (H i), (H j). tauto.
Qed.

Lemma ranked_by_transfer {A B : Type} (R : A -> B -> Prop) (s s' : list Q)
    (items : list A) (items' : list B) (out : list A) :
  Forall2 R items items' ->
  (forall i, nth i s 0 == nth i s' 0) ->
  ranked_by s items out ->
  exists out', ranked_by s' items' out' /\ Forall2 R out out'.
Proof.
  intros HR Hs [idxs [Hperm [Hsorted Hpick]]].
  assert (Hout : exists out',
             Forall2 (fun i y => nth_error items' i = Some y) idxs out' /\
             Forall2 R out out').
  { clear Hperm Hsorted. induction Hpick as [|i x idxs out Hi Hpick IH].
    - exists []. split; constructor.
    - destruct IH as [out' [H1 H2]].
      destruct (Forall2_nth_error HR _ Hi) as [y [Hy Hxy]].
      exists (y :: out'). split; constructor; assumption. }
  destruct Hout as [out' [Hpick' Hrel]].
  exists out'. split; [|exact Hrel].
  exists idxs. split; [|split; [|exact Hpick']].
  - rewrite <- (Forall2_length HR). exact Hperm.
  - eapply StronglySorted_impl; [|exact Hsorted].
    intros i j _ _. apply earlier_first_ext. exact Hs.
Qed.

Lemma entry_agrees_scores (E : list Entry) (F : list Scored) :
  Forall2 entry_agrees E F ->
  forall i, nth i (map e_score E) 0 == nth i (map snd F) 0.
Proof.
  induction 1 as [|e f E F [_ Hef] H IH]; intros [|i]; simpl; try reflexivity.
  - exact Hef.
  - apply IH.
Qed.

Lemma normalize_scores_texts (l : list Scored) : texts (normalize_scores l) = texts l.
Proof.
  rewrite normalize_scores_unfold. unfold texts. rewrite map_map. reflexivity.
Qed.

Lemma init_vector_store (vs : VectorStore) : vector_store (HybridRetriever_init vs) = vs.
Proof.
  unfold HybridRetriever_init, _update_bm25_index. simpl.
  destruct (get_all_documents vs); reflexivity.
Qed.

Section Fusion.

Variable Config : Configuration.
Variable bm25_document_score : list (list string) -> list string -> list string -> Q.
Variable tie_order : list Q -> nat -> nat -> bool.

Lemma hybrid_search_unfold (vs : VectorStore) (query : string) (k : option nat) (alpha : Q) :
  let k' := py_or k (TOP_K_RESULTS Config) in
  hybrid_search Config bm25_document_score tie_order (HybridRetriever_init vs) query k alpha =
  Ok (map (fun item => (e_doc item, e_score item))
        (firstn k'
           (sorted_desc
              (dict_values
                 (combine alpha (semantic_list Config vs query k')
                    (lexical_list bm25_document_score tie_order vs query k')))))).
Proof.
  intros k'. unfold hybrid_search, semantic_list, lexical_list, lexical_candidates.
  fold k'. rewrite init_vector_store.
  destruct (bm25_search_returns bm25_document_score tie_order vs query (k' * 2))
    as [blist [Hb _]].
  rewrite Hb. reflexivity.
Qed.

(** The result of [hybrid_search] is the head of the fused list in ranked
    order, when neither candidate list repeats a text. *)
Lemma hybrid_search_fused (vs : VectorStore) (query : string) (k : option nat) (alpha : Q) :
  let k' := py_or k (TOP_K_RESULTS Config) in
  let V := semantic_list Config vs query k' in
  let B := lexical_list bm25_document_score tie_order vs query k' in
  NoDup (texts V) -> NoDup (texts B) ->
  exists results ranking,
    hybrid_search Config bm25_document_score tie_order (HybridRetriever_init vs) query k alpha =
      Ok results /\
    ranked_by (map snd (fused alpha V B)) (fused alpha V B) ranking /\
    Forall2 same_scored results (firstn k' ranking).
Proof.
  intros k' V B HV HB.
  pose proof (@combine_fused alpha V B HV HB) as Hagree.
  destruct (@ranked_by_transfer _ _ entry_agrees _ _ _ _ _ Hagree
              (@entry_agrees_scores _ _ Hagree)
              (sorted_desc_ranked (dict_values (combine alpha V B))))
    as [ranking [Hranked Hrel]].
  eexists. exists ranking. split; [apply hybrid_search_unfold|].
  split; [exact Hranked|].
  fold k' V B.
  apply (Forall2_firstn) with (n := k') in Hrel.
  revert Hrel. generalize (firstn k' ranking).
  generalize (firstn k' (sorted_desc (dict_values (combine alpha V B)))).
  induction 1 as [|e f E F [Hd Hs] H IH]; simpl; constructor; [|exact IH].
  split; assumption.
Qed.

End Fusion.

Lemma NoDup_by_compute (l : list string) : nodup string_dec l = l -> NoDup l.
Proof. intros H. rewrite <- H. apply NoDup_nodup. Defined.

(** C1 (amended). [hybrid_search] asks each search for [2k] candidates,
    where an omitted or zero [k] stands for [TOP_K_RESULTS]; the lexical
    search returns; and when neither normalised candidate list repeats a
    text, the result is the first [k] items of the fused list in descending
    order of combined score, equal scores in the order of first encounter.
    The fused list gives every chunk of the union, deduplicated by text,
    the score [alpha * semantic + (1 - alpha) * lexical], a missing
    appearance counting 0. *)
Theorem hybrid_search_fusion
    (Config : Configuration)
    (bm25_document_score : list (list string) -> list string -> list string -> Q)
    (tie_order : list Q -> nat -> nat -> bool)
    (vs : VectorStore) (query : string) (k : option nat) (alpha : Q) :
  let self := HybridRetriever_init vs in
  let k' := py_or k (TOP_K_RESULTS Config) in
  let semantic := normalize_scores (similarity_search Config vs query (Some (k' * 2)%nat)) in
  let lexical :=
    normalize_scores (lexical_candidates bm25_document_score tie_order self query (k' * 2)) in
  NoDup (texts semantic) -> NoDup (texts lexical) ->
  bm25_search bm25_document_score tie_order self query (k' * 2) =
    Ok (lexical_candidates bm25_document_score tie_order self query (k' * 2)) /\
  exists results ranking,
    hybrid_search Config bm25_document_score tie_order self query k alpha = Ok results /\
    ranked_by (map snd (fused alpha semantic lexical)) (fused alpha semantic lexical)
      ranking /\
    Forall2 same_scored results (firstn k' ranking).
Proof.
  intros self k' semantic lexical HV HB. split.
  - unfold lexical_candidates.
    destruct (bm25_search_returns bm25_document_score tie_order vs query (k' * 2))
      as [blist [Hb _]].
    fold self in Hb. rewrite Hb. reflexivity.
  - apply (@hybrid_search_fused Config bm25_document_score tie_order vs query k alpha HV HB).
Qed.

Lemma hybrid_search_fusion_witness :
  let self := HybridRetriever_init fusion_store in
  let semantic :=
    normalize_scores (similarity_search sample_config fusion_store "gamma x" (Some 4%nat)) in
  let lexical :=
    normalize_scores (lexical_candidates overlap_score insertion_ties self "gamma x" 4) in
  bm25_search overlap_score insertion_ties self "gamma x" 4 =
    Ok (lexical_candidates overlap_score insertion_ties self "gamma x" 4) /\
  exists results ranking,
    hybrid_search sample_config overlap_score insertion_ties self "gamma x" (Some 2%nat) 0.5 = Ok results /\
    ranked_by (map snd (fused 0.5 semantic lexical)) (fused 0.5 semantic lexical) ranking /\
    Forall2 same_scored results (firstn 2 ranking).
Proof.
  apply (@hybrid_search_fusion sample_config overlap_score insertion_ties fusion_store "gamma x"
           (Some 2%nat) 0.5);
    apply NoDup_by_compute; vm_compute; reflexivity.
Defined.

(** C1, as stated, fails at [k = 0]: the falsy [k] is replaced by
    [TOP_K_RESULTS], and the call returns three chunks, not the top 0. *)
Lemma hybrid_search_zero_k_counterexample :
  exists results,
    hybrid_search sample_config overlap_score insertion_ties (HybridRetriever_init fusion_store)
      "gamma x" (Some 0%nat) 0.5 = Ok results /\
    map fst results = [doc_c; doc_a; doc_b] /\
    ~ (List.length results <= 0)%nat.
Proof.
  eexists. split; [vm_compute; reflexivity|].
  split; [reflexivity | simpl; lia].
Qed.

(** ** The extreme fusion weights *)

Lemma sorted_perm_unique (R : nat -> nat -> Prop) :
  (forall x y, R x y -> R y x -> False) ->
  forall l1 l2,
    StronglySorted R l1 -> StronglySorted R l2 -> Permutation l1 l2 -> l1 = l2.
Proof.
  intros Hasym. induction l1 as [|a l1 IH]; intros l2 H1 H2 Hperm.
  - apply Permutation_nil in Hperm. congruence.
  - destruct l2 as [|b l2]; [symmetry in Hperm; apply Permutation_nil in Hperm; discriminate|].
    inversion H1 as [|? ? Hs1 Hf1]; subst. inversion H2 as [|? ? Hs2 Hf2]; subst.
    destruct (Nat.eq_dec a b) as [->|Hne].
    + f_equal. apply IH; try assumption. eapply Permutation_cons_inv; eauto.
    + exfalso.
      assert (Ha : In a l2).
      { assert (H : In a (b :: l2)) by (eapply Permutation_in; [exact Hperm | left; reflexivity]).
        destruct H as [H|H]; [congruence | exact H]. }
      assert (Hb : In b l1).
      { assert (H : In b (a :: l1)).
        { eapply Permutation_in; [symmetry; exact Hperm | left; reflexivity]. }
        destruct H as [H|H]; [congruence | exact H]. }
      rewrite Forall_forall in Hf1, Hf2.
      exact (Hasym _ _ (Hf1 _ Hb) (Hf2 _ Ha)).
Qed.

Lemma earlier_first_asym (s : list Q) (i j : nat) :
  earlier_first s i j -> earlier_first s j i -> False.
Proof.
  unfold earlier_first. intros [H1|[H1 L1]] [H2|[H2 L2]]; try lra. lia.
Qed.

Lemma descending_nth (s : list Q) :
  StronglySorted (fun a b => b <= a) s ->
  forall i j, (i < j)%nat -> (j < List.length s)%nat -> nth j s 0 <= nth i s 0.
Proof.
  induction 1 as [|a s Hs IH Hf]; intros i j Hij Hj; simpl in Hj; [lia|].
  destruct j as [|j]; [lia|]. simpl.
  destruct i as [|i].
  - rewrite Forall_forall in Hf. apply Hf. apply nth_In. lia.
  - apply IH; lia.
Qed.

Lemma seq_earlier_first (s : list Q) :
  StronglySorted (fun a b => b <= a) s ->
  forall a n, (a + n <= List.length s)%nat ->
    StronglySorted (earlier_first s) (seq a n).
Proof.
  intros Hs a n. revert a. induction n as [|n IH]; intros a Hle; simpl; constructor.
  - apply IH. lia.
  - apply Forall_forall. intros j Hj. apply in_seq in Hj.
    pose proof (@descending_nth s Hs a j ltac:(lia) ltac:(lia)) as H.
    unfold earlier_first.
    destruct (Qlt_le_dec (nth j s 0) (nth a s 0)) as [Hlt|Hge];
      [left; exact Hlt | right; split; [lra | lia]].
Qed.

Lemma pick_seq {A : Type} (items out : list A) :
  forall a,
    Forall2 (fun i x => nth_error items i = Some x) (seq a (List.length out)) out ->
    out = firstn (List.length out) (skipn a items).
Proof.
  induction out as [|x out IH]; intros a H; simpl in *; [reflexivity|].
  inversion H as [|? ? ? ? Hx Hrest]; subst.
  specialize (IH (S a) Hrest).
  assert (Hskip : skipn a items = x :: skipn (S a) items).
  { clear - Hx. revert a Hx. induction items as [|y items IHi]; intros [|a] Hx;
      simpl in *; try discriminate.
    - inversion Hx. reflexivity.
    - apply IHi in Hx. exact Hx. }
  rewrite Hskip. simpl. f_equal. exact IH.
Qed.

(** Ranking a list that is already in descending order leaves it as it is. *)
Lemma ranked_by_descending {A : Type} (s : list Q) (items out : list A) :
  List.length s = List.length items ->
  StronglySorted (fun a b => b <= a) s ->
  ranked_by s items out -> out = items.
Proof.
  intros Hlen Hs [idxs [Hperm [Hsorted Hpick]]].
  assert (Hid : idxs = seq 0 (List.length items)).
  { apply (@sorted_perm_unique (earlier_first s) (@earlier_first_asym s));
      [exact Hsorted | apply seq_earlier_first; [exact Hs | lia] | exact Hperm]. }
  subst idxs.
  assert (Hout : List.length out = List.length items).
  { rewrite <- (Forall2_length Hpick), length_seq. reflexivity. }
  rewrite <- Hout in Hpick. apply pick_seq in Hpick.
  rewrite Hpick. simpl. rewrite Hout. apply firstn_all.
Qed.

Lemma normalize_scores_descending (raw : list Scored) :
  StronglySorted (fun a b => snd b <= snd a) raw ->
  StronglySorted (fun a b => snd b <= snd a) (normalize_scores raw).
Proof.
  intros Hs. rewrite normalize_scores_unfold.
  destruct raw as [|r0 raw0] eqn:Eraw; [constructor|]. rewrite <- Eraw in *.
  assert (Hne : raw <> []) by (rewrite Eraw; discriminate).
  pose proof (score_range_pos Hne) as Hpos.
  apply StronglySorted_map. eapply StronglySorted_impl; [|exact Hs].
  intros a b _ _ Hab. cbn beta in Hab. cbn [fst snd]. unfold Qdiv.
  apply Qmult_le_compat_r; [lra|].
  apply Qlt_le_weak, Qinv_lt_0_compat. exact Hpos.
Qed.

Lemma normalize_scores_nonneg (raw : list Scored) (r : Scored) :
  In r (normalize_scores raw) -> 0 <= snd r <= 1.
Proof.
  intros Hin. destruct raw as [|r0 raw0] eqn:Eraw; [destruct Hin|]. rewrite <- Eraw in *.
  assert (Hne : raw <> []) by (rewrite Eraw; discriminate).
  rewrite normalize_scores_unfold in Hin. apply in_map_iff in Hin.
  destruct Hin as [r' [<- Hr']]. cbn [snd].
  apply normalized_in_unit; [exact Hne | apply in_map; exact Hr'].
Qed.

Lemma score_in_self (r : Scored) (l : list Scored) :
  NoDup (texts l) -> In r l -> score_in (text r) l = snd r.
Proof.
  intros Hnd Hin. rewrite score_in_lookup, (@lookup_score_self r l Hnd Hin). reflexivity.
Qed.

Lemma score_in_absent (key : string) (l : list Scored) :
  ~ In key (texts l) -> score_in key l = 0.
Proof.
  intros H. rewrite score_in_lookup, (@lookup_score_notin key l H). reflexivity.
Qed.

Lemma same_scored_fst (l l' : list Scored) :
  Forall2 same_scored l l' -> map fst l = map fst l'.
Proof.
  induction 1 as [|r r' l l' [Hd _] H IH]; simpl; [reflexivity | f_equal; assumption].
Qed.

Lemma nth_map_pointwise {A : Type} (f g : A -> Q) (l : list A) :
  (forall x, f x == g x) -> forall i, nth i (map f l) 0 == nth i (map g l) 0.
Proof.
  intros H. induction l as [|a l IH]; intros [|i]; simpl; try reflexivity; auto.
Qed.

Lemma lexical_only_absent (V B : list Scored) (b : Scored) :
  In b (lexical_only V B) -> In b B /\ ~ In (text b) (texts V).
Proof.
  unfold lexical_only. intros H. apply filter_In in H. destruct H as [Hb Hn].
  split; [exact Hb|]. apply negb_true_iff in Hn. apply existsb_eqb_notin in Hn. exact Hn.
Qed.

(** With weight 1 on the semantic side, the fused scores of a descending
    semantic list and its lexical-only followers are in descending order. *)
Lemma fused_semantic_descending (V B : list Scored) :
  NoDup (texts V) -> NoDup (texts B) ->
  StronglySorted (fun a b => snd b <= snd a) V ->
  (forall r, In r V -> 0 <= snd r) ->
  StronglySorted (fun a b => b <= a) (map snd (fused 1 V B)).
Proof.
  intros HV HB Hsorted Hpos. unfold fused.
  rewrite (@candidates_distinct V B HV HB). fold (lexical_only V B).
  rewrite map_map. cbn [snd]. rewrite map_app.
  assert (HinV : forall v, In v V -> combined_score 1 V B (text v) == snd v).
  { intros v Hv. unfold combined_score. rewrite (@score_in_self v V HV Hv). ring. }
  assert (HinB : forall b, In b (lexical_only V B) -> combined_score 1 V B (text b) == 0).
  { intros b Hb. apply lexical_only_absent in Hb. destruct Hb as [_ Hb].
    unfold combined_score. rewrite (@score_in_absent (text b) V Hb). ring. }
  apply StronglySorted_app.
  - apply StronglySorted_map. eapply StronglySorted_impl; [|exact Hsorted].
    intros x y Hx Hy Hxy. cbn beta in Hxy. rewrite (HinV x Hx), (HinV y Hy). exact Hxy.
  - apply StronglySorted_map.
    generalize (lexical_only V B) HinB. intros l Hl.
    induction l as [|b l IH]; constructor.
    + apply IH. intros b' Hb'. apply Hl. right. exact Hb'.
    + apply Forall_forall. intros b' Hb'.
      rewrite (Hl b (or_introl eq_refl)), (Hl b' (or_intror Hb')). apply Qle_refl.
  - intros x y Hx Hy.
    apply in_map_iff in Hx. destruct Hx as [v [<- Hv]].
    apply in_map_iff in Hy. destruct Hy as [b [<- Hb]].
    rewrite (HinV v Hv), (HinB b Hb). apply Hpos. exact Hv.
Qed.

(** C9 (amended). When neither normalised candidate list repeats a text:
    with [alpha = 1], and the semantic search returning its candidates in
    descending order of score, the result is the first [k] of the semantic
    candidates in their order followed by the lexical-only candidates; with
    [alpha = 0] the result is the first [k] of the candidates in descending
    order of normalised lexical score, a candidate missing from the lexical
    list counting 0 and candidates of equal score staying in the order of
    first encounter, the semantic list first. *)
Theorem hybrid_search_weight_extremes
    (Config : Configuration)
    (bm25_document_score : list (list string) -> list string -> list string -> Q)
    (tie_order : list Q -> nat -> nat -> bool)
    (vs : VectorStore) (query : string) (k : option nat) :
  let self := HybridRetriever_init vs in
  let k' := py_or k (TOP_K_RESULTS Config) in
  let semantic_raw := similarity_search Config vs query (Some (k' * 2)%nat) in
  let semantic := normalize_scores semantic_raw in
  let lexical :=
    normalize_scores (lexical_candidates bm25_document_score tie_order self query (k' * 2)) in
  NoDup (texts semantic) -> NoDup (texts lexical) ->
  (StronglySorted (fun a b => snd b <= snd a) semantic_raw ->
   exists results,
     hybrid_search Config bm25_document_score tie_order self query k 1 = Ok results /\
     map fst results =
       firstn k' (map fst semantic ++ map fst (lexical_only semantic lexical))) /\
  (exists results ranking,
     hybrid_search Config bm25_document_score tie_order self query k 0 = Ok results /\
     ranked_by (map (fun c => score_in (text c) lexical) (candidates semantic lexical))
       (candidates semantic lexical) ranking /\
     map fst results = map fst (firstn k' ranking)).
Proof.
  intros self k' semantic_raw semantic lexical HV HB. split.
  - intros Hsorted.
    destruct (@hybrid_search_fused Config bm25_document_score tie_order vs query k 1 HV HB)
      as [results [ranking [Hres [Hranked Hsame]]]].
    change (semantic_list Config vs query (py_or k (TOP_K_RESULTS Config)))
      with semantic in Hranked.
    change (lexical_list bm25_document_score tie_order vs query (py_or k (TOP_K_RESULTS Config)))
      with lexical in Hranked.
    fold self k' in Hres, Hsame.
    exists results. split; [exact Hres|].
    assert (Hdesc : StronglySorted (fun a b => b <= a) (map snd (fused 1 semantic lexical))).
    { apply fused_semantic_descending; try assumption.
      - apply normalize_scores_descending. exact Hsorted.
      - intros r Hr. apply (normalize_scores_nonneg semantic_raw r Hr). }
    apply ranked_by_descending in Hranked; [| apply length_map | exact Hdesc].
    rewrite (same_scored_fst Hsame), Hranked.
    rewrite <- firstn_map. f_equal. unfold fused. rewrite map_map. cbn [fst].
    rewrite (@candidates_distinct semantic lexical HV HB). apply map_app.
  - destruct (@hybrid_search_fused Config bm25_document_score tie_order vs query k 0 HV HB)
      as [results [ranking [Hres [Hranked Hsame]]]].
    change (semantic_list Config vs query (py_or k (TOP_K_RESULTS Config)))
      with semantic in Hranked.
    change (lexical_list bm25_document_score tie_order vs query (py_or k (TOP_K_RESULTS Config)))
      with lexical in Hranked.
    fold self k' in Hres, Hsame.
    assert (Hrel : Forall2 (fun f c : Scored => fst f = fst c)
                     (fused 0 semantic lexical) (candidates semantic lexical)).
    { unfold fused. induction (candidates semantic lexical); simpl; constructor; auto. }
    assert (Hscores : forall i,
               nth i (map snd (fused 0 semantic lexical)) 0 ==
               nth i (map (fun c => score_in (text c) lexical)
                        (candidates semantic lexical)) 0).
    { unfold fused. rewrite map_map. cbn [snd]. apply nth_map_pointwise.
      intros c. unfold combined_score. ring. }
    destruct (@ranked_by_transfer _ _ _ _ _ _ _ _ Hrel Hscores Hranked)
      as [ranking' [Hranked' Hrel']].
    exists results, ranking'. split; [exact Hres|]. split; [exact Hranked'|].
    rewrite (same_scored_fst Hsame).
    apply (Forall2_firstn) with (n := k') in Hrel'.
    revert Hrel'. generalize (firstn k' ranking) (firstn k' ranking').
    induction 1; simpl; [reflexivity | f_equal; assumption].
Qed.

Lemma hybrid_search_weight_extremes_witness :
  let self := HybridRetriever_init fusion_store in
  let semantic :=
    normalize_scores (similarity_search sample_config fusion_store "x" (Some 10%nat)) in
  let lexical := normalize_scores (lexical_candidates overlap_score insertion_ties self "x" 10) in
  (exists results,
     hybrid_search sample_config overlap_score insertion_ties self "x" None 1 = Ok results /\
     map fst results = [doc_c; doc_a; doc_b]) /\
  (exists results ranking,
     hybrid_search sample_config overlap_score insertion_ties self "x" None 0 = Ok results /\
     ranked_by (map (fun c => score_in (text c) lexical) (candidates semantic lexical))
       (candidates semantic lexical) ranking /\
     map fst results = map fst (firstn 5 ranking)).
Proof.
  intros self semantic lexical.
  destruct (@hybrid_search_weight_extremes sample_config overlap_score insertion_ties fusion_store "x" None)
    as [H1 H0].
  - apply NoDup_by_compute. vm_compute. reflexivity.
  - apply NoDup_by_compute. vm_compute. reflexivity.
  - split; [|exact H0].
    destruct H1 as [results [Hres Hmap]].
    + vm_compute. repeat constructor; intro H; discriminate H.
    + exists results. split; [exact Hres|]. rewrite Hmap. vm_compute. reflexivity.
Defined.

(** C9, as stated, fails at [alpha = 0]: the three chunks tie on lexical
    score; the lexical ranking has [doc_b] before [doc_a], the fused ranking
    has [doc_a], which the semantic list brought in first, before [doc_b]. *)
Lemma hybrid_search_lexical_order_counterexample :
  let self := HybridRetriever_init fusion_store in
  exists results lexical_ranking,
    hybrid_search sample_config overlap_score insertion_ties self "x" None 0 = Ok results /\
    bm25_search overlap_score insertion_ties self "x" 10 = Ok lexical_ranking /\
    restricted_order results lexical_ranking = ["gamma x x"; "alpha x"; "beta x"]%string /\
    restricted_order lexical_ranking results = ["gamma x x"; "beta x"; "alpha x"]%string /\
    restricted_order results lexical_ranking <> restricted_order lexical_ranking results.
Proof.
  intros self. eexists. eexists.
  split; [vm_compute; reflexivity|].
  split; [vm_compute; reflexivity|].
  split; [reflexivity|]. split; [reflexivity|].
  vm_compute. discriminate.
Qed.

(** C10, the failing input.  The store holds the text of [doc_a] twice, so
    the lexical list carries it twice and its lexical share is added twice:
    with the default weight 0.5 the first result has combined score 1.5,
    above 1.  The same call returns [doc_c] with combined score 0. *)
Theorem hybrid_search_duplicate_text_score :
  exists s_a s_c,
    hybrid_search sample_config overlap_score insertion_ties (HybridRetriever_init duplicate_store)
      "alpha x" None 0.5 = Ok [(doc_a, s_a); (doc_c, s_c)] /\
    s_a == 1.5 /\ ~ s_a <= 1 /\ s_c == 0.
Proof.
  eexists. eexists. split; [vm_compute; reflexivity|].
  split; [reflexivity|]. split; [|reflexivity].
  intro H. vm_compute in H. apply H. reflexivity.
Qed.

(** Away from the failing input of C10: when neither candidate list
    repeats a text and [alpha] lies in [0,1], every combined score that
    [hybrid_search] returns lies in [0,1]. *)
Lemma score_in_unit (key : string) (l : list Scored) :
  (forall r, In r l -> 0 <= snd r <= 1) -> 0 <= score_in key l <= 1.
Proof.
  induction l as [|r l IH]; simpl; intros H; [lra|].
  destruct (String.eqb (text r) key).
  - apply H. left. reflexivity.
  - apply IH. intros r' Hr'. apply H. right. exact Hr'.
Qed.

Lemma convex_in_unit (alpha a b : Q) :
  0 <= alpha <= 1 -> 0 <= a <= 1 -> 0 <= b <= 1 ->
  0 <= alpha * a + (1 - alpha) * b <= 1.
Proof. intros Halpha Ha Hb. split; nra. Qed.

Lemma same_scored_in_unit (l l' : list Scored) :
  Forall2 same_scored l l' ->
  Forall (fun r : Scored => 0 <= snd r <= 1) l' ->
  Forall (fun r : Scored => 0 <= snd r <= 1) l.
Proof.
  induction 1 as [|r r' l l' [_ Hs] Hrest IH]; intros Hl; constructor;
    inversion Hl as [|? ? [H0 H1] Hl']; subst.
  - split; rewrite Hs; assumption.
  - apply IH. exact Hl'.
Qed.

Lemma ranked_by_In {A : Type} (s : list Q) (items out : list A) (x : A) :
  ranked_by s items out -> In x out -> In x items.
Proof.
  intros [idxs [_ [_ Hpick]]] Hin.
  induction Hpick as [|i y idxs out Hi Hpick IH]; [destruct Hin|].
  destruct Hin as [<-|Hin]; [eapply nth_error_In; exact Hi | apply IH; exact Hin].
Qed.

(** X1. For a weight [alpha] between 0 and 1 and candidate lists that
    do not repeat a text, every combined score [hybrid_search] returns lies
    between 0 and 1. *)
Lemma hybrid_search_scores_in_unit
    (Config : Configuration)
    (bm25_document_score : list (list string) -> list string -> list string -> Q)
    (tie_order : list Q -> nat -> nat -> bool)
    (vs : VectorStore) (query : string) (k : option nat) (alpha : Q) :
  let k' := py_or k (TOP_K_RESULTS Config) in
  NoDup (texts (semantic_list Config vs query k')) ->
  NoDup (texts (lexical_list bm25_document_score tie_order vs query k')) ->
  0 <= alpha <= 1 ->
  exists results,
    hybrid_search Config bm25_document_score tie_order (HybridRetriever_init vs) query k alpha =
      Ok results /\
    Forall (fun r => 0 <= snd r <= 1) results.
Proof.
  intros k' HV HB Halpha.
  destruct (@hybrid_search_fused Config bm25_document_score tie_order vs query k alpha HV HB)
    as [results [ranking [Hres [Hranked Hsame]]]].
  exists results. split; [exact Hres|].
  fold k' in Hsame.
  assert (Hrank : Forall (fun r : Scored => 0 <= snd r <= 1) (firstn k' ranking)).
  { apply Forall_forall. intros r Hr. apply In_firstn in Hr.
    apply (@ranked_by_In _ _ _ _ r Hranked) in Hr. unfold fused in Hr.
    apply in_map_iff in Hr. destruct Hr as [c [<- _]]. cbn [snd].
    unfold combined_score.
    pose proof (@score_in_unit (text c) (semantic_list Config vs query k')
                  (fun r Hr => normalize_scores_nonneg _ r Hr)) as Ha.
    pose proof (@score_in_unit (text c) (lexical_list bm25_document_score tie_order vs query k')
                  (fun r Hr => normalize_scores_nonneg _ r Hr)) as Hb.
    apply convex_in_unit; assumption. }
  exact (same_scored_in_unit Hsame Hrank).
Qed.

Lemma hybrid_search_scores_in_unit_witness :
  exists results,
    hybrid_search sample_config overlap_score insertion_ties (HybridRetriever_init fusion_store)
      "gamma x" (Some 2%nat) 0.5 = Ok results /\
    Forall (fun r => 0 <= snd r <= 1) results.
Proof.
  apply (@hybrid_search_scores_in_unit sample_config overlap_score insertion_ties fusion_store "gamma x"
           (Some 2%nat) 0.5).
  - apply NoDup_by_compute; vm_compute; reflexivity.
  - apply NoDup_by_compute; vm_compute; reflexivity.
  - split; discriminate.
Defined.

(** ** Regular expressions *)

Lemma append_assoc (a b c : string) : ((a ++ b) ++ c = a ++ (b ++ c))%string.
Proof. induction a as [|x a IH]; simpl; [reflexivity | rewrite IH; reflexivity]. Qed.

Lemma append_nil_r (a : string) : (a ++ "" = a)%string.
Proof. induction a as [|x a IH]; simpl; [reflexivity | rewrite IH; reflexivity]. Qed.

Lemma length_append (a b : string) :
  String.length (a ++ b) = (String.length a + String.length b)%nat.
Proof. induction a as [|x a IH]; simpl; [reflexivity | rewrite IH; reflexivity]. Qed.

Lemma take_append (a b : string) : take (String.length a) (a ++ b) = a.
Proof. induction a as [|x a IH]; simpl; [destruct b; reflexivity | rewrite IH; reflexivity]. Qed.

Lemma consumed_append (w s : string) : consumed (w ++ s) s = w.
Proof.
  unfold consumed. rewrite length_append.
  replace (String.length w + String.length s - String.length s)%nat
    with (String.length w) by lia.
  apply take_append.
Qed.

Lemma strip_prefix_some (l s s' : string) :
  strip_prefix l s = Some s' <-> s = (l ++ s')%string.
Proof.
  revert s. induction l as [|a l IH]; intros s; simpl.
  - split; [intros H; inversion H; reflexivity | intros ->; reflexivity].
  - destruct s as [|b s]; [split; discriminate|].
    destruct (Ascii.eqb a b) eqn:E.
    + apply Ascii.eqb_eq in E. subst b. rewrite IH.
      split; [intros ->; reflexivity | intros H; inversion H; reflexivity].
    + apply Ascii.eqb_neq in E. split; [discriminate|].
      intros H. inversion H. congruence.
Qed.

Lemma all_chars_append (p : ascii -> bool) (a b : string) :
  all_chars p (a ++ b) = all_chars p a && all_chars p b.
Proof.
  induction a as [|x a IH]; simpl; [reflexivity|].
  rewrite IH. apply andb_assoc.
Qed.

Section MatcherFacts.

Variable A : Type.

Lemma star_sound (p : ascii -> bool) (s : string) (k : string -> option A) (x : A) :
  star p s k = Some x ->
  exists w s', s = (w ++ s')%string /\ all_chars p w = true /\ k s' = Some x.
Proof.
  induction s as [|c s IH]; simpl; intros H.
  - exists EmptyString, EmptyString. auto.
  - destruct (p c) eqn:Ep.
    + destruct (star p s k) as [y|] eqn:Es.
      * inversion H; subst y.
        destruct (IH eq_refl) as [w [s' [E [Hw Hk]]]].
        exists (String c w), s'. simpl. rewrite Ep, Hw, E. auto.
      * exists EmptyString, (String c s). auto.
    + exists EmptyString, (String c s). auto.
Qed.


(** The matcher only finds what the expression denotes. *)
Lemma rmatch_sound (r : regex) :
  forall (s : string) (caps : Captures) (k : string -> Captures -> option A) (x : A),
    rmatch r s caps k = Some x ->
    exists s' caps', matches r s s' caps caps' /\ k s' caps' = Some x.
Proof.
  induction r as [l | p | p | r1 IH1 r2 IH2 | r IH | n r IH]; intros s caps k x H; simpl in H.
  - destruct (strip_prefix l s) as [s'|] eqn:E; [|discriminate].
    apply strip_prefix_some in E. subst s.
    exists s', caps. split; [constructor | exact H].
  - apply star_sound in H. destruct H as [w [s' [-> [Hw Hk]]]].
    exists s', caps. split; [constructor; exact Hw | exact Hk].
  - destruct s as [|c s]; [discriminate|].
    destruct (p c) eqn:Ep; [|discriminate].
    apply star_sound in H. destruct H as [w [s' [-> [Hw Hk]]]].
    exists s', caps. split; [|exact Hk].
    apply (matches_plus p (w := String c w)); [discriminate | simpl; rewrite Ep; exact Hw].
  - apply IH1 in H. destruct H as [s1 [caps1 [H1 H]]].
    apply IH2 in H. destruct H as [s2 [caps2 [H2 H]]].
    exists s2, caps2. split; [econstructor; eauto | exact H].
  - destruct (rmatch r s caps k) as [y|] eqn:E.
    + inversion H; subst y. apply IH in E. destruct E as [s' [caps' [Hm Hk]]].
      exists s', caps'. split; [constructor; exact Hm | exact Hk].
    + exists s, caps. split; [apply matches_opt_none | exact H].
  - apply IH in H. destruct H as [s' [caps' [Hm Hk]]].
    exists s', ((n, consumed s s') :: caps'). split; [constructor; exact Hm | exact Hk].
Qed.


End MatcherFacts.

Lemma matches_suffix (r : regex) (s s' : string) (caps caps' : Captures) :
  matches r s s' caps caps' -> exists w, s = (w ++ s')%string.
Proof.
  induction 1 as [l s caps | p w s caps Hw | p w s caps Hne Hw
                 | r1 r2 s s1 s2 caps caps1 caps2 H1 IH1 H2 IH2
                 | r s s' caps caps' H IH | r s caps
                 | n r s s' caps caps' H IH].
  - exists l. reflexivity.
  - exists w. reflexivity.
  - exists w. reflexivity.
  - destruct IH1 as [w1 ->]. destruct IH2 as [w2 ->].
    exists (w1 ++ w2)%string. symmetry. apply append_assoc.
  - exact IH.
  - exists EmptyString. reflexivity.
  - exact IH.
Qed.

Lemma matches_lit_inv (l s s' : string) (c c' : Captures) :
  matches (Lit l) s s' c c' -> s = (l ++ s')%string /\ c' = c.
Proof. intros H. inversion H; subst. auto. Qed.

Lemma matches_star_inv (p : ascii -> bool) (s s' : string) (c c' : Captures) :
  matches (StarC p) s s' c c' ->
  exists w, s = (w ++ s')%string /\ all_chars p w = true /\ c' = c.
Proof. intros H. inversion H; subst. eauto. Qed.

Lemma matches_plus_inv (p : ascii -> bool) (s s' : string) (c c' : Captures) :
  matches (PlusC p) s s' c c' ->
  exists w, s = (w ++ s')%string /\ w <> EmptyString /\ all_chars p w = true /\ c' = c.
Proof. intros H. inversion H; subst. eauto. Qed.

Lemma matches_cat_inv (r1 r2 : regex) (s s' : string) (c c' : Captures) :
  matches (Cat r1 r2) s s' c c' ->
  exists s1 c1, matches r1 s s1 c c1 /\ matches r2 s1 s' c1 c'.
Proof. intros H. inversion H; subst. eauto. Qed.

Lemma matches_opt_inv (r : regex) (s s' : string) (c c' : Captures) :
  matches (Opt r) s s' c c' -> matches r s s' c c' \/ (s' = s /\ c' = c).
Proof. intros H. inversion H; subst; auto. Qed.

Lemma matches_grp_inv (n : nat) (r : regex) (s s' : string) (c c' : Captures) :
  matches (Grp n r) s s' c c' ->
  exists c1, matches r s s' c c1 /\ c' = (n, consumed s s') :: c1.
Proof. intros H. inversion H; subst. eauto. Qed.

(** An optional [, <label> <text>] part with its capturing group. *)
Lemma labelled_part_inv (label : string) (n : nat) (p : ascii -> bool)
    (s s' : string) (c c' : Captures) :
  matches (Opt (Lit "," ;; StarC is_space ;; Lit label ;; StarC is_space ;;
                Grp n (PlusC p))%re) s s' c c' ->
  (s' = s /\ c' = c) \/
  exists ws1 ws2 body,
    s = ("," ++ ws1 ++ label ++ ws2 ++ body ++ s')%string /\
    all_chars is_space ws1 = true /\ all_chars is_space ws2 = true /\
    body <> EmptyString /\ all_chars p body = true /\
    c' = (n, body) :: c.
Proof.
  intros H. apply matches_opt_inv in H. destruct H as [H|H]; [right | left; exact H].
  apply matches_cat_inv in H. destruct H as [s1 [c1 [H1 H]]].
  apply matches_lit_inv in H1. destruct H1 as [-> ->].
  apply matches_cat_inv in H. destruct H as [s2 [c2 [H2 H]]].
  apply matches_star_inv in H2. destruct H2 as [ws1 [-> [Hws1 ->]]].
  apply matches_cat_inv in H. destruct H as [s3 [c3 [H3 H]]].
  apply matches_lit_inv in H3. destruct H3 as [-> ->].
  apply matches_cat_inv in H. destruct H as [s4 [c4 [H4 H]]].
  apply matches_star_inv in H4. destruct H4 as [ws2 [-> [Hws2 ->]]].
  apply matches_grp_inv in H. destruct H as [c5 [H ->]].
  apply matches_plus_inv in H. destruct H as [body [-> [Hne [Hbody ->]]]].
  exists ws1, ws2, body. rewrite consumed_append. repeat split; assumption.
Qed.


(** What the citation pattern denotes is the marker grammar. *)
Lemma citation_pattern_marker (s s' : string) (caps : Captures) :
  matches citation_pattern s s' [] caps ->
  exists m name pg sec,
    s = (m ++ s')%string /\ marker m name pg sec /\
    lookup 1 caps = Some name /\ lookup 2 caps = pg /\ lookup 3 caps = sec.
Proof.
  unfold citation_pattern. intros H.
  apply matches_cat_inv in H. destruct H as [s1 [c1 [H1 H]]].
  apply matches_lit_inv in H1. destruct H1 as [-> ->].
  apply matches_cat_inv in H. destruct H as [s2 [c2 [H2 H]]].
  apply matches_star_inv in H2. destruct H2 as [ws [-> [Hws ->]]].
  apply matches_cat_inv in H. destruct H as [s3 [c3 [H3 H]]].
  apply matches_grp_inv in H3. destruct H3 as [c3' [H3 ->]].
  apply matches_plus_inv in H3. destruct H3 as [name [-> [Hne [Hname ->]]]].
  rewrite consumed_append in H.
  apply matches_cat_inv in H. destruct H as [s4 [c4 [H4 H]]].
  apply matches_cat_inv in H. destruct H as [s5 [c5 [H5 H]]].
  apply matches_lit_inv in H. destruct H as [-> ->].
  apply labelled_part_inv in H4. apply labelled_part_inv in H5.
  assert (Hpage : exists ppart pg,
             s3 = (ppart ++ s4)%string /\ page_part ppart pg /\
             c4 = match pg with Some d => [(2%nat, d); (1%nat, name)] | None => [(1%nat, name)] end).
  { destruct H4 as [[-> ->] | [ws1 [ws2 [digits [-> [Hw1 [Hw2 [Hd [Hds ->]]]]]]]]].
    - exists EmptyString, None. repeat split. left. auto.
    - exists ("," ++ ws1 ++ "Page:" ++ ws2 ++ digits)%string, (Some digits).
      split; [rewrite !append_assoc; reflexivity|]. split; [|reflexivity].
      right. exists ws1, ws2, digits. repeat split; assumption. }
  destruct Hpage as [ppart [pg [-> [Hpage ->]]]].
  assert (Hsec : exists spart sec,
             s4 = (spart ++ "]" ++ s')%string /\ section_part spart sec /\
             lookup 3 c5 = sec /\ lookup 2 c5 = pg /\ lookup 1 c5 = Some name).
  { destruct H5 as [[-> ->] | [ws1 [ws2 [title [-> [Hw1 [Hw2 [Ht [Hts ->]]]]]]]]].
    - exists EmptyString, None. split; [reflexivity|]. split; [left; auto|].
      destruct pg; repeat split.
    - exists ("," ++ ws1 ++ "Section:" ++ ws2 ++ title)%string, (Some title).
      split; [rewrite !append_assoc; reflexivity|].
      split; [right; exists ws1, ws2, title; repeat split; assumption|].
      destruct pg; repeat split. }
  destruct Hsec as [spart [sec [-> [Hsec [L3 [L2 L1]]]]]].
  exists ("[Source:" ++ ws ++ name ++ ppart ++ spart ++ "]")%string, name, pg, sec.
  split; [rewrite !append_assoc; reflexivity|].
  split; [|auto].
  exists ws, ppart, spart. repeat split; assumption.
Qed.


(** ** Finding the markers *)

Lemma match_at_sound (r : regex) (pos : nat) (s : string) (m : Match) :
  match_at r pos s = Some m ->
  exists s', matches r s s' [] (m_groups m) /\
             m_start m = pos /\
             m_end m = (pos + (String.length s - String.length s'))%nat.
Proof.
  unfold match_at. intros H. apply rmatch_sound in H.
  destruct H as [s' [caps' [Hm Hk]]]. inversion Hk; subst. simpl. eauto.
Qed.


Lemma match_at_span (r : regex) (pos : nat) (s : string) (m : Match) :
  match_at r pos s = Some m -> m_start m = pos /\ (pos <= m_end m)%nat.
Proof.
  intros H. apply match_at_sound in H. destruct H as [s' [_ [Hs He]]]. lia.
Qed.

Lemma finditer_sound (r : regex) (s : string) :
  forall pos skip m,
    In m (finditer_from r pos skip s) ->
    exists off,
      (skip <= off)%nat /\ m_start m = (pos + off)%nat /\
      match_at r (pos + off) (drop off s) = Some m.
Proof.
  induction s as [|c s IH]; intros pos skip m Hin.
  - destruct skip as [|skip]; simpl in Hin; [|destruct Hin].
    destruct (match_at r pos EmptyString) as [m0|] eqn:E; [|destruct Hin].
    destruct Hin as [<-|[]]. exists 0%nat. rewrite Nat.add_0_r. simpl.
    split; [lia|]. split; [apply (@match_at_span _ _ _ _ E) | exact E].
  - assert (Hshift : forall skip', In m (finditer_from r (S pos) skip' s) ->
              exists off, (S skip' <= off)%nat /\ m_start m = (pos + off)%nat /\
                          match_at r (pos + off) (drop off (String c s)) = Some m).
    { intros skip' H. apply IH in H. destruct H as [off [Hle [Hs Hm]]].
      exists (S off). replace (pos + S off)%nat with (S pos + off)%nat by lia.
      simpl drop. split; [lia|]. split; assumption. }
    destruct skip as [|skip]; simpl in Hin.
    + destruct (match_at r pos (String c s)) as [m0|] eqn:E.
      * destruct Hin as [<-|Hin].
        -- exists 0%nat. rewrite Nat.add_0_r. simpl drop.
           split; [lia|]. split; [apply (@match_at_span _ _ _ _ E) | exact E].
        -- destruct (Hshift _ Hin) as [off [Hle H]]. exists off. split; [lia | exact H].
      * destruct (Hshift _ Hin) as [off [Hle H]]. exists off. split; [lia | exact H].
    + destruct (Hshift _ Hin) as [off H]. exists off. exact H.
Qed.




(** ** Citation extraction *)

Lemma int_digits_ok (s : string) :
  all_chars is_digit s = true -> forall acc, exists n, int_digits acc s = Ok n.
Proof.
  induction s as [|c s IH]; simpl; intros H acc; [eauto|].
  apply andb_true_iff in H. destruct H as [Hc Hs]. rewrite Hc. apply IH. exact Hs.
Qed.

Lemma py_int_ok (s : string) :
  s <> EmptyString -> all_chars is_digit s = true ->
  (String.length s <= int_max_str_digits)%nat ->
  exists n, py_int s = Ok n.
Proof.
  intros Hne H Hlen. destruct s as [|c s]; [congruence|].
  unfold py_int.
  replace (int_max_str_digits <? String.length (String c s))%nat with false
    by (symmetry; apply Nat.ltb_ge; exact Hlen).
  apply int_digits_ok. exact H.
Qed.

Lemma py_int_long (s : string) :
  (int_max_str_digits < String.length s)%nat -> py_int s = Raise ValueError.
Proof.
  intros Hlen. destruct s as [|c s]; [reflexivity|].
  unfold py_int.
  replace (int_max_str_digits <? String.length (String c s))%nat with true
    by (symmetry; apply Nat.ltb_lt; exact Hlen).
  reflexivity.
Qed.

Lemma find_chunk_text_excerpt (source : string) (page : option Z) (docs : list Document) :
  find_chunk_text source page docs = excerpt docs source page.
Proof.
  unfold excerpt. induction docs as [|d docs IH]; simpl; [reflexivity|].
  destruct (cites source page d); [reflexivity | exact IH].
Qed.




(** The body of the loop turns a match of the citation pattern into the
    citation that reports it, unless the page it cites has too many digits
    for [int]. *)
Lemma citation_of_match_reports (answer : string) (docs : list Document) (m : Match) :
  match_at citation_pattern (m_start m) (drop (m_start m) answer) = Some m ->
  ((page_digits m <= int_max_str_digits)%nat ->
   exists c, citation_of_match docs m = Ok c /\ reports answer docs m c) /\
  ((int_max_str_digits < page_digits m)%nat ->
   citation_of_match docs m = Raise ValueError).
Proof.
  intros H. apply match_at_sound in H. destruct H as [s' [Hm [_ Hend]]].
  apply citation_pattern_marker in Hm.
  destruct Hm as [text [name [pg [sec [Hs [Hmarker [L1 [L2 L3]]]]]]]].
  assert (Hlen : String.length text = (m_end m - m_start m)%nat).
  { rewrite Hend, Hs, length_append. lia. }
  unfold page_digits, citation_of_match, group. rewrite L1, L2, L3. cbn [bind].
  pose proof Hmarker as [ws [ppart [spart [_ [_ [_ [Hpage [Hsec _]]]]]]]].
  split.
  - intros Hfit.
    assert (Hp : exists p,
               match pg with
               | Some g => match g with
                           | EmptyString => Ok None
                           | String _ _ => n <- py_int g;; Ok (Some n)
                           end
               | None => Ok None
               end = Ok p /\
               match pg with
               | Some digits => exists n, py_int digits = Ok n /\ p = Some n
               | None => p = None
               end).
    { destruct Hpage as [[-> _] | [ws1 [ws2 [digits [-> [_ [_ [Hd [Hds _]]]]]]]]].
      - exists None. auto.
      - destruct (py_int_ok Hd Hds Hfit) as [n Hn].
        exists (Some n). destruct digits as [|c digits]; [congruence|].
        rewrite Hn. cbn [bind]. eauto. }
    destruct Hp as [p [Ep Hp]]. rewrite Ep. cbn [bind].
    eexists. split; [reflexivity|].
    exists text, name, pg, sec, s'. cbn [source page section chunk_text].
    repeat split; try assumption.
    + destruct Hsec as [[-> _] | [ws1 [ws2 [title [-> [_ [_ [Ht _]]]]]]]]; [reflexivity|].
      destruct title; [congruence | reflexivity].
    + apply find_chunk_text_excerpt.
  - intros Hlong. destruct pg as [digits|]; [|cbn in Hlong; lia].
    rewrite (@py_int_long _ Hlong).
    destruct digits; [cbn in Hlong; lia | reflexivity].
Qed.

Lemma citations_loop_reports (answer : string) (docs : list Document) (ms : list Match) :
  Forall (fun m => match_at citation_pattern (m_start m) (drop (m_start m) answer) = Some m)
    ms ->
  Forall (fun m => (page_digits m <= int_max_str_digits)%nat) ms ->
  exists cits, citations_loop docs ms = Ok cits /\ Forall2 (reports answer docs) ms cits.
Proof.
  induction 1 as [|m ms Hm Hms IH]; intros Hfit; cbn [citations_loop].
  - exists []. split; [reflexivity | constructor].
  - inversion Hfit as [|? ? Hfm Hfms]; subst.
    destruct (proj1 (@citation_of_match_reports answer docs m Hm) Hfm) as [c [Hc Hr]].
    destruct (IH Hfms) as [cits [Hcits Hrs]].
    rewrite Hc, Hcits. cbn [bind]. exists (c :: cits). split; [reflexivity|].
    constructor; assumption.
Qed.

(** The loop ends with a list of citations or with [ValueError], the one
    exception that [int] raises; it does so when a page has too many
    digits. *)
Lemma citations_loop_outcome (answer : string) (docs : list Document) (ms : list Match) :
  Forall (fun m => match_at citation_pattern (m_start m) (drop (m_start m) answer) = Some m)
    ms ->
  (exists cits, citations_loop docs ms = Ok cits) \/
  (citations_loop docs ms = Raise ValueError /\
   Exists (fun m => (int_max_str_digits < page_digits m)%nat) ms).
Proof.
  induction 1 as [|m ms Hm Hms IH]; cbn [citations_loop]; [left; eauto|].
  destruct (le_lt_dec (page_digits m) int_max_str_digits) as [Hfit|Hlong].
  - destruct (proj1 (@citation_of_match_reports answer docs m Hm) Hfit) as [c [Hc _]].
    rewrite Hc. cbn [bind].
    destruct IH as [[cits Hcits]|[Hraise Hex]].
    + rewrite Hcits. cbn [bind]. left. eauto.
    + rewrite Hraise. cbn [bind]. right.
      split; [reflexivity | apply Exists_cons_tl; exact Hex].
  - rewrite (proj2 (@citation_of_match_reports answer docs m Hm) Hlong).
    right. split; [reflexivity | apply Exists_cons_hd; exact Hlong].
Qed.

Lemma finditer_matches (answer : string) :
  Forall (fun m => match_at citation_pattern (m_start m) (drop (m_start m) answer) = Some m)
    (finditer citation_pattern answer).
Proof.
  unfold finditer. apply Forall_forall. intros m Hm. apply finditer_sound in Hm.
  destruct Hm as [off [_ [Hs Hm]]]. simpl in Hs, Hm. rewrite Hs. exact Hm.
Qed.

(** [_extract_citations] returns, or raises [ValueError]. *)
Lemma extract_citations_outcome (answer : string) (docs : list Document) :
  (exists cits, _extract_citations answer docs = Ok cits) \/
  _extract_citations answer docs = Raise ValueError.
Proof.
  unfold _extract_citations.
  destruct (@citations_loop_outcome answer docs _ (finditer_matches answer))
    as [H|[H _]]; [left; exact H | right; exact H].
Qed.



(** ** Confidence *)

Lemma py_min2_Qmin (a b : Q) : py_min2 a b == Qmin a b.
Proof.
  unfold py_min2. destruct (Qlt_bool b a) eqn:E.
  - apply Qlt_bool_iff in E. symmetry. apply Q.min_r. lra.
  - apply Qlt_bool_false in E. symmetry. apply Q.min_l. exact E.
Qed.

Lemma py_max2_Qmax (a b : Q) : py_max2 a b == Qmax a b.
Proof.
  unfold py_max2. destruct (Qlt_bool a b) eqn:E.
  - apply Qlt_bool_iff in E. symmetry. apply Q.max_r. lra.
  - apply Qlt_bool_false in E. symmetry. apply Q.max_l. exact E.
Qed.

Lemma fold_left_Qplus (l : list Q) :
  forall acc, fold_left Qplus l acc == acc + fold_right Qplus 0 l.
Proof.
  induction l as [|x l IH]; intros acc; simpl; [ring|]. rewrite IH. ring.
Qed.

Lemma py_sum_fold_right (l : list Q) : py_sum l == fold_right Qplus 0 l.
Proof. unfold py_sum. rewrite fold_left_Qplus. ring. Qed.

Lemma clamp_unit_bounds (x : Q) : 0 <= clamp_unit x <= 1.
Proof.
  unfold clamp_unit. split.
  - apply Q.min_glb; [apply Q.le_max_r | lra].
  - apply Q.le_min_r.
Qed.

Lemma calculate_confidence_refusal (answer : string) (docs : list Scored)
    (cits : list Citation) :
  answer = EmptyString \/ startswith (lower answer) "i don't have" = true ->
  _calculate_confidence answer docs cits = 0.
Proof.
  intros H. unfold _calculate_confidence.
  destruct H as [->|H]; [reflexivity|]. rewrite H, orb_true_r. reflexivity.
Qed.

Lemma calculate_confidence_weighted (answer : string) (docs : list Scored)
    (cits : list Citation) :
  answer <> EmptyString -> startswith (lower answer) "i don't have" = false ->
  _calculate_confidence answer docs cits == weighted_confidence answer docs cits.
Proof.
  intros Hne Hpre. unfold _calculate_confidence, weighted_confidence, clamp_unit.
  assert (E : (String.length answer =? 0)%nat = false).
  { destruct answer; [congruence | reflexivity]. }
  rewrite E, Hpre. cbn [orb].
  rewrite py_min2_Qmin, py_max2_Qmax, !py_min2_Qmin.
  assert (Havg : match docs with
                 | [] => 0
                 | _ :: _ => py_sum (map snd docs) / Q_of_nat (List.length docs)
                 end == mean_score docs).
  { unfold mean_score. destruct docs; [reflexivity|].
    rewrite py_sum_fold_right. reflexivity. }
  rewrite Havg. reflexivity.
Qed.

(** C4. An empty answer, or one whose lower-cased text begins with
    [i don't have], has confidence exactly 0 whatever the evidence and the
    citations; any other answer has the confidence
    [0.5 * mean + 0.3 * min(citations / 3, 1) + 0.2 * min(length / 200, 1)]
    clamped to [0,1]. *)
Theorem calculate_confidence_formula (answer : string) (retrieved_docs : list Scored)
    (citations : list Citation) :
  let confidence := _calculate_confidence answer retrieved_docs citations in
  (answer = EmptyString \/ startswith (lower answer) "i don't have" = true ->
   confidence = 0) /\
  (answer <> EmptyString -> startswith (lower answer) "i don't have" = false ->
   confidence == weighted_confidence answer retrieved_docs citations) /\
  0 <= confidence <= 1.
Proof.
  intros confidence. subst confidence.
  split; [apply calculate_confidence_refusal|].
  split; [apply calculate_confidence_weighted|].
  destruct (string_dec answer EmptyString) as [He|Hne].
  - rewrite calculate_confidence_refusal by (left; exact He). lra.
  - destruct (startswith (lower answer) "i don't have") eqn:Hpre.
    + rewrite calculate_confidence_refusal by (right; exact Hpre). lra.
    + rewrite (calculate_confidence_weighted retrieved_docs citations Hne Hpre).
      apply clamp_unit_bounds.
Qed.

(** ** The query orchestrator *)

Lemma most_recent_all {A : Type} (n : nat) (l : list A) :
  (List.length l <= n)%nat -> most_recent n l = l.
Proof.
  intros H. unfold most_recent.
  replace (List.length l - n)%nat with 0%nat by lia. reflexivity.
Qed.

Lemma most_recent_length {A : Type} (n : nat) (l : list A) :
  List.length (most_recent n l) = Nat.min n (List.length l).
Proof. unfold most_recent. rewrite length_skipn. lia. Qed.

(** Truncating, appending and truncating again keeps what truncating the
    whole would keep. *)
Lemma most_recent_app {A : Type} (n : nat) (a b : list A) :
  most_recent n (most_recent n a ++ b) = most_recent n (a ++ b).
Proof.
  unfold most_recent at 1 3. rewrite !length_app, most_recent_length.
  destruct (le_lt_dec (List.length a) n) as [Hle|Hlt].
  - rewrite (most_recent_all a Hle). f_equal. lia.
  - rewrite Nat.min_l by lia.
    unfold most_recent.
    replace (n + List.length b - n)%nat with (List.length b) by lia.
    replace (List.length a + List.length b - n)%nat
      with (List.length b + (List.length a - n))%nat by lia.
    rewrite <- skipn_skipn, (skipn_app (List.length a - n) a b).
    replace (List.length a - n - List.length a)%nat with 0%nat by lia.
    reflexivity.
Qed.

Section Orchestrator.

Variable Config : Configuration.
Variable bm25_document_score : list (list string) -> list string -> list string -> Q.
Variable tie_order : list Q -> nat -> nat -> bool.
Variable llm_invoke : list Message -> string.
Variable _format_context : list Scored -> string.
Variable system_message : string.

Local Abbreviation run_query :=
  (query Config bm25_document_score tie_order llm_invoke _format_context system_message).

Lemma retrieve_run (question search_mode : string) (w : World) :
  retrieve Config bm25_document_score tie_order question search_mode w =
  (retrieved Config bm25_document_score tie_order (self w) question search_mode,
   {| self := self w; calls := calls w ++ [retrieval_call question search_mode] |}).
Proof.
  unfold retrieve, retrieved, retrieval_call, mbind, get_self, log_call, lift, ret.
  destruct (String.eqb search_mode "hybrid"); [reflexivity|].
  destruct (String.eqb search_mode "vector"); reflexivity.
Qed.

(** A query whose retrieval finds nothing. *)
Lemma query_no_results (question search_mode : string) (use : bool) (w : World) :
  retrieved Config bm25_document_score tie_order (self w) question search_mode = Ok [] ->
  run_query question use search_mode w =
  (Ok {| answer := no_information; citations := []; confidence := 0;
         retrieved_chunks := [] |},
   {| self := self w; calls := calls w ++ [retrieval_call question search_mode] |}).
Proof.
  intros H. unfold query. unfold mbind at 1. rewrite retrieve_run, H. reflexivity.
Qed.

Lemma update_conversation_history_run (question answer : string) (w : World) :
  update_conversation_history Config question answer w =
  (Ok tt,
   if ENABLE_CONVERSATION_MEMORY Config
   then {| self := {| rag_vector_store := rag_vector_store (self w);
                      retriever := retriever (self w);
                      conversation_history :=
                        remembered (conversation_history (self w)) question answer |};
           calls := calls w |}
   else w).
Proof.
  unfold update_conversation_history.
  destruct (ENABLE_CONVERSATION_MEMORY Config); [|reflexivity].
  unfold mbind, get_self, set_conversation_history, remembered, turn_entries.
  cbv zeta. cbn [fst snd]. rewrite <- !app_assoc. cbn [app].
  set (h := conversation_history (self w) ++ [HumanMessage question; AIMessage answer]).
  destruct (10 <? List.length h)%nat eqn:E; [reflexivity|].
  apply Nat.ltb_ge in E. rewrite (most_recent_all h E). reflexivity.
Qed.

(** [query], case by case: the retrieval raises, finds nothing or finds
    evidence, and on evidence the model is asked and the parsing of its
    reply returns or raises. *)
Lemma query_unfold (question search_mode : string) (use : bool) (w : World) :
  run_query question use search_mode w =
  match retrieved Config bm25_document_score tie_order (self w) question search_mode with
  | Raise e =>
      (Raise e,
       {| self := self w; calls := calls w ++ [retrieval_call question search_mode] |})
  | Ok [] =>
      (Ok {| answer := no_information; citations := []; confidence := 0;
             retrieved_chunks := [] |},
       {| self := self w; calls := calls w ++ [retrieval_call question search_mode] |})
  | Ok (d :: ds) =>
      let prompt :=
        query_prompt _format_context system_message (d :: ds) question
          (if use && ENABLE_CONVERSATION_MEMORY Config
           then conversation_history (self w) else []) in
      match _extract_citations (llm_invoke prompt) (map fst (d :: ds)) with
      | Ok cits =>
          (Ok {| answer := llm_invoke prompt; citations := cits;
                 confidence := _calculate_confidence (llm_invoke prompt) (d :: ds) cits;
                 retrieved_chunks := map fst (d :: ds) |},
           {| self :=
                {| rag_vector_store := rag_vector_store (self w);
                   retriever := retriever (self w);
                   conversation_history :=
                     if ENABLE_CONVERSATION_MEMORY Config
                     then remembered (conversation_history (self w)) question
                            (llm_invoke prompt)
                     else conversation_history (self w) |};
              calls := calls w ++ [retrieval_call question search_mode;
                                   CallLlmInvoke prompt] |})
      | Raise e =>
          (Raise e,
           {| self := self w;
              calls := calls w ++ [retrieval_call question search_mode;
                                   CallLlmInvoke prompt] |})
      end
  end.
Proof.
  unfold query. unfold mbind at 1. rewrite retrieve_run.
  destruct (retrieved Config bm25_document_score tie_order (self w) question search_mode)
    as [[|d ds]|e]; [reflexivity| |reflexivity].
  cbv zeta.
  unfold mbind at 1. unfold get_self at 1. cbn [self calls].
  assert (Ep : format_messages system_message (_format_context (d :: ds)) question
                 (if use
                  then if use && ENABLE_CONVERSATION_MEMORY Config
                       then conversation_history (self w) else []
                  else []) =
               query_prompt _format_context system_message (d :: ds) question
                 (if use && ENABLE_CONVERSATION_MEMORY Config
                  then conversation_history (self w) else [])).
  { unfold query_prompt. destruct use; reflexivity. }
  rewrite Ep.
  unfold mbind at 1. unfold log_call at 1. cbn [self calls].
  unfold mbind at 1. unfold lift at 1.
  destruct (_extract_citations _ (map fst (d :: ds))) as [cits|e].
  - unfold mbind at 1. rewrite update_conversation_history_run.
    unfold ret. cbn [self calls]. rewrite <- app_assoc. cbn [app].
    destruct (ENABLE_CONVERSATION_MEMORY Config); [reflexivity|].
    destruct w as [[vs r h] cs]. reflexivity.
  - rewrite <- app_assoc. reflexivity.
Qed.

End Orchestrator.


Lemma retrieval_call_not_llm (question search_mode : string) :
  is_llm_call (retrieval_call question search_mode) = false.
Proof.
  unfold retrieval_call.
  destruct (String.eqb search_mode "hybrid"); [reflexivity|].
  destruct (String.eqb search_mode "vector"); reflexivity.
Qed.



(** The other outcome of [query]: on a reply that cites a page of 4301
    digits it raises [ValueError] once the retrieval and the model have
    been called, and records nothing. *)
Lemma query_long_page_raises :
  let run :=
    query sample_config overlap_score insertion_ties long_page_llm sample_format ""
      "x" true "keyword" (sample_world tie_store) in
  fst run = Raise ValueError /\
  conversation_history (self (snd run)) = [] /\
  map is_llm_call (calls (snd run)) = [false; true].
Proof. vm_compute. repeat split. Qed.

(** C7. When retrieval yields nothing, [query] returns the fixed response:
    the stock apology, no citations, confidence exactly 0, no evidence.  It
    is a response, not an exception; the only call made is the retrieval,
    so the generator is not invoked, and the chain is left as it was. *)
Theorem query_no_relevant_information
    (Config : Configuration)
    (bm25_document_score : list (list string) -> list string -> list string -> Q)
    (tie_order : list Q -> nat -> nat -> bool)
    (llm_invoke : list Message -> string) (_format_context : list Scored -> string)
    (system_message : string)
    (question : string) (use_conversation_history : bool) (search_mode : string)
    (w : World) :
  retrieved Config bm25_document_score tie_order (self w) question search_mode = Ok [] ->
  exists response w',
    query Config bm25_document_score tie_order llm_invoke _format_context system_message
      question use_conversation_history search_mode w = (Ok response, w') /\
    answer response = no_information /\
    citations response = [] /\
    confidence response = 0 /\
    retrieved_chunks response = [] /\
    self w' = self w /\
    calls w' = calls w ++ [retrieval_call question search_mode] /\
    is_llm_call (retrieval_call question search_mode) = false.
Proof.
  intros H. eexists. eexists.
  split; [apply query_no_results; exact H|].
  cbn [answer citations confidence retrieved_chunks self calls].
  repeat split. apply retrieval_call_not_llm.
Qed.

Lemma query_no_relevant_information_witness :
  exists response w',
    query sample_config overlap_score insertion_ties sample_llm sample_format "" "x" true "vector"
      (sample_world tie_store) = (Ok response, w') /\
    answer response = no_information /\
    citations response = [] /\
    confidence response = 0 /\
    retrieved_chunks response = [] /\
    self w' = self (sample_world tie_store) /\
    calls w' = calls (sample_world tie_store) ++ [retrieval_call "x" "vector"] /\
    is_llm_call (retrieval_call "x" "vector") = false.
Proof.
  apply (@query_no_relevant_information sample_config overlap_score insertion_ties sample_llm
           sample_format "" "x" true "vector" (sample_world tie_store)).
  reflexivity.
Defined.

(** ** The conversation history *)

Lemma most_recent_suffix {A : Type} (n : nat) (h e : list A) :
  (n <= List.length e)%nat -> most_recent n (h ++ e) = most_recent n e.
Proof.
  intros H. unfold most_recent. rewrite length_app, skipn_app.
  rewrite skipn_all2 by lia. simpl. f_equal. lia.
Qed.

Lemma turn_entries_length (turns : list (string * string)) :
  List.length (flat_map turn_entries turns) = (2 * List.length turns)%nat.
Proof. induction turns as [|t turns IH]; simpl; [reflexivity | rewrite IH; lia]. Qed.

Lemma retrieved_same_stores
    (Config : Configuration)
    (bm25_document_score : list (list string) -> list string -> list string -> Q)
    (tie_order : list Q -> nat -> nat -> bool)
    (me me' : RAGChain) (question search_mode : string) :
  rag_vector_store me' = rag_vector_store me -> retriever me' = retriever me ->
  retrieved Config bm25_document_score tie_order me' question search_mode =
  retrieved Config bm25_document_score tie_order me question search_mode.
Proof. intros Hv Hr. unfold retrieved. rewrite Hv, Hr. reflexivity. Qed.

Section History.

Variable Config : Configuration.
Variable bm25_document_score : list (list string) -> list string -> list string -> Q.
Variable tie_order : list Q -> nat -> nat -> bool.
Variable llm_invoke : list Message -> string.
Variable _format_context : list Scored -> string.
Variable system_message : string.

Local Abbreviation run_query :=
  (query Config bm25_document_score tie_order llm_invoke _format_context system_message).

Local Abbreviation run_trips :=
  (round_trips Config bm25_document_score tie_order llm_invoke _format_context
     system_message).

(** A query that comes back with a generated answer leaves the stores
    alone and, with the memory on, has recorded the turn. *)
Lemma query_answered (question search_mode : string) (use : bool) (w : World) :
  answered (fst (run_query question use search_mode w)) ->
  self (snd (run_query question use search_mode w)) =
  {| rag_vector_store := rag_vector_store (self w);
     retriever := retriever (self w);
     conversation_history :=
       if ENABLE_CONVERSATION_MEMORY Config
       then remembered (conversation_history (self w)) question
              (answer_of (fst (run_query question use search_mode w)))
       else conversation_history (self w) |}.
Proof.
  rewrite query_unfold.
  destruct (retrieved Config bm25_document_score tie_order (self w) question search_mode)
    as [[|d ds]|e].
  - intros [response [E Hne]]. cbn [fst] in E. inversion E; subst response.
    exfalso. apply Hne. reflexivity.
  - cbv zeta. destruct (_extract_citations _ (map fst (d :: ds))) as [cits|e].
    + intros _. reflexivity.
    + intros [response [E _]]. discriminate E.
  - intros [response [E _]]. discriminate E.
Qed.

(** A query that does not come back with a generated answer leaves the
    chain as it was. *)
Lemma query_unanswered (question search_mode : string) (use : bool) (w : World) :
  ~ answered (fst (run_query question use search_mode w)) ->
  self (snd (run_query question use search_mode w)) = self w.
Proof.
  rewrite query_unfold.
  destruct (retrieved Config bm25_document_score tie_order (self w) question search_mode)
    as [[|d ds]|e]; [reflexivity| |reflexivity].
  cbv zeta. destruct (_extract_citations _ (map fst (d :: ds))) as [cits|e];
    [|reflexivity].
  intros H. exfalso. apply H. eexists. split; [reflexivity|]. discriminate.
Qed.

Lemma round_trips_cons (q : string) (questions : list string) (use : bool)
    (search_mode : string) (w : World) :
  run_trips (q :: questions) use search_mode w =
  (fst (run_query q use search_mode w) ::
   fst (run_trips questions use search_mode (snd (run_query q use search_mode w))),
   snd (run_trips questions use search_mode (snd (run_query q use search_mode w)))).
Proof.
  cbn [round_trips].
  destruct (run_query q use search_mode w) as [r w1]. cbn [fst snd].
  destruct (run_trips questions use search_mode w1) as [rs w2]. reflexivity.
Qed.

Lemma round_trips_length (questions : list string) (use : bool) (search_mode : string) :
  forall w : World,
    List.length (fst (run_trips questions use search_mode w)) = List.length questions.
Proof.
  induction questions as [|q questions IH]; intros w; [reflexivity|].
  rewrite round_trips_cons. cbn [fst List.length]. rewrite IH. reflexivity.
Qed.

Hypothesis memory_enabled : ENABLE_CONVERSATION_MEMORY Config = true.

Lemma round_trips_history (use : bool) (search_mode : string) (questions : list string) :
  forall (q : string) (w : World),
    let run := run_trips (q :: questions) use search_mode w in
    Forall answered (fst run) ->
    conversation_history (self (snd run)) =
      most_recent 10
        (conversation_history (self w) ++
         flat_map turn_entries (List.combine (q :: questions) (map answer_of (fst run)))).
Proof.
  induction questions as [|q2 questions IH]; intros q w run Hall; subst run;
    rewrite round_trips_cons in *; cbn [fst snd] in *;
    inversion Hall as [|? ? Hq Hrest]; subst.
  - cbn [round_trips snd fst map List.combine flat_map].
    rewrite (@query_answered _ _ _ _ Hq), memory_enabled. cbn [conversation_history].
    rewrite app_nil_r. reflexivity.
  - specialize (IH q2 (snd (run_query q use search_mode w))). cbv zeta in IH.
    rewrite (IH Hrest).
    rewrite (@query_answered _ _ _ _ Hq), memory_enabled. cbn [conversation_history].
    unfold remembered. rewrite most_recent_app.
    cbn [map List.combine flat_map]. rewrite <- app_assoc. reflexivity.
Qed.

End History.

(** C8 (amended). With conversation memory enabled, round trips that each
    come back with a generated answer leave the history that appending
    each turn, the user question then the assistant answer, and keeping the
    10 most recent entries leaves: oldest entries go first and the order
    stays.  After one such query that is the old history with the two
    entries of the turn, cut to its last 10; after six such round trips it
    is the ten entries of the last five turns, whatever the history was
    before.  A query that does not come back with a generated answer, one
    that finds no evidence included, leaves the history as it was. *)
Theorem conversation_history_truncation
    (Config : Configuration)
    (bm25_document_score : list (list string) -> list string -> list string -> Q)
    (tie_order : list Q -> nat -> nat -> bool)
    (llm_invoke : list Message -> string) (_format_context : list Scored -> string)
    (system_message : string)
    (use_conversation_history : bool) (search_mode : string)
    (w : World) (question : string) (questions : list string) :
  ENABLE_CONVERSATION_MEMORY Config = true ->
  let run :=
    round_trips Config bm25_document_score tie_order llm_invoke _format_context
      system_message (question :: questions) use_conversation_history search_mode w in
  let turns := List.combine (question :: questions) (map answer_of (fst run)) in
  let history := conversation_history (self (snd run)) in
  let first :=
    query Config bm25_document_score tie_order llm_invoke _format_context system_message
      question use_conversation_history search_mode w in
  (Forall answered (fst run) ->
   List.length turns = S (List.length questions) /\
   history = most_recent 10 (conversation_history (self w) ++ flat_map turn_entries turns) /\
   (questions = [] ->
    history = most_recent 10 (conversation_history (self w) ++
                              [HumanMessage question;
                               AIMessage (answer_of (hd (Raise IndexError) (fst run)))])) /\
   (List.length questions = 5%nat ->
    history = flat_map turn_entries (skipn 1 turns) /\ List.length history = 10%nat)) /\
  (~ answered (fst first) -> self (snd first) = self w).
Proof.
  intros Hmem run turns history first.
  split; [|apply query_unanswered].
  intros Hall.
  pose proof (@round_trips_history Config bm25_document_score tie_order llm_invoke
                _format_context system_message Hmem use_conversation_history search_mode
                questions question w Hall) as Hhist.
  fold run in Hhist. fold turns in Hhist. fold history in Hhist.
  pose proof (round_trips_length Config bm25_document_score tie_order llm_invoke
                _format_context system_message (question :: questions)
                use_conversation_history search_mode w) as Hlen.
  fold run in Hlen.
  assert (Hturns : List.length turns = S (List.length questions)).
  { unfold turns. rewrite length_combine, length_map, Hlen. simpl. lia. }
  split; [exact Hturns|]. split; [exact Hhist|]. split.
  - intros ->. rewrite Hhist. unfold turns.
    destruct (fst run) as [|r [|r' rs]]; simpl in Hlen; try discriminate. reflexivity.
  - intros H5. rewrite Hhist.
    assert (E : flat_map turn_entries turns =
                turn_entries (hd (question, EmptyString) turns) ++
                flat_map turn_entries (skipn 1 turns)).
    { destruct turns; [simpl in Hturns; discriminate | reflexivity]. }
    assert (Hrest : List.length (flat_map turn_entries (skipn 1 turns)) = 10%nat).
    { rewrite turn_entries_length, length_skipn, Hturns, H5. reflexivity. }
    rewrite E, app_assoc, most_recent_suffix by lia.
    rewrite most_recent_all by lia. split; [reflexivity | exact Hrest].
Qed.

Lemma conversation_history_truncation_witness :
  let run :=
    round_trips sample_config overlap_score insertion_ties sample_llm sample_format ""
      six_questions true "vector" (sample_world fusion_store) in
  conversation_history (self (snd run)) =
    flat_map turn_entries
      (skipn 1 (List.combine six_questions (map answer_of (fst run)))) /\
  List.length (conversation_history (self (snd run))) = 10%nat.
Proof.
  intros run.
  destruct (@conversation_history_truncation sample_config overlap_score insertion_ties
              sample_llm sample_format "" true "vector" (sample_world fusion_store)
              "one" ["two"; "three"; "four"; "five"; "six"]%string)
    as [H _].
  - reflexivity.
  - apply H; [|reflexivity].
    vm_compute.
    repeat (constructor; [eexists; split; [reflexivity | discriminate]|]).
    constructor.
Defined.

(** C8, as stated, fails: a query that finds no evidence completes, with
    the stock response, and appends nothing.  Six such round trips with the
    memory on leave the history empty, not at ten entries. *)
Lemma conversation_history_no_results_counterexample :
  let run :=
    round_trips sample_config overlap_score insertion_ties sample_llm sample_format ""
      six_questions true "vector" (sample_world tie_store) in
  ENABLE_CONVERSATION_MEMORY sample_config = true /\
  fst run =
    repeat (Ok {| answer := no_information; citations := []; confidence := 0;
                  retrieved_chunks := [] |}) 6 /\
  conversation_history (self (snd run)) = [].
Proof. vm_compute. repeat split. Qed.

(** * Further properties of the retriever *)

Lemma Permutation_filter {A : Type} (f : A -> bool) (l l' : list A) :
  Permutation l l' -> Permutation (filter f l) (filter f l').
Proof.
  induction 1 as [| x l l' H IH | x y l | l l' l'' H1 IH1 H2 IH2]; simpl.
  - constructor.
  - destruct (f x); [constructor|]; exact IH.
  - destruct (f x); destruct (f y); try reflexivity. apply perm_swap.
  - etransitivity; eauto.
Qed.

Lemma drawn_from_functional (docs : list Document) (scores : list Q) (idxs : list nat)
    (r1 r2 : list Scored) :
  drawn_from docs scores idxs r1 -> drawn_from docs scores idxs r2 -> r1 = r2.
Proof.
  intros H1. revert r2. induction H1 as [|i a idxs r1 [Hd Hs] H1 IH]; intros r2 H2.
  - inversion H2. reflexivity.
  - inversion H2 as [|? b ? r2' [Hd' Hs'] H2']; subst.
    f_equal; [|apply IH; exact H2'].
    destruct a as [da sa], b as [db sb]. simpl in *. congruence.
Qed.

Lemma drawn_from_app_inv (docs : list Document) (scores : list Q) (i1 i2 : list nat)
    (results : list Scored) :
  drawn_from docs scores (i1 ++ i2) results ->
  exists r1 r2, results = r1 ++ r2 /\ drawn_from docs scores i1 r1 /\
                drawn_from docs scores i2 r2.
Proof.
  unfold drawn_from. intros H. apply Forall2_app_inv_l in H.
  destruct H as [r1 [r2 [H1 [H2 E]]]]. exists r1, r2. auto.
Qed.

Lemma firstn_le_app {A : Type} (l : list A) (k k' : nat) :
  (k <= k')%nat -> exists rest, firstn k' l = firstn k l ++ rest.
Proof.
  revert k k'. induction l as [|a l IH]; intros k k' Hle.
  - exists []. destruct k, k'; reflexivity.
  - destruct k as [|k].
    + exists (firstn k' (a :: l)). reflexivity.
    + destruct k' as [|k']; [lia|].
      destruct (IH k k' ltac:(lia)) as [rest E]. exists rest. simpl. rewrite E. reflexivity.
Qed.

Lemma argsort_length (tie_order : list Q -> nat -> nat -> bool) (scores : list Q) :
  List.length (argsort tie_order scores) = List.length scores.
Proof. rewrite (Permutation_length (argsort_perm tie_order scores)). apply length_seq. Qed.

(** X2. With [k] at least the size of the corpus, [bm25_search] returns
    every chunk whose score is above 0, each once, and no other chunk. *)
Theorem bm25_search_all_positive
    (bm25_document_score : list (list string) -> list string -> list string -> Q)
    (tie_order : list Q -> nat -> nat -> bool)
    (vs : VectorStore) (query : string) (k : nat) :
  (List.length (get_all_documents vs) <= k)%nat ->
  let self := HybridRetriever_init vs in
  let scores := corpus_scores bm25_document_score self query in
  exists results idxs,
    bm25_search bm25_document_score tie_order self query k = Ok results /\
    drawn_from (documents self) scores idxs results /\
    Permutation idxs
      (filter (fun i => Qlt_bool 0 (nth i scores 0))
         (seq 0 (List.length (get_all_documents vs)))).
Proof.
  intros Hk self scores.
  destruct (bm25_search_returns bm25_document_score tie_order vs query k)
    as [results [Hres [Hdrawn _]]].
  fold self in Hres, Hdrawn. fold scores in Hdrawn.
  exists results, (kept_indices tie_order scores k).
  split; [exact Hres|]. split; [exact Hdrawn|].
  assert (Hlen : List.length scores = List.length (get_all_documents vs)
                 \/ scores = []).
  { unfold scores, corpus_scores. destruct (bm25 self) eqn:E; [left | right; reflexivity].
    pose proof (@init_scores_length bm25_document_score vs query) as H.
    unfold corpus_scores in H. fold self in H. rewrite E in H.
    rewrite H by congruence. unfold self. rewrite init_documents. reflexivity. }
  unfold kept_indices.
  rewrite firstn_all2.
  - destruct Hlen as [Hlen|Hnil].
    + apply Permutation_filter. rewrite <- Hlen.
      etransitivity; [symmetry; apply Permutation_rev | apply argsort_perm].
    + assert (Hdocs : get_all_documents vs = []).
      { unfold scores, corpus_scores in Hnil. unfold self in Hnil.
        rewrite init_bm25 in Hnil.
        destruct (get_all_documents vs) as [|d ds]; [reflexivity|].
        unfold get_scores in Hnil. simpl in Hnil. discriminate. }
      rewrite Hnil, Hdocs. simpl. constructor.
  - rewrite length_rev, argsort_length.
    destruct Hlen as [Hlen|Hnil]; [lia | rewrite Hnil; simpl; lia].
Qed.

Lemma bm25_search_all_positive_witness :
  exists results idxs,
    bm25_search overlap_score insertion_ties (HybridRetriever_init fusion_store) "gamma" 3 = Ok results /\
    drawn_from (documents (HybridRetriever_init fusion_store))
      (corpus_scores overlap_score (HybridRetriever_init fusion_store) "gamma")
      idxs results /\
    Permutation idxs
      (filter (fun i =>
                 Qlt_bool 0
                   (nth i (corpus_scores overlap_score
                             (HybridRetriever_init fusion_store) "gamma") 0))
         (seq 0 (List.length (get_all_documents fusion_store)))).
Proof.
  apply (@bm25_search_all_positive overlap_score insertion_ties fusion_store "gamma" 3).
  simpl. lia.
Defined.

(** X3. Asking [bm25_search] for more chunks only adds chunks at the end:
    the result for [k] is a prefix of the result for any larger [k']. *)
Theorem bm25_search_prefix
    (bm25_document_score : list (list string) -> list string -> list string -> Q)
    (tie_order : list Q -> nat -> nat -> bool)
    (vs : VectorStore) (query : string) (k k' : nat) :
  (k <= k')%nat ->
  exists results rest,
    bm25_search bm25_document_score tie_order (HybridRetriever_init vs) query k = Ok results /\
    bm25_search bm25_document_score tie_order (HybridRetriever_init vs) query k' =
      Ok (results ++ rest).
Proof.
  intros Hle.
  destruct (bm25_search_returns bm25_document_score tie_order vs query k)
    as [results [Hres [Hdrawn _]]].
  destruct (bm25_search_returns bm25_document_score tie_order vs query k')
    as [results' [Hres' [Hdrawn' _]]].
  cbv zeta in Hdrawn, Hdrawn'.
  set (scores := corpus_scores bm25_document_score (HybridRetriever_init vs) query) in *.
  destruct (firstn_le_app (rev (argsort tie_order scores)) Hle) as [more E].
  unfold kept_indices in Hdrawn'. rewrite E, filter_app in Hdrawn'.
  apply drawn_from_app_inv in Hdrawn'.
  destruct Hdrawn' as [r1 [r2 [-> [H1 _]]]].
  exists r1, r2. rewrite Hres'. split; [|reflexivity].
  rewrite Hres. f_equal. apply (drawn_from_functional Hdrawn H1).
Qed.

Lemma bm25_search_prefix_witness :
  exists results rest,
    bm25_search overlap_score insertion_ties (HybridRetriever_init fusion_store) "x" 1 = Ok results /\
    bm25_search overlap_score insertion_ties (HybridRetriever_init fusion_store) "x" 3 =
      Ok (results ++ rest).
Proof.
  apply (@bm25_search_prefix overlap_score insertion_ties fusion_store "x" 1 3). lia.
Defined.

(** The first index of the reversed [argsort] carries a maximal score. *)
Lemma top_index_maximal (tie_order : list Q -> nat -> nat -> bool) (scores : list Q)
    (s : Q) :
  In s scores ->
  exists i rest,
    rev (argsort tie_order scores) = i :: rest /\ (i < List.length scores)%nat /\
    s <= nth i scores 0.
Proof.
  intros Hin.
  destruct (In_nth scores s 0 Hin) as [j [Hj Hs]].
  pose proof (StronglySorted_rev (argsort_sorted tie_order scores)) as Hsorted.
  assert (Hperm : Permutation (rev (argsort tie_order scores)) (seq 0 (List.length scores))).
  { etransitivity; [symmetry; apply Permutation_rev | apply argsort_perm]. }
  destruct (rev (argsort tie_order scores)) as [|i rest] eqn:E.
  - apply Permutation_nil in Hperm.
    destruct scores; [destruct Hin | discriminate].
  - exists i, rest. split; [reflexivity|].
    assert (Hi : In i (seq 0 (List.length scores))).
    { eapply Permutation_in; [exact Hperm | left; reflexivity]. }
    apply in_seq in Hi. split; [lia|].
    assert (Hjin : In j (i :: rest)).
    { eapply Permutation_in; [symmetry; exact Hperm | apply in_seq; lia]. }
    rewrite <- Hs. destruct Hjin as [->|Hjin]; [apply Qle_refl|].
    inversion Hsorted as [|? ? _ Hf]; subst.
    rewrite Forall_forall in Hf. specialize (Hf j Hjin). cbn beta in Hf.
    exact Hf.
Qed.

(** X4. [_update_bm25_index] keeps the old index when the store has become
    empty, while it empties [documents]; a search on such a retriever raises
    [IndexError] as soon as some old chunk scores above 0. *)
Theorem stale_index_raises
    (bm25_document_score : list (list string) -> list string -> list string -> Q)
    (tie_order : list Q -> nat -> nat -> bool)
    (self : HybridRetriever) (index : list (list string)) (query : string) (k : nat) :
  bm25 self = Some index ->
  get_all_documents (vector_store self) = [] ->
  (0 < k)%nat ->
  (exists s, In s (get_scores bm25_document_score index (split (lower query))) /\ 0 < s) ->
  bm25 (_update_bm25_index self) = Some index /\
  documents (_update_bm25_index self) = [] /\
  bm25_search bm25_document_score tie_order (_update_bm25_index self) query k = Raise IndexError.
Proof.
  intros Hindex Hempty Hk [s [Hin Hpos]].
  unfold _update_bm25_index. rewrite Hempty.
  split; [exact Hindex|]. split; [reflexivity|].
  unfold bm25_search. cbn [bm25 documents]. rewrite Hindex.
  destruct (@top_index_maximal tie_order _ _ Hin) as [i [rest [E [Hi Hle]]]].
  rewrite E. destruct k as [|k]; [lia|]. cbn [firstn bm25_collect].
  unfold py_index at 1.
  rewrite (nth_error_nth' _ 0 Hi). cbn [bind].
  assert (Hb : Qlt_bool 0 (nth i (get_scores bm25_document_score index
                                      (split (lower query))) 0) = true).
  { apply Qlt_bool_iff. lra. }
  rewrite Hb. unfold py_index. destruct i; reflexivity.
Qed.

Lemma stale_index_raises_witness :
  bm25 (_update_bm25_index emptied_retriever) = bm25 (HybridRetriever_init tie_store) /\
  documents (_update_bm25_index emptied_retriever) = [] /\
  bm25_search overlap_score insertion_ties (_update_bm25_index emptied_retriever) "x" 1 = Raise IndexError.
Proof.
  destruct (@stale_index_raises overlap_score insertion_ties emptied_retriever
              [["alpha"; "x"]; ["beta"; "x"]]%string "x" 1) as [H1 [H2 H3]].
  - reflexivity.
  - reflexivity.
  - lia.
  - exists 1. split; [left; reflexivity | reflexivity].
  - split; [exact H1 | split; [exact H2 | exact H3]].
Defined.

(** ** The shape of a fused result, whatever the candidates *)

Lemma keys_dict_set (key : string) (v : Entry) (d : Dict) :
  keys (dict_set key v d) =
  if existsb (String.eqb key) (keys d) then keys d else keys d ++ [key].
Proof.
  unfold keys. induction d as [|[k w] d IH]; simpl; [reflexivity|].
  rewrite (String.eqb_sym key k).
  destruct (String.eqb k key) eqn:E; simpl; [reflexivity|].
  rewrite IH.
  destruct (existsb (String.eqb key) (map fst d)); reflexivity.
Qed.

Lemma dedup_ext (l : list Scored) :
  forall s1 s2, (forall x, In x s1 <-> In x s2) -> dedup s1 l = dedup s2 l.
Proof.
  induction l as [|r l IH]; intros s1 s2 H; simpl; [reflexivity|].
  assert (E : existsb (String.eqb (text r)) s1 = existsb (String.eqb (text r)) s2).
  { apply eq_true_iff_eq. rewrite !existsb_eqb_In. apply H. }
  rewrite E. destruct (existsb (String.eqb (text r)) s2).
  - apply IH. exact H.
  - f_equal. apply IH. intros x. simpl. rewrite (H x). tauto.
Qed.

Lemma dedup_app (V B : list Scored) :
  forall seen,
    dedup seen (V ++ B) = dedup seen V ++ dedup (texts (dedup seen V) ++ seen) B.
Proof.
  induction V as [|r V IH]; intros seen; simpl; [reflexivity|].
  destruct (existsb (String.eqb (text r)) seen).
  - apply IH.
  - simpl. f_equal. rewrite IH. f_equal.
    apply dedup_ext. intros x. simpl. rewrite !in_app_iff. simpl. tauto.
Qed.

Lemma dedup_NoDup (l : list Scored) :
  forall seen,
    NoDup (texts (dedup seen l)) /\
    forall x, In x (texts (dedup seen l)) -> ~ In x seen.
Proof.
  induction l as [|r l IH]; intros seen; simpl.
  - split; [constructor | intros x []].
  - destruct (existsb (String.eqb (text r)) seen) eqn:E; [apply IH|].
    apply existsb_eqb_notin in E.
    destruct (IH (text r :: seen)) as [Hnd Hfresh]. simpl. split.
    + constructor; [|exact Hnd]. intros Hin. apply (Hfresh _ Hin). left. reflexivity.
    + intros x [<-|Hx]; [exact E|]. intros Hin. apply (Hfresh _ Hx). right. exact Hin.
Qed.

Lemma keys_fold_vector (alpha : Q) (V : list Scored) :
  forall d, keys (fold_left (combine_vector alpha) V d) = keys d ++ texts (dedup (keys d) V).
Proof.
  induction V as [|r V IH]; intros d; simpl; [rewrite app_nil_r; reflexivity|].
  rewrite IH. unfold combine_vector. rewrite keys_dict_set. fold (text r).
  destruct (existsb (String.eqb (text r)) (keys d)); [reflexivity|].
  rewrite <- app_assoc. simpl. f_equal. f_equal. f_equal.
  apply dedup_ext. intros x. rewrite in_app_iff. simpl. tauto.
Qed.

Lemma keys_fold_bm25 (alpha : Q) (B : list Scored) :
  forall d, keys (fold_left (combine_bm25 alpha) B d) = keys d ++ texts (dedup (keys d) B).
Proof.
  induction B as [|b B IH]; intros d; simpl; [rewrite app_nil_r; reflexivity|].
  rewrite IH, combine_bm25_step.
  assert (E : dict_mem (text b) d = existsb (String.eqb (text b)) (keys d)).
  { apply eq_true_iff_eq. rewrite dict_mem_In, existsb_eqb_In. tauto. }
  rewrite E. destruct (existsb (String.eqb (text b)) (keys d)) eqn:Em.
  - rewrite keys_add_score. reflexivity.
  - rewrite keys_dict_set, Em. rewrite <- app_assoc. simpl. f_equal. f_equal. f_equal.
    apply dedup_ext. intros x. rewrite in_app_iff. simpl. tauto.
Qed.

(** The keys of [combined_scores] are the texts of the candidates, in the
    order of first encounter. *)
Lemma keys_combine (alpha : Q) (V B : list Scored) :
  keys (combine alpha V B) = texts (candidates V B).
Proof.
  unfold combine, candidates.
  rewrite keys_fold_bm25, keys_fold_vector, dedup_app. simpl.
  unfold texts. rewrite map_app. f_equal. f_equal.
  apply dedup_ext. intros x. rewrite app_nil_r. tauto.
Qed.

Lemma Forall_dict_set (P : string * Entry -> Prop) (key : string) (v : Entry) (d : Dict) :
  Forall P d -> P (key, v) -> Forall P (dict_set key v d).
Proof.
  intros Hd Hv. induction Hd as [|[k w] d Hkw Hd IH]; simpl; [repeat constructor; exact Hv|].
  destruct (String.eqb k key) eqn:E.
  - apply String.eqb_eq in E. subst k. constructor; assumption.
  - constructor; assumption.
Qed.

Lemma Forall_dict_add_score (P : string * Entry -> Prop) (key : string) (delta : Q)
    (d : Dict) :
  (forall k w, P (k, w) -> P (k, {| e_doc := e_doc w; e_score := e_score w + delta |})) ->
  Forall P d -> Forall P (dict_add_score key delta d).
Proof.
  intros Hstep Hd. induction Hd as [|[k w] d Hkw Hd IH]; simpl; [constructor|].
  destruct (String.eqb k key); constructor; auto.
Qed.

Lemma filed_from_combine (alpha : Q) (V B : list Scored) :
  Forall (filed_from (map fst (V ++ B))) (combine alpha V B).
Proof.
  unfold combine.
  assert (HV : forall d W,
             incl W V -> Forall (filed_from (map fst (V ++ B))) d ->
             Forall (filed_from (map fst (V ++ B))) (fold_left (combine_vector alpha) W d)).
  { intros d W. revert d. induction W as [|r W IH]; intros d Hincl Hd; simpl; [exact Hd|].
    apply IH; [intros x Hx; apply Hincl; right; exact Hx|].
    unfold combine_vector. apply Forall_dict_set; [exact Hd|].
    split; [reflexivity|]. simpl. apply in_map, in_or_app. left.
    apply Hincl. left. reflexivity. }
  assert (HB : forall d W,
             incl W B -> Forall (filed_from (map fst (V ++ B))) d ->
             Forall (filed_from (map fst (V ++ B))) (fold_left (combine_bm25 alpha) W d)).
  { intros d W. revert d. induction W as [|r W IH]; intros d Hincl Hd; simpl; [exact Hd|].
    apply IH; [intros x Hx; apply Hincl; right; exact Hx|].
    rewrite combine_bm25_step. destruct (dict_mem (text r) d).
    - apply Forall_dict_add_score; [|exact Hd]. intros k w H. exact H.
    - apply Forall_dict_set; [exact Hd|].
      split; [reflexivity|]. simpl. apply in_map, in_or_app. right.
      apply Hincl. left. reflexivity. }
  apply HB; [apply incl_refl|]. apply HV; [apply incl_refl | constructor].
Qed.

Lemma insert_desc_perm (x : Entry) (l : list Entry) :
  Permutation (insert_desc x l) (x :: l).
Proof.
  induction l as [|y l IH]; simpl; [reflexivity|].
  destruct (Qlt_bool (e_score x) (e_score y)); [|reflexivity].
  rewrite IH. apply perm_swap.
Qed.

Lemma sorted_desc_perm (l : list Entry) : Permutation (sorted_desc l) l.
Proof.
  induction l as [|x l IH]; simpl; [reflexivity|].
  rewrite insert_desc_perm. constructor. exact IH.
Qed.

Lemma insert_desc_descending (x : Entry) (l : list Entry) :
  StronglySorted (fun a b => e_score b <= e_score a) l ->
  StronglySorted (fun a b => e_score b <= e_score a) (insert_desc x l).
Proof.
  induction 1 as [|y l Hs IH Hf]; simpl; [repeat constructor|].
  destruct (Qlt_bool (e_score x) (e_score y)) eqn:E.
  - constructor; [exact IH|].
    apply Qlt_bool_iff in E. rewrite Forall_forall in *. intros z Hz.
    apply (Permutation_in _ (insert_desc_perm x l)) in Hz.
    destruct Hz as [<-|Hz]; [lra | apply Hf, Hz].
  - apply Qlt_bool_false in E.
    constructor; [constructor; assumption|].
    constructor; [exact E|].
    rewrite Forall_forall in *. intros z Hz. specialize (Hf z Hz). cbn beta in Hf. lra.
Qed.

Lemma sorted_desc_descending (l : list Entry) :
  StronglySorted (fun a b => e_score b <= e_score a) (sorted_desc l).
Proof.
  induction l as [|x l IH]; simpl; [constructor | apply insert_desc_descending, IH].
Qed.

Lemma NoDup_firstn {A : Type} (n : nat) (l : list A) : NoDup l -> NoDup (firstn n l).
Proof.
  intros H. revert n. induction H as [|a l Ha H IH]; intros [|n]; simpl; try constructor.
  - intros Hin. apply Ha. eapply In_firstn. exact Hin.
  - apply IH.
Qed.

(** X5. Whatever the candidate lists hold, repeated texts included,
    [hybrid_search] returns as many chunks as there are distinct candidate
    texts, up to [k]; no two returned chunks have the same text; the
    combined scores never increase along the result; and every returned
    chunk is a chunk of one of the two candidate lists. *)
Theorem hybrid_search_result_shape
    (Config : Configuration)
    (bm25_document_score : list (list string) -> list string -> list string -> Q)
    (tie_order : list Q -> nat -> nat -> bool)
    (vs : VectorStore) (query : string) (k : option nat) (alpha : Q) :
  let k' := py_or k (TOP_K_RESULTS Config) in
  let semantic := semantic_list Config vs query k' in
  let lexical := lexical_list bm25_document_score tie_order vs query k' in
  exists results,
    hybrid_search Config bm25_document_score tie_order (HybridRetriever_init vs) query k alpha =
      Ok results /\
    List.length results = Nat.min k' (List.length (candidates semantic lexical)) /\
    NoDup (texts results) /\
    StronglySorted (fun a b : Scored => snd b <= snd a) results /\
    Forall (fun r : Scored => In (fst r) (map fst (semantic ++ lexical))) results.
Proof.
  intros k' semantic lexical.
  eexists. split; [apply hybrid_search_unfold|].
  fold k' semantic lexical.
  set (d := combine alpha semantic lexical).
  pose proof (keys_combine alpha semantic lexical) as Hkeys. fold d in Hkeys.
  pose proof (filed_from_combine alpha semantic lexical) as Hfiled. fold d in Hfiled.
  pose proof (sorted_desc_perm (dict_values d)) as Hperm.
  assert (Htexts : map (fun e => page_content (e_doc e)) (dict_values d) = keys d).
  { unfold dict_values, keys. rewrite map_map. apply map_ext_in.
    intros kv Hkv. rewrite Forall_forall in Hfiled. apply (Hfiled kv Hkv). }
  split; [|split; [|split]].
  - rewrite length_map, length_firstn. f_equal.
    rewrite (Permutation_length Hperm). unfold dict_values. rewrite length_map.
    rewrite <- (length_map fst d). fold (keys d). rewrite Hkeys. unfold texts.
    apply length_map.
  - unfold texts. rewrite map_map. unfold text. cbn [fst].
    rewrite <- firstn_map. apply NoDup_firstn.
    apply (Permutation_NoDup (l := map (fun e => page_content (e_doc e)) (dict_values d))).
    + apply Permutation_map. symmetry. exact Hperm.
    + rewrite Htexts, Hkeys. unfold candidates. apply dedup_NoDup.
  - apply StronglySorted_map. apply StronglySorted_firstn.
    apply sorted_desc_descending.
  - apply Forall_forall. intros r Hr. apply in_map_iff in Hr.
    destruct Hr as [e [<- He]]. cbn [fst].
    apply In_firstn in He. apply (Permutation_in _ Hperm) in He.
    unfold dict_values in He. apply in_map_iff in He. destruct He as [kv [<- Hkv]].
    rewrite Forall_forall in Hfiled. apply (Hfiled kv Hkv).
Qed.

(** ** Normalisation as an operation *)

Lemma normalize_scores_snd (l : list Scored) :
  map snd (normalize_scores l) =
  map (fun s => (s - score_min l) / score_range l) (map snd l).
Proof. rewrite normalize_scores_unfold, !map_map. reflexivity. Qed.

Lemma rescale_fixed (mn rg : Q) (l : list Scored) :
  mn == 0 -> rg == 1 ->
  Forall2 same_scored (map (fun r => (fst r, (snd r - mn) / rg)) l) l.
Proof.
  intros Hmn Hrg. induction l as [|r l IH]; simpl; constructor; [|exact IH].
  split; [reflexivity|]. cbn [snd]. rewrite Hmn, Hrg. field.
Qed.

Lemma normalized_minimum (l : list Scored) :
  l <> [] -> In ((score_min l - score_min l) / score_range l) (map snd (normalize_scores l)).
Proof.
  intros Hne. rewrite normalize_scores_snd.
  apply (in_map (fun s => (s - score_min l) / score_range l)).
  apply (score_min_is_minimum Hne).
Qed.

Lemma normalized_maximum (l : list Scored) :
  l <> [] -> In ((score_max l - score_min l) / score_range l) (map snd (normalize_scores l)).
Proof.
  intros Hne. rewrite normalize_scores_snd.
  apply (in_map (fun s => (s - score_min l) / score_range l)).
  apply (score_max_is_maximum Hne).
Qed.

Lemma normalized_all_unit (l : list Scored) (s : Q) :
  In s (map snd (normalize_scores l)) -> 0 <= s <= 1.
Proof.
  intros H. apply in_map_iff in H. destruct H as [r [<- Hr]].
  apply (normalize_scores_nonneg l r Hr).
Qed.

(** X6. Normalising a normalised list changes no score: the operation is
    idempotent. *)
Theorem normalize_scores_idempotent (results : list Scored) :
  Forall2 same_scored (normalize_scores (normalize_scores results))
    (normalize_scores results).
Proof.
  destruct results as [|r0 rest] eqn:E; [constructor|]. rewrite <- E.
  assert (Hne : results <> []) by (rewrite E; discriminate).
  set (l' := normalize_scores results).
  assert (Hne' : l' <> []).
  { unfold l'. rewrite normalize_scores_unfold, E. discriminate. }
  pose proof (score_range_pos Hne) as Hpos.
  destruct (score_min_is_minimum Hne') as [Hmin_in Hmin_lb].
  destruct (score_max_is_maximum Hne') as [Hmax_in Hmax_ub].
  assert (Hmin0 : score_min l' == 0).
  { apply Qle_antisym.
    - eapply Qle_trans; [apply Hmin_lb, (normalized_minimum Hne)|].
      apply Qle_shift_div_r; [exact Hpos | lra].
    - apply (normalized_all_unit results _ Hmin_in). }
  rewrite (normalize_scores_unfold l').
  apply rescale_fixed; [exact Hmin0|].
  unfold score_range at 1.
  destruct (Qeq_bool (score_max l') (score_min l')) eqn:Eq; cbn [negb]; [reflexivity|].
  apply Qeq_bool_neq in Eq.
  assert (Hdistinct : ~ all_equal (map snd results)).
  { intros Hall. apply Eq.
    destruct (score_range_equal Hall Hne) as [Hr _].
    assert (Hzero : forall s, In s (map snd l') -> s == 0).
    { intros s Hs. unfold l' in Hs. rewrite normalize_scores_snd in Hs.
      apply in_map_iff in Hs. destruct Hs as [x [<- Hx]].
      destruct (score_min_is_minimum Hne) as [Hmn _].
      rewrite (Hall x _ Hx Hmn), Hr. field. }
    rewrite (Hzero _ Hmax_in), (Hzero _ Hmin_in). reflexivity. }
  destruct (score_range_distinct Hdistinct Hne) as [Hr Hlt].
  assert (Hmax1 : score_max l' == 1).
  { apply Qle_antisym.
    - apply (normalized_all_unit results _ Hmax_in).
    - eapply Qle_trans; [|apply Hmax_ub, (normalized_maximum Hne)].
      apply Qle_shift_div_l; [exact Hpos | lra]. }
  rewrite Hmax1, Hmin0. ring.
Qed.

(** ** More on the query orchestrator *)

Lemma calculate_confidence_unit (answer : string) (docs : list Scored)
    (cits : list Citation) :
  0 <= _calculate_confidence answer docs cits <= 1.
Proof.
  destruct (string_dec answer EmptyString) as [He|Hne].
  - rewrite calculate_confidence_refusal by (left; exact He). lra.
  - destruct (startswith (lower answer) "i don't have") eqn:Hpre.
    + rewrite calculate_confidence_refusal by (right; exact Hpre). lra.
    + rewrite (calculate_confidence_weighted docs cits Hne Hpre).
      apply clamp_unit_bounds.
Qed.

Lemma chain_eta (me : RAGChain) :
  {| rag_vector_store := rag_vector_store me; retriever := retriever me;
     conversation_history := conversation_history me |} = me.
Proof. destruct me. reflexivity. Qed.

Lemma remembered_length (history : list Message) (question answer : string) :
  (List.length (remembered history question answer) <= 10)%nat.
Proof. unfold remembered. rewrite most_recent_length. lia. Qed.

Section QueryRuns.

Variable Config : Configuration.
Variable bm25_document_score : list (list string) -> list string -> list string -> Q.
Variable tie_order : list Q -> nat -> nat -> bool.
Variable llm_invoke : list Message -> string.
Variable _format_context : list Scored -> string.
Variable system_message : string.

Local Abbreviation run :=
  (query Config bm25_document_score tie_order llm_invoke _format_context system_message).

(** After a query the stores of the chain are those of before, whatever
    the outcome. *)
Lemma query_same_stores (question search_mode : string) (use : bool) (w : World) :
  rag_vector_store (self (snd (run question use search_mode w))) =
    rag_vector_store (self w) /\
  retriever (self (snd (run question use search_mode w))) = retriever (self w).
Proof.
  rewrite query_unfold.
  destruct (retrieved Config bm25_document_score tie_order (self w) question search_mode)
    as [[|d ds]|e]; [split; reflexivity| |split; reflexivity].
  cbv zeta. destruct (_extract_citations _ (map fst (d :: ds))); split; reflexivity.
Qed.

End QueryRuns.

(** X8. With the conversation memory switched off, no query changes the
    chain, whatever the search mode, the flag or the outcome; and a prompt
    it sends to the model carries no history: the system message and the
    one human message only. *)
Theorem query_without_memory
    (Config : Configuration)
    (bm25_document_score : list (list string) -> list string -> list string -> Q)
    (tie_order : list Q -> nat -> nat -> bool)
    (llm_invoke : list Message -> string) (_format_context : list Scored -> string)
    (system_message : string)
    (question : string) (use_conversation_history : bool) (search_mode : string)
    (w : World) :
  ENABLE_CONVERSATION_MEMORY Config = false ->
  let w' :=
    snd (query Config bm25_document_score tie_order llm_invoke _format_context system_message
           question use_conversation_history search_mode w) in
  self w' = self w /\
  exists later,
    calls w' = calls w ++ retrieval_call question search_mode :: later /\
    Forall (fun c => exists evidence,
              c = CallLlmInvoke
                    (query_prompt _format_context system_message evidence question []))
      later.
Proof.
  intros Hmem w'. subst w'. rewrite query_unfold.
  destruct (retrieved Config bm25_document_score tie_order (self w) question search_mode)
    as [[|d ds]|e].
  - cbn [snd self calls]. split; [reflexivity|]. exists []. split; [reflexivity|constructor].
  - cbv zeta. rewrite Hmem, andb_false_r.
    destruct (_extract_citations _ (map fst (d :: ds))) as [cits|e];
      cbn [snd self calls]; (split; [try apply chain_eta; reflexivity|]);
      eexists; (split; [reflexivity|]);
      (constructor; [|constructor]); exists (d :: ds); reflexivity.
  - cbn [snd self calls]. split; [reflexivity|]. exists []. split; [reflexivity|constructor].
Qed.

Lemma query_without_memory_witness :
  let w' :=
    snd (query memoryless_config overlap_score insertion_ties sample_llm sample_format ""
           "x" true "keyword" (sample_world tie_store)) in
  self w' = self (sample_world tie_store) /\
  exists later,
    calls w' = calls (sample_world tie_store) ++ retrieval_call "x" "keyword" :: later /\
    Forall (fun c => exists evidence,
              c = CallLlmInvoke (query_prompt sample_format "" evidence "x" []))
      later.
Proof.
  apply (@query_without_memory memoryless_config overlap_score insertion_ties sample_llm sample_format
           "" "x" true "keyword" (sample_world tie_store)).
  reflexivity.
Defined.



(** X10. The bound on the history is an invariant of [query]: a history
    of at most 10 entries has at most 10 entries after any query, in any
    search mode and whatever the outcome, and the query leaves the store
    and the retriever of the chain alone. *)
Theorem query_keeps_history_bounded
    (Config : Configuration)
    (bm25_document_score : list (list string) -> list string -> list string -> Q)
    (tie_order : list Q -> nat -> nat -> bool)
    (llm_invoke : list Message -> string) (_format_context : list Scored -> string)
    (system_message : string)
    (question : string) (use_conversation_history : bool) (search_mode : string)
    (w : World) :
  (List.length (conversation_history (self w)) <= 10)%nat ->
  let w' :=
    snd (query Config bm25_document_score tie_order llm_invoke _format_context system_message
           question use_conversation_history search_mode w) in
  (List.length (conversation_history (self w')) <= 10)%nat /\
  rag_vector_store (self w') = rag_vector_store (self w) /\
  retriever (self w') = retriever (self w).
Proof.
  intros Hlen w'. subst w'.
  split; [|apply query_same_stores].
  rewrite query_unfold.
  destruct (retrieved Config bm25_document_score tie_order (self w) question search_mode)
    as [[|d ds]|e]; [exact Hlen| |exact Hlen].
  cbv zeta. destruct (_extract_citations _ (map fst (d :: ds))) as [cits|e];
    cbn [snd self conversation_history]; [|exact Hlen].
  destruct (ENABLE_CONVERSATION_MEMORY Config); [apply remembered_length | exact Hlen].
Qed.

Lemma query_keeps_history_bounded_witness :
  let w' :=
    snd (query sample_config overlap_score insertion_ties sample_llm sample_format ""
           "x" true "keyword" (sample_world tie_store)) in
  (List.length (conversation_history (self w')) <= 10)%nat /\
  rag_vector_store (self w') = rag_vector_store (self (sample_world tie_store)) /\
  retriever (self w') = retriever (self (sample_world tie_store)).
Proof.
  apply (@query_keeps_history_bounded sample_config overlap_score insertion_ties sample_llm
           sample_format "" "x" true "keyword" (sample_world tie_store)).
  simpl. lia.
Defined.

(** X11. [clear_history] forgets: with the memory on, the first query
    after it whose retrieval finds evidence sends a prompt without history,
    whatever the history held before.  When that query comes back with a
    response, the history is then that one turn, the question and its
    answer; when the parsing of the reply raises, which it does with
    [ValueError], the history is empty. *)
Theorem clear_history_forgets
    (Config : Configuration)
    (bm25_document_score : list (list string) -> list string -> list string -> Q)
    (tie_order : list Q -> nat -> nat -> bool)
    (llm_invoke : list Message -> string) (_format_context : list Scored -> string)
    (system_message : string)
    (question : string) (use_conversation_history : bool) (search_mode : string)
    (w : World) (d : Scored) (ds : list Scored) :
  ENABLE_CONVERSATION_MEMORY Config = true ->
  retrieved Config bm25_document_score tie_order (self w) question search_mode =
    Ok (d :: ds) ->
  let prompt := query_prompt _format_context system_message (d :: ds) question [] in
  let run :=
    (clear_history ;;;
     query Config bm25_document_score tie_order llm_invoke _format_context system_message
       question use_conversation_history search_mode) w in
  calls (snd run) = calls w ++ [retrieval_call question search_mode; CallLlmInvoke prompt] /\
  match fst run with
  | Ok response =>
      answer response = llm_invoke prompt /\
      conversation_history (self (snd run)) =
        [HumanMessage question; AIMessage (answer response)]
  | Raise e => e = ValueError /\ conversation_history (self (snd run)) = []
  end.
Proof.
  intros Hmem Hdocs prompt run. subst run.
  set (w0 := {| self := {| rag_vector_store := rag_vector_store (self w);
                           retriever := retriever (self w);
                           conversation_history := [] |};
                calls := calls w |}).
  change ((clear_history ;;;
           query Config bm25_document_score tie_order llm_invoke _format_context
             system_message question use_conversation_history search_mode) w)
    with (query Config bm25_document_score tie_order llm_invoke _format_context
            system_message question use_conversation_history search_mode w0).
  assert (Hdocs0 : retrieved Config bm25_document_score tie_order (self w0) question
                     search_mode = Ok (d :: ds)).
  { rewrite <- Hdocs. apply retrieved_same_stores; reflexivity. }
  assert (Hh0 : conversation_history (self w0) = []) by reflexivity.
  assert (Hc0 : calls w0 = calls w) by reflexivity.
  rewrite query_unfold, Hdocs0. cbv zeta. rewrite Hmem, Hh0, Hc0.
  assert (E : (if use_conversation_history && true then @nil Message else []) = [])
    by (destruct use_conversation_history; reflexivity).
  rewrite E. fold prompt.
  destruct (extract_citations_outcome (llm_invoke prompt) (map fst (d :: ds)))
    as [[cits Hcits]|Hraise].
  - rewrite Hcits. cbn [fst snd calls self conversation_history answer].
    split; [reflexivity|]. split; reflexivity.
  - rewrite Hraise. cbn [fst snd calls self]. split; [reflexivity|].
    split; [reflexivity | exact Hh0].
Qed.

Lemma clear_history_forgets_witness :
  let prompt := query_prompt sample_format "" [(doc_b, 1); (doc_a, 1)] "x" [] in
  let run :=
    (clear_history ;;;
     query sample_config overlap_score insertion_ties sample_llm sample_format ""
       "x" true "keyword")
      {| self := chain_of tie_store [HumanMessage "old"; AIMessage "older"]; calls := [] |} in
  calls (snd run) = [] ++ [retrieval_call "x" "keyword"; CallLlmInvoke prompt] /\
  match fst run with
  | Ok response =>
      answer response = sample_llm prompt /\
      conversation_history (self (snd run)) = [HumanMessage "x"; AIMessage (answer response)]
  | Raise e => e = ValueError /\ conversation_history (self (snd run)) = []
  end.
Proof.
  apply (@clear_history_forgets sample_config overlap_score insertion_ties sample_llm
           sample_format "" "x" true "keyword"
           {| self := chain_of tie_store [HumanMessage "old"; AIMessage "older"];
              calls := [] |} (doc_b, 1) [(doc_a, 1)]).
  - reflexivity.
  - vm_compute. reflexivity.
Defined.

(** X12. Every response of [query] is consistent with itself: its
    citations are the citations of its answer against its own evidence
    chunks, its confidence lies between 0 and 1, and it is without evidence
    only when it is the stock apology. *)
Theorem query_response_consistent
    (Config : Configuration)
    (bm25_document_score : list (list string) -> list string -> list string -> Q)
    (tie_order : list Q -> nat -> nat -> bool)
    (llm_invoke : list Message -> string) (_format_context : list Scored -> string)
    (system_message : string)
    (question : string) (use_conversation_history : bool) (search_mode : string)
    (w w' : World) (response : RAGResponse) :
  query Config bm25_document_score tie_order llm_invoke _format_context system_message
    question use_conversation_history search_mode w = (Ok response, w') ->
  _extract_citations (answer response) (retrieved_chunks response) =
    Ok (citations response) /\
  0 <= confidence response <= 1 /\
  (retrieved_chunks response = [] -> answer response = no_information).
Proof.
  intros Hq. rewrite query_unfold in Hq.
  destruct (retrieved Config bm25_document_score tie_order (self w) question search_mode)
    as [[|d ds]|e]; [| |discriminate Hq].
  - inversion Hq; subst. cbn [answer citations confidence retrieved_chunks].
    split; [vm_compute; reflexivity|]. split; [lra | reflexivity].
  - cbv zeta in Hq.
    destruct (_extract_citations _ (map fst (d :: ds))) as [cits|e] eqn:Hcits;
      [|discriminate Hq].
    inversion Hq; subst. cbn [answer citations confidence retrieved_chunks].
    split; [exact Hcits|]. split; [apply calculate_confidence_unit | discriminate].
Qed.

Lemma query_response_consistent_witness :
  let response :=
    {| answer := "Chunks share x. [Source: c.txt]";
       citations := [ {| source := "c.txt"; page := None; section := None;
                         chunk_text := "" |} ];
       confidence := 0.5 * (2 # 2) + 0.3 * (1 # 3) + 0.2 * (31 # 200);
       retrieved_chunks := [doc_b; doc_a] |} in
  _extract_citations (answer response) (retrieved_chunks response) =
    Ok (citations response) /\
  0 <= confidence response <= 1 /\
  (retrieved_chunks response = [] -> answer response = no_information).
Proof.
  cbv zeta.
  eapply (@query_response_consistent sample_config overlap_score insertion_ties sample_llm sample_format
            "" "x" true "keyword" (sample_world tie_store)).
  vm_compute. reflexivity.
Defined.

(** ** More on the confidence *)

Lemma Q_of_nat_le (n m : nat) : (n <= m)%nat -> Q_of_nat n <= Q_of_nat m.
Proof. intros H. unfold Q_of_nat. rewrite <- Zle_Qle. lia. Qed.

Lemma clamp_unit_le (x y : Q) : x <= y -> clamp_unit x <= clamp_unit y.
Proof.
  intros H. unfold clamp_unit.
  apply Q.min_le_compat_r. apply Q.max_le_compat_r. exact H.
Qed.

(** X13. The confidence of an answer grows with the number of its
    citations and stops growing at three: more citations never lower it,
    and from three citations on any further citation leaves it as it is. *)
Theorem calculate_confidence_citations (answer : string) (retrieved_docs : list Scored)
    (fewer more : list Citation) :
  (List.length fewer <= List.length more)%nat ->
  _calculate_confidence answer retrieved_docs fewer <=
    _calculate_confidence answer retrieved_docs more /\
  ((3 <= List.length fewer)%nat ->
   _calculate_confidence answer retrieved_docs fewer ==
     _calculate_confidence answer retrieved_docs more).
Proof.
  intros Hlen.
  destruct (string_dec answer EmptyString) as [He|Hne].
  { rewrite !calculate_confidence_refusal by (left; exact He).
    split; [lra | intros _; reflexivity]. }
  destruct (startswith (lower answer) "i don't have") eqn:Hpre.
  { rewrite !calculate_confidence_refusal by (right; exact Hpre).
    split; [lra | intros _; reflexivity]. }
  rewrite !(calculate_confidence_weighted retrieved_docs _ Hne Hpre).
  unfold weighted_confidence.
  pose proof (Q_of_nat_le Hlen) as Hq.
  split.
  - apply clamp_unit_le.
    assert (Hmin : Qmin (Q_of_nat (List.length fewer) / 3) 1 <=
                   Qmin (Q_of_nat (List.length more) / 3) 1).
    { apply Q.min_le_compat_r. unfold Qdiv.
      apply Qmult_le_compat_r; [exact Hq | discriminate]. }
    lra.
  - intros H3.
    assert (H3q : 3 <= Q_of_nat (List.length fewer)).
    { change 3 with (Q_of_nat 3). apply Q_of_nat_le. exact H3. }
    assert (Hthird : forall x, 3 <= x -> 1 <= x / 3).
    { intros x Hx. apply Qle_shift_div_l; lra. }
    pose proof (Q.min_r (Q_of_nat (List.length fewer) / 3) 1 (Hthird _ H3q)) as E1.
    assert (H3q' : 3 <= Q_of_nat (List.length more)) by lra.
    pose proof (Q.min_r (Q_of_nat (List.length more) / 3) 1 (Hthird _ H3q')) as E2.
    apply Qle_antisym; apply clamp_unit_le; lra.
Qed.

Lemma calculate_confidence_citations_witness :
  let three := repeat {| source := "a.txt"; page := None; section := None;
                         chunk_text := "" |} 3 in
  let five := repeat {| source := "a.txt"; page := None; section := None;
                        chunk_text := "" |} 5 in
  _calculate_confidence "Yes." [(doc_a, 0.5)] three <=
    _calculate_confidence "Yes." [(doc_a, 0.5)] five /\
  ((3 <= List.length three)%nat ->
   _calculate_confidence "Yes." [(doc_a, 0.5)] three ==
     _calculate_confidence "Yes." [(doc_a, 0.5)] five).
Proof.
  cbv zeta.
  apply (@calculate_confidence_citations "Yes." [(doc_a, 0.5)]).
  simpl. lia.
Defined.

(** ** More on the citations *)

Lemma free_of_drop (c : ascii) (off : nat) :
  forall s, free_of c s = true -> free_of c (drop off s) = true.
Proof.
  unfold free_of. induction off as [|off IH]; intros s H.
  - destruct s; exact H.
  - destruct s as [|x s]; [exact H|]. simpl in H. apply andb_true_iff in H.
    simpl. apply IH. apply H.
Qed.

(** X14. An answer without an opening square bracket has no citations:
    [_extract_citations] returns the empty list for it, whatever the
    evidence. *)
Theorem extract_citations_needs_bracket (answer : string) (retrieved_docs : list Document) :
  free_of "[" answer = true ->
  _extract_citations answer retrieved_docs = Ok [].
Proof.
  intros Hfree. unfold _extract_citations, finditer.
  destruct (finditer_from citation_pattern 0 0 answer) as [|m ms] eqn:E; [reflexivity|].
  exfalso.
  assert (Hin : In m (finditer_from citation_pattern 0 0 answer))
    by (rewrite E; left; reflexivity).
  apply finditer_sound in Hin. destruct Hin as [off [_ [_ Hm]]].
  apply match_at_sound in Hm. destruct Hm as [s' [Hm _]].
  apply citation_pattern_marker in Hm.
  destruct Hm as [mk [name [pg [sec [Hs [Hmk _]]]]]].
  destruct Hmk as [ws [pp [sp [_ [_ [_ [_ [_ ->]]]]]]]].
  pose proof (free_of_drop "[" off answer Hfree) as Hd.
  rewrite Hs in Hd. discriminate Hd.
Qed.

Lemma extract_citations_needs_bracket_witness :
  _extract_citations "Source: a.txt, Page: 3" [doc_a] = Ok [].
Proof.
  apply (@extract_citations_needs_bracket "Source: a.txt, Page: 3" [doc_a]).
  reflexivity.
Defined.

(** ** Comparing documents *)

Lemma insert_by_score_perm (x : Scored) (l : list Scored) :
  Permutation (insert_by_score x l) (x :: l).
Proof.
  induction l as [|y l IH]; simpl; [reflexivity|].
  destruct (Qlt_bool (snd x) (snd y)); [|reflexivity].
  rewrite IH. apply perm_swap.
Qed.

Lemma sort_by_score_perm (l : list Scored) : Permutation (sort_by_score l) l.
Proof.
  induction l as [|x l IH]; simpl; [reflexivity|].
  rewrite insert_by_score_perm. constructor. exact IH.
Qed.

Lemma insert_by_score_descending (x : Scored) (l : list Scored) :
  StronglySorted (fun a b : Scored => snd b <= snd a) l ->
  StronglySorted (fun a b : Scored => snd b <= snd a) (insert_by_score x l).
Proof.
  induction 1 as [|y l Hl IH Hy]; simpl; [repeat constructor|].
  destruct (Qlt_bool (snd x) (snd y)) eqn:E.
  - apply Qlt_bool_iff in E. constructor; [exact IH|].
    apply Forall_forall. intros z Hz.
    apply (Permutation_in _ (insert_by_score_perm x l)) in Hz.
    destruct Hz as [<-|Hz]; [apply Qlt_le_weak; exact E|].
    rewrite Forall_forall in Hy. apply Hy. exact Hz.
  - apply Qlt_bool_false in E. constructor; [constructor; assumption|].
    constructor; [exact E|].
    apply Forall_forall. intros z Hz. rewrite Forall_forall in Hy.
    apply Qle_trans with (snd y); [apply Hy; exact Hz | exact E].
Qed.

Lemma sort_by_score_descending (l : list Scored) :
  StronglySorted (fun a b : Scored => snd b <= snd a) (sort_by_score l).
Proof.
  induction l as [|x l IH]; simpl; [constructor|].
  apply insert_by_score_descending. exact IH.
Qed.

Section CompareRuns.

Variable Config : Configuration.
Variable llm_invoke : list Message -> string.
Variable _format_context : list Scored -> string.
Variable system_message : string.
Variable filtered_relevance_search : VectorStore -> string -> nat -> string -> list Scored.

Lemma compare_retrieve_run (question : string) (doc_ids : list string) :
  forall (all_results : list Scored) (w : World),
    compare_retrieve Config filtered_relevance_search question doc_ids all_results w =
    (Ok (all_results ++
         gathered Config filtered_relevance_search (rag_vector_store (self w)) question
           doc_ids),
     {| self := self w;
        calls := calls w ++ repeat (CallSimilaritySearch question) (List.length doc_ids) |}).
Proof.
  induction doc_ids as [|doc_id rest IH]; intros all_results w.
  - unfold gathered. simpl. unfold ret. rewrite !app_nil_r. destruct w; reflexivity.
  - cbn [compare_retrieve]. unfold mbind at 1. unfold get_self at 1.
    unfold mbind at 1. unfold log_call at 1. rewrite IH. cbn [self calls].
    unfold gathered. cbn [flat_map List.length repeat].
    rewrite <- !app_assoc. reflexivity.
Qed.

(** [compare_documents], in full: the outcome is that of the parsing of
    the reply, the calls are the same either way. *)
Lemma compare_documents_run (question : string) (doc_ids : list string) (w : World) :
  let top :=
    firstn (TOP_K_RESULTS Config * 2)
      (sort_by_score
         (gathered Config filtered_relevance_search (rag_vector_store (self w)) question
            doc_ids)) in
  let prompt :=
    format_messages system_message (_format_context top) (comparison_prompt question) [] in
  compare_documents Config llm_invoke _format_context system_message
    filtered_relevance_search question doc_ids w =
  (match _extract_citations (llm_invoke prompt) (map fst top) with
   | Ok cits =>
       Ok {| answer := llm_invoke prompt; citations := cits;
             confidence := _calculate_confidence (llm_invoke prompt) top cits;
             retrieved_chunks := map fst top |}
   | Raise e => Raise e
   end,
   {| self := self w;
      calls := calls w ++ repeat (CallSimilaritySearch question) (List.length doc_ids) ++
               [CallLlmInvoke prompt] |}).
Proof.
  intros top prompt.
  unfold compare_documents. unfold mbind at 1. rewrite compare_retrieve_run.
  cbn [app]. fold top. fold prompt.
  unfold mbind at 1. unfold log_call at 1. cbn [self calls].
  unfold mbind at 1. unfold lift at 1.
  destruct (_extract_citations (llm_invoke prompt) (map fst top)) as [cits|e];
    unfold ret; rewrite <- app_assoc; reflexivity.
Qed.

End CompareRuns.

(** What a sorted list leaves behind its first [n] entries scores no higher
    than any of these. *)
Lemma sorted_firstn_skipn (n : nat) (l : list Scored) :
  StronglySorted (fun a b : Scored => snd b <= snd a) l ->
  Forall (fun left : Scored => Forall (fun kept : Scored => snd left <= snd kept)
                                   (firstn n l))
    (skipn n l).
Proof.
  revert n. induction l as [|x l IH]; intros n Hs.
  - rewrite skipn_nil. constructor.
  - destruct n as [|n].
    + apply Forall_forall. intros left _. constructor.
    + apply StronglySorted_inv in Hs. destruct Hs as [Hs Hx].
      cbn [firstn skipn]. specialize (IH n Hs).
      rewrite Forall_forall in IH, Hx. apply Forall_forall. intros left Hl.
      constructor; [|apply IH; exact Hl].
      apply Hx. rewrite <- (firstn_skipn n l). apply in_or_app. right. exact Hl.
Qed.


(** X16. The evidence of [compare_documents] is the best of what the
    filtered searches found: at most twice [TOP_K_RESULTS] chunks, all of
    those found when they are fewer, in order of non-increasing relevance
    score, and no chunk that is left out scores higher than one that is
    kept; each comes from the search of one of the given ids and has a
    score of at least the similarity threshold.  This evidence is what the
    prompt to the model carries and, when the call returns a response, what
    the response lists. *)
Theorem compare_documents_evidence
    (Config : Configuration)
    (llm_invoke : list Message -> string) (_format_context : list Scored -> string)
    (system_message : string)
    (filtered_relevance_search : VectorStore -> string -> nat -> string -> list Scored)
    (question : string) (doc_ids : list string) (w : World) :
  let found :=
    gathered Config filtered_relevance_search (rag_vector_store (self w)) question doc_ids in
  exists r w' evidence rest,
    compare_documents Config llm_invoke _format_context system_message
      filtered_relevance_search question doc_ids w = (r, w') /\
    calls w' =
      calls w ++ repeat (CallSimilaritySearch question) (List.length doc_ids) ++
      [CallLlmInvoke (format_messages system_message (_format_context evidence)
                        (comparison_prompt question) [])] /\
    (forall response, r = Ok response -> retrieved_chunks response = map fst evidence) /\
    Permutation (evidence ++ rest) found /\
    Forall (fun left : Scored =>
              Forall (fun kept : Scored => snd left <= snd kept) evidence) rest /\
    List.length evidence = Nat.min (TOP_K_RESULTS Config * 2) (List.length found) /\
    StronglySorted (fun a b : Scored => snd b <= snd a) evidence /\
    Forall (fun r : Scored =>
              SIMILARITY_THRESHOLD Config <= snd r /\
              exists doc_id,
                In doc_id doc_ids /\
                In r (filtered_relevance_search (rag_vector_store (self w)) question
                        (TOP_K_RESULTS Config) doc_id))
      evidence.
Proof.
  intros found.
  pose proof (@compare_documents_run Config llm_invoke _format_context system_message
                filtered_relevance_search question doc_ids w) as Hrun.
  cbv zeta in Hrun. fold found in Hrun.
  eexists. eexists. exists (firstn (TOP_K_RESULTS Config * 2) (sort_by_score found)).
  exists (skipn (TOP_K_RESULTS Config * 2) (sort_by_score found)).
  split; [exact Hrun|]. cbn [calls].
  split; [reflexivity|].
  split.
  { intros response E.
    destruct (_extract_citations _ _) as [cits|e]; [|discriminate E].
    inversion E; subst. reflexivity. }
  split; [rewrite firstn_skipn; apply sort_by_score_perm|].
  split; [apply sorted_firstn_skipn, sort_by_score_descending|].
  split; [rewrite length_firstn, (Permutation_length (sort_by_score_perm found));
          reflexivity|].
  split; [apply StronglySorted_firstn, sort_by_score_descending|].
  apply Forall_forall. intros r Hr. apply In_firstn in Hr.
  apply (Permutation_in _ (sort_by_score_perm found)) in Hr.
  unfold found, gathered in Hr. apply in_flat_map in Hr.
  destruct Hr as [doc_id [Hid Hr]].
  unfold similarity_search_filter in Hr. apply filter_In in Hr.
  destruct Hr as [Hr Hs]. apply Qle_bool_iff in Hs.
  split; [exact Hs|]. exists doc_id. split; [exact Hid|].
  unfold py_or in Hr. exact Hr.
Qed.

(** ** The evaluator *)

Lemma Q_of_nat_nonneg (n : nat) : 0 <= Q_of_nat n.
Proof. change 0 with (Q_of_nat 0). apply Q_of_nat_le. lia. Qed.

Lemma Q_of_nat_pos (n : nat) : (0 < n)%nat -> 0 < Q_of_nat n.
Proof.
  intros H. unfold Q_of_nat. change 0 with (inject_Z 0). rewrite <- Zlt_Qlt. lia.
Qed.

(** A count out of a positive total is a fraction. *)
Lemma fraction_unit (n m : nat) :
  (n <= m)%nat -> (0 < m)%nat -> 0 <= Q_of_nat n / Q_of_nat m <= 1.
Proof.
  intros Hle Hpos.
  pose proof (Q_of_nat_pos Hpos) as Hm. pose proof (Q_of_nat_nonneg n) as Hn.
  pose proof (Q_of_nat_le Hle) as Hnm.
  split.
  - apply Qle_shift_div_l; [exact Hm | lra].
  - apply Qle_shift_div_r; [exact Hm | lra].
Qed.

Lemma fraction_one (n m : nat) :
  (n <= m)%nat -> (0 < m)%nat -> (Q_of_nat n / Q_of_nat m == 1 <-> n = m).
Proof.
  intros Hle Hpos. pose proof (Q_of_nat_pos Hpos) as Hm.
  split.
  - intros H.
    assert (E : Q_of_nat n == Q_of_nat m).
    { assert (E' : Q_of_nat n == Q_of_nat n / Q_of_nat m * Q_of_nat m) by (field; lra).
      rewrite E', H. ring. }
    unfold Q_of_nat, Qeq in E. cbn [inject_Z Qnum Qden] in E. lia.
  - intros ->. field. lra.
Qed.

Lemma graded_score_unit (llm : string -> result string) (py_float : string -> result Q)
    (prompt : string) (score : Q) :
  graded_score llm py_float prompt = Ok score -> 0 <= score <= 1.
Proof.
  unfold graded_score, bind. intros H.
  destruct (llm prompt) as [response|]; [|discriminate].
  destruct (py_float (strip response)) as [x|]; [|discriminate].
  inversion H; subst. unfold py_max2, py_min2.
  destruct (Qlt_bool x 1) eqn:E1.
  - apply Qlt_bool_iff in E1. destruct (Qlt_bool 0 x) eqn:E0.
    + apply Qlt_bool_iff in E0. lra.
    + lra.
  - destruct (Qlt_bool 0 1) eqn:E0; lra.
Qed.

Lemma clamp_python (x : Q) : py_max2 0 (py_min2 1 x) == clamp_unit x.
Proof.
  unfold clamp_unit, py_max2, py_min2.
  destruct (Q.max_spec x 0) as [[Hx Ex]|[Hx Ex]];
  destruct (Q.min_spec (Qmax x 0) 1) as [[Hc Ec]|[Hc Ec]];
  destruct (Qlt_bool x 1) eqn:E1;
  try (apply Qlt_bool_iff in E1); try (apply Qlt_bool_false in E1);
  try (destruct (Qlt_bool 0 x) eqn:E0;
       try (apply Qlt_bool_iff in E0); try (apply Qlt_bool_false in E0));
  try (change (Qlt_bool 0 1) with true; cbv iota);
  lra.
Qed.

(** X17. The relevance grade is always a number between 0 and 1 and the
    grading never fails: a reply of the model that reads as a number counts
    as that number cut to [0,1], and when the call fails or the reply is
    not a number the grade is 0.5. *)
Theorem evaluate_answer_relevance_graded
    (llm : string -> result string) (py_float : string -> result Q)
    (question answer : string) :
  let score := evaluate_answer_relevance llm py_float question answer in
  let reply := llm (relevance_prompt question answer) in
  0 <= score <= 1 /\
  (forall response x,
     reply = Ok response -> py_float (strip response) = Ok x -> score == clamp_unit x) /\
  (forall e, reply = Raise e -> score = 0.5) /\
  (forall response e,
     reply = Ok response -> py_float (strip response) = Raise e -> score = 0.5).
Proof.
  intros score reply. subst score reply. unfold evaluate_answer_relevance.
  split; [|split; [|split]].
  - destruct (graded_score llm py_float (relevance_prompt question answer)) as [s|] eqn:E.
    + apply (graded_score_unit _ _ _ E).
    + lra.
  - intros response x Hr Hx. unfold graded_score, bind. rewrite Hr, Hx.
    apply clamp_python.
  - intros e Hr. unfold graded_score, bind. rewrite Hr. reflexivity.
  - intros response e Hr Hx. unfold graded_score, bind. rewrite Hr, Hx. reflexivity.
Qed.

(** X18. The faithfulness grade is always a number between 0 and 1, and
    it is judged against the first three evidence chunks only: chunks from
    the fourth on play no part in it. *)
Theorem evaluate_faithfulness_first_three
    (llm : string -> result string) (py_float : string -> result Q)
    (answer : string) (retrieved_chunks more : list Document) :
  let score := evaluate_faithfulness llm py_float answer retrieved_chunks in
  0 <= score <= 1 /\
  ((3 <= List.length retrieved_chunks)%nat ->
   evaluate_faithfulness llm py_float answer (retrieved_chunks ++ more) = score).
Proof.
  intros score. subst score. unfold evaluate_faithfulness. split.
  - destruct (graded_score llm py_float _) as [s|] eqn:E.
    + apply (graded_score_unit _ _ _ E).
    + lra.
  - intros H. rewrite firstn_app.
    replace (3 - List.length retrieved_chunks)%nat with 0%nat by lia.
    simpl firstn at 2. rewrite app_nil_r. reflexivity.
Qed.

Lemma valid_citations_filter (cits : list Citation) (chunks : list Document) :
  valid_citations cits chunks =
  List.length (filter (fun c => existsb (cites (source c) (page c)) chunks) cits).
Proof.
  induction cits as [|c cits IH]; simpl; [reflexivity|].
  rewrite IH. destruct (existsb (cites (source c) (page c)) chunks); reflexivity.
Qed.

Lemma filter_all_length {A : Type} (f : A -> bool) (l : list A) :
  List.length (filter f l) = List.length l <-> Forall (fun x => f x = true) l.
Proof.
  induction l as [|x l IH]; simpl.
  - split; [constructor | reflexivity].
  - pose proof (filter_length_le f l) as Hle.
    destruct (f x) eqn:E; simpl.
    + split.
      * intros H. constructor; [exact E | apply IH; lia].
      * intros H. inversion H; subst. f_equal. apply IH. assumption.
    + split; [lia|]. intros H. inversion H; subst. congruence.
Qed.

(** X19. The citation accuracy is a fraction between 0 and 1.  Without
    citations it is 0 for an answer of more than 20 words and 0.5
    otherwise; with citations it is 1 exactly when every citation names
    the file, and the page if it gives one, of some evidence chunk. *)
Theorem evaluate_citation_accuracy_fraction (answer : string) (citations : list Citation)
    (retrieved_chunks : list Document) :
  let accuracy := evaluate_citation_accuracy answer citations retrieved_chunks in
  0 <= accuracy <= 1 /\
  (citations = [] ->
   accuracy = if (20 <? List.length (split answer))%nat then 0 else 0.5) /\
  (citations <> [] ->
   (accuracy == 1 <->
    Forall (fun c => exists doc,
              In doc retrieved_chunks /\ cites (source c) (page c) doc = true)
      citations)).
Proof.
  intros accuracy. subst accuracy.
  destruct citations as [|c cits].
  - simpl. split; [|split; [reflexivity | congruence]].
    destruct (20 <? List.length (split answer))%nat; lra.
  - unfold evaluate_citation_accuracy. rewrite valid_citations_filter.
    set (cs := c :: cits).
    pose proof (filter_length_le
                  (fun c => existsb (cites (source c) (page c)) retrieved_chunks) cs) as Hle.
    assert (Hpos : (0 < List.length cs)%nat) by (simpl; lia).
    split; [apply fraction_unit; assumption|].
    split; [discriminate|]. intros _.
    rewrite (fraction_one Hle Hpos), filter_all_length.
    split; intros H; eapply Forall_impl; try exact H; cbv beta; intros a Ha.
    + apply existsb_exists in Ha. exact Ha.
    + apply existsb_exists. exact Ha.
Qed.

Lemma extract_citations_excerpts (answer : string) (docs : list Document)
    (cits : list Citation) :
  _extract_citations answer docs = Ok cits ->
  Forall (fun c => chunk_text c = excerpt docs (source c) (page c)) cits.
Proof.
  unfold _extract_citations, finditer. intros H.
  set (ms := finditer_from citation_pattern 0 0 answer) in *.
  assert (Hms : Forall (fun m => match_at citation_pattern (m_start m)
                                   (drop (m_start m) answer) = Some m) ms).
  { apply Forall_forall. intros m Hm. apply finditer_sound in Hm.
    destruct Hm as [off [_ [Hs Hm]]]. simpl in Hs, Hm. rewrite Hs. exact Hm. }
  assert (Hfit : Forall (fun m => (page_digits m <= int_max_str_digits)%nat) ms).
  { clear - Hms H. revert cits H.
    induction Hms as [|m ms Hm _ IH]; intros cits H; [constructor|].
    cbn [citations_loop] in H.
    destruct (le_lt_dec (page_digits m) int_max_str_digits) as [Hfit|Hlong].
    - constructor; [exact Hfit|].
      destruct (citation_of_match docs m); [|discriminate H]. cbn [bind] in H.
      destruct (citations_loop docs ms) as [rest|]; [|discriminate H].
      apply (IH rest). reflexivity.
    - rewrite (proj2 (@citation_of_match_reports answer docs m Hm) Hlong) in H.
      discriminate H. }
  destruct (@citations_loop_reports answer docs ms Hms Hfit) as [cits' [Hcits Hreports]].
  rewrite Hcits in H. inversion H; subst cits'.
  clear - Hreports. induction Hreports as [|m c ms cits Hr _ IH]; constructor.
  - destruct Hr as [t [name [pg [sec [rest [_ [_ [_ [_ [_ [_ Hc]]]]]]]]]]]. exact Hc.
  - exact IH.
Qed.

Lemma excerpt_empty (docs : list Document) (source : string) (page : option Z) :
  String.eqb (excerpt docs source page) EmptyString =
  negb (existsb (cites source page) docs).
Proof.
  unfold excerpt. induction docs as [|doc docs IH]; cbn [find existsb]; [reflexivity|].
  destruct (cites source page doc); cbn [orb negb]; [|exact IH].
  generalize (take 200 (page_content doc)). intros t. destruct t; reflexivity.
Qed.

(** X20. Read together with [_extract_citations], the accuracy counts the
    excerpts: for the citations extracted from an answer against the
    evidence, the citation accuracy against that evidence is the share of
    citations that came with an excerpt. *)
Theorem citation_accuracy_counts_excerpts (answer : string) (retrieved_docs : list Document)
    (cits : list Citation) :
  _extract_citations answer retrieved_docs = Ok cits ->
  cits <> [] ->
  evaluate_citation_accuracy answer cits retrieved_docs ==
  Q_of_nat (List.length (filter has_excerpt cits)) / Q_of_nat (List.length cits).
Proof.
  intros Hex Hne. apply extract_citations_excerpts in Hex.
  destruct cits as [|c cits]; [congruence|].
  unfold evaluate_citation_accuracy. rewrite valid_citations_filter.
  set (cs := c :: cits) in *.
  replace (filter (fun c => existsb (cites (source c) (page c)) retrieved_docs) cs)
    with (filter has_excerpt cs); [reflexivity|].
  apply filter_ext_in. intros a Ha. rewrite Forall_forall in Hex.
  unfold has_excerpt. rewrite (Hex a Ha), excerpt_empty, negb_involutive. reflexivity.
Qed.

Lemma citation_accuracy_counts_excerpts_witness :
  evaluate_citation_accuracy "See [Source: a.txt] and [Source: z.txt, Page: 2]."
    [ {| source := "a.txt"; page := None; section := None; chunk_text := "alpha x..." |};
      {| source := "z.txt"; page := Some 2%Z; section := None; chunk_text := "" |} ]
    [doc_a; doc_b] ==
  Q_of_nat
    (List.length
       (filter has_excerpt
          [ {| source := "a.txt"; page := None; section := None;
               chunk_text := "alpha x..." |};
            {| source := "z.txt"; page := Some 2%Z; section := None; chunk_text := "" |} ])) /
  Q_of_nat 2.
Proof.
  apply (@citation_accuracy_counts_excerpts
           "See [Source: a.txt] and [Source: z.txt, Page: 2]." [doc_a; doc_b]).
  - vm_compute. reflexivity.
  - discriminate.
Defined.

Lemma count_relevant_filter (llm : string -> result string) (question : string)
    (chunks : list Document) :
  count_relevant llm question chunks =
  List.length (filter (judged_relevant llm question) chunks).
Proof.
  induction chunks as [|doc chunks IH]; simpl; [reflexivity|].
  rewrite IH. destruct (judged_relevant llm question doc); reflexivity.
Qed.

(** X21. The retrieval precision is a fraction between 0 and 1 of the
    first [k] evidence chunks: it is 0 when there is none to judge, and 1
    exactly when the model answers yes for each of them; a chunk for which
    the call fails counts as not relevant, so it never makes the
    evaluation fail. *)
Theorem evaluate_retrieval_precision_fraction
    (llm : string -> result string) (question : string)
    (retrieved_chunks : list Document) (k : nat) :
  let precision := evaluate_retrieval_precision llm question retrieved_chunks k in
  let judged := firstn k retrieved_chunks in
  0 <= precision <= 1 /\
  (judged = [] -> precision = 0) /\
  (judged <> [] ->
   (precision == 1 <->
    Forall (fun doc => exists response,
              llm (precision_prompt question doc) = Ok response /\
              lower (strip response) = "yes"%string) judged)).
Proof.
  intros precision judged. subst precision judged. unfold evaluate_retrieval_precision.
  destruct retrieved_chunks as [|doc0 rest] eqn:Echunks.
  { rewrite firstn_nil. split; [lra|]. split; [reflexivity|congruence]. }
  rewrite <- Echunks. cbv zeta. rewrite count_relevant_filter.
  remember (firstn k retrieved_chunks) as judged eqn:Ej0. clear.
  destruct judged as [|doc docs] eqn:Ej.
  { split; [lra|]. split; [reflexivity|congruence]. }
  rewrite <- Ej.
  pose proof (filter_length_le (judged_relevant llm question) judged) as Hle.
  assert (Hpos : (0 < List.length judged)%nat) by (rewrite Ej; simpl; lia).
  split; [apply fraction_unit; assumption|].
  split; [rewrite Ej; discriminate|]. intros _.
  rewrite (fraction_one Hle Hpos), filter_all_length.
  split; intros H; eapply Forall_impl; try exact H; cbv beta; intros a Ha.
  - unfold judged_relevant in Ha.
    destruct (llm (precision_prompt question a)) as [response|]; [|discriminate].
    exists response. split; [reflexivity|]. apply String.eqb_eq. exact Ha.
  - destruct Ha as [response [Hr Hyes]]. unfold judged_relevant.
    rewrite Hr. apply String.eqb_eq. exact Hyes.
Qed.

Lemma evaluate_answer_relevance_bounds
    (llm : string -> result string) (py_float : string -> result Q)
    (question answer : string) :
  0 <= evaluate_answer_relevance llm py_float question answer <= 1.
Proof.
  unfold evaluate_answer_relevance.
  destruct (graded_score llm py_float _) as [s|] eqn:E.
  - apply (graded_score_unit _ _ _ E).
  - lra.
Qed.

Lemma evaluate_faithfulness_bounds
    (llm : string -> result string) (py_float : string -> result Q)
    (answer : string) (chunks : list Document) :
  0 <= evaluate_faithfulness llm py_float answer chunks <= 1.
Proof.
  unfold evaluate_faithfulness.
  destruct (graded_score llm py_float _) as [s|] eqn:E.
  - apply (graded_score_unit _ _ _ E).
  - lra.
Qed.

Lemma evaluate_citation_accuracy_bounds (answer : string) (cits : list Citation)
    (chunks : list Document) :
  0 <= evaluate_citation_accuracy answer cits chunks <= 1.
Proof.
  destruct cits as [|c cits].
  - simpl. destruct (20 <? List.length (split answer))%nat; lra.
  - unfold evaluate_citation_accuracy. rewrite valid_citations_filter.
    apply fraction_unit; [apply filter_length_le | simpl; lia].
Qed.

Lemma evaluate_retrieval_precision_bounds (llm : string -> result string)
    (question : string) (chunks : list Document) (k : nat) :
  0 <= evaluate_retrieval_precision llm question chunks k <= 1.
Proof.
  unfold evaluate_retrieval_precision.
  destruct chunks as [|doc0 rest]; [lra|].
  cbv zeta. rewrite count_relevant_filter.
  destruct (firstn k (doc0 :: rest)) as [|doc docs]; [lra|].
  apply fraction_unit; [apply filter_length_le | simpl; lia].
Qed.

Section EvaluatorRuns.

Variable llm : string -> result string.
Variable py_float : string -> result Q.
Variable now : string.

Lemma evaluate_response_graded (question : string) (response : RAGResponse)
    (response_time : Q) (history : list Evaluation) :
  graded {| ev_question := question; ev_answer := answer response;
            ev_metrics := fst (evaluate_response llm py_float now question response
                                 response_time history) |}.
Proof.
  unfold graded, evaluate_response.
  cbn [fst ev_metrics answer_relevance citation_accuracy faithfulness retrieval_precision].
  split; [apply evaluate_answer_relevance_bounds|].
  split; [apply evaluate_citation_accuracy_bounds|].
  split; [apply evaluate_faithfulness_bounds|].
  apply evaluate_retrieval_precision_bounds.
Qed.

End EvaluatorRuns.

(** X22. [evaluate_response] appends exactly one entry to the evaluation
    history, the question and the answer with the metrics it returns, and
    keeps the earlier entries; the four quality metrics of the new entry
    lie between 0 and 1, so a history whose entries are all so graded stays
    one. *)
Theorem evaluate_response_records
    (llm : string -> result string) (py_float : string -> result Q) (now : string)
    (question : string) (response : RAGResponse) (seconds : Q)
    (history : list Evaluation) :
  let run := evaluate_response llm py_float now question response seconds history in
  let entry := {| ev_question := question; ev_answer := answer response;
                  ev_metrics := fst run |} in
  snd run = history ++ [entry] /\
  response_time (fst run) = seconds /\
  graded entry /\
  (Forall graded history -> Forall graded (snd run)).
Proof.
  intros run entry.
  assert (Hg : graded entry) by apply evaluate_response_graded.
  split; [reflexivity|]. split; [reflexivity|]. split; [exact Hg|].
  intros H. change (snd run) with (history ++ [entry]).
  apply Forall_app. split; [exact H | constructor; [exact Hg | constructor]].
Qed.

Lemma Q_of_nat_succ (n : nat) : Q_of_nat (S n) == Q_of_nat n + 1.
Proof.
  unfold Q_of_nat. rewrite Nat2Z.inj_succ. unfold Z.succ.
  rewrite inject_Z_plus. reflexivity.
Qed.

Lemma sum_unit (l : list Q) :
  Forall (fun x => 0 <= x <= 1) l ->
  0 <= fold_right Qplus 0 l <= Q_of_nat (List.length l).
Proof.
  induction 1 as [|x l Hx _ IH]; cbn [fold_right List.length].
  - change (Q_of_nat 0) with 0. lra.
  - rewrite Q_of_nat_succ. lra.
Qed.

Lemma average_unit (l : list Q) :
  l <> [] -> Forall (fun x => 0 <= x <= 1) l ->
  0 <= py_sum l / Q_of_nat (List.length l) <= 1.
Proof.
  intros Hne H. pose proof (sum_unit H) as Hs.
  rewrite <- py_sum_fold_right in Hs.
  assert (Hpos : 0 < Q_of_nat (List.length l)).
  { apply Q_of_nat_pos. destruct l; [congruence | simpl; lia]. }
  split.
  - apply Qle_shift_div_l; [exact Hpos | lra].
  - apply Qle_shift_div_r; [exact Hpos | lra].
Qed.

Lemma graded_metric (key : string) (e : Evaluation) :
  In key quality_keys -> graded e -> 0 <= metric key (ev_metrics e) <= 1.
Proof.
  intros Hkey [H1 [H2 [H3 H4]]].
  destruct Hkey as [<-|[<-|[<-|[<-|[]]]]]; assumption.
Qed.

(** X23. [get_average_metrics] of a non-empty history returns the five
    averages [avg_answer_relevance], [avg_citation_accuracy],
    [avg_faithfulness], [avg_retrieval_precision] and [avg_response_time],
    in this order; when the quality metrics of every entry lie between 0
    and 1, as those [evaluate_response] records do, so do their four
    averages. *)
Theorem get_average_metrics_bounded (evaluation_history : list Evaluation) :
  evaluation_history <> [] ->
  Forall graded evaluation_history ->
  map fst (get_average_metrics evaluation_history) =
    ["avg_answer_relevance"; "avg_citation_accuracy"; "avg_faithfulness";
     "avg_retrieval_precision"; "avg_response_time"]%string /\
  forall key avg,
    In key quality_keys ->
    In (("avg_" ++ key)%string, avg) (get_average_metrics evaluation_history) ->
    0 <= avg <= 1.
Proof.
  intros Hne Hg.
  destruct evaluation_history as [|e0 es]; [congruence|].
  unfold get_average_metrics.
  split; [reflexivity|].
  intros key avg Hkey Hin. apply in_map_iff in Hin.
  destruct Hin as [key' [Heq _]]. cbv zeta in Heq.
  injection Heq as Hk Havg. subst key'. rewrite <- Havg.
  apply average_unit.
  - discriminate.
  - change (Forall (fun x => 0 <= x <= 1)
              (map (fun eval => metric key (ev_metrics eval)) (e0 :: es))).
    apply Forall_map. eapply Forall_impl; [|exact Hg].
    intros e He. apply graded_metric; assumption.
Qed.

Lemma get_average_metrics_bounded_witness :
  let history :=
    snd (evaluate_response grader_llm sample_float "2024-01-01T00:00:00" "x"
           {| answer := "Chunks share x. [Source: c.txt]"; citations := [];
              confidence := 0.5; retrieved_chunks := [doc_a] |} 2 []) in
  map fst (get_average_metrics history) =
    ["avg_answer_relevance"; "avg_citation_accuracy"; "avg_faithfulness";
     "avg_retrieval_precision"; "avg_response_time"]%string /\
  forall key avg,
    In key quality_keys ->
    In (("avg_" ++ key)%string, avg) (get_average_metrics history) ->
    0 <= avg <= 1.
Proof.
  cbv zeta. apply get_average_metrics_bounded.
  - discriminate.
  - constructor; [|constructor]. vm_compute. repeat split; discriminate.
Defined.

(** ** Generated test questions *)

Lemma all_chars_lstrip (p : ascii -> bool) (s : string) :
  all_chars p s = true -> all_chars p (lstrip s) = true.
Proof.
  induction s as [|c s IH]; simpl; [trivial|].
  intros H. destruct (is_space c); [|exact H].
  apply andb_true_iff in H. apply IH, H.
Qed.

Lemma all_chars_rstrip (p : ascii -> bool) (s : string) :
  all_chars p s = true -> all_chars p (rstrip s) = true.
Proof.
  induction s as [|c s IH]; simpl; [trivial|].
  intros H. apply andb_true_iff in H. destruct H as [Hc Hs]. specialize (IH Hs).
  destruct (rstrip s) as [|c' r].
  - destruct (is_space c); simpl; [reflexivity | rewrite Hc; reflexivity].
  - simpl. simpl in IH. rewrite Hc, IH. reflexivity.
Qed.

Lemma all_chars_strip (p : ascii -> bool) (s : string) :
  all_chars p s = true -> all_chars p (strip s) = true.
Proof. intros H. unfold strip. apply all_chars_rstrip, all_chars_lstrip, H. Qed.

Lemma rstrip_idempotent (s : string) : rstrip (rstrip s) = rstrip s.
Proof.
  induction s as [|c s IH]; simpl; [reflexivity|].
  destruct (rstrip s) as [|c' r] eqn:E.
  - destruct (is_space c) eqn:Ec; simpl; [reflexivity | rewrite Ec; reflexivity].
  - change (rstrip (String c (String c' r))) with
      (match rstrip (String c' r) with
       | EmptyString => if is_space c then EmptyString else String c EmptyString
       | r' => String c r'
       end).
    rewrite IH. reflexivity.
Qed.

Lemma lstrip_rstrip_lstrip (s : string) : lstrip (rstrip (lstrip s)) = rstrip (lstrip s).
Proof.
  induction s as [|c s IH]; [reflexivity|].
  cbn [lstrip]. destruct (is_space c) eqn:Ec; [exact IH|].
  cbn [rstrip]. destruct (rstrip s) as [|c' r].
  - rewrite Ec. cbn [lstrip]. rewrite Ec. reflexivity.
  - cbn [lstrip]. rewrite Ec. reflexivity.
Qed.

Lemma strip_idempotent (s : string) : strip (strip s) = strip s.
Proof. unfold strip. rewrite lstrip_rstrip_lstrip. apply rstrip_idempotent. Qed.

Lemma split_on_free (sep : ascii) (s : string) :
  Forall (fun piece => free_of sep piece = true) (split_on sep s).
Proof.
  induction s as [|c s IH]; cbn [split_on]; [repeat constructor|].
  destruct (Ascii.eqb c sep) eqn:Ec; [constructor; [reflexivity | exact IH]|].
  destruct (split_on sep s) as [|piece pieces]; [repeat constructor|].
  - unfold free_of. simpl. rewrite Ec. reflexivity.
  - inversion IH; subst. constructor; [|assumption].
    unfold free_of in *. simpl. rewrite Ec. assumption.
Qed.

(** X24. The questions [generate_questions_from_document] returns are
    clean: when the model replies, there are at most [num_questions] of
    them, and each is a non-empty line of the reply without the white
    space around it, so none is blank, padded or spans two lines. *)
Theorem generate_questions_clean
    (llm : string -> result string) (document_text : string) (num_questions : nat)
    (reply : string) :
  llm (questions_prompt document_text num_questions) = Ok reply ->
  exists questions,
    generate_questions_from_document llm document_text num_questions = Ok questions /\
    (List.length questions <= num_questions)%nat /\
    Forall (fun q => q <> EmptyString /\ strip q = q /\
                     free_of newline_char q = true /\
                     exists line, In line (split_on newline_char reply) /\ q = strip line)
      questions.
Proof.
  intros Hreply. unfold generate_questions_from_document, bind. rewrite Hreply.
  eexists. split; [reflexivity|]. split; [rewrite length_firstn; lia|].
  apply Forall_forall. intros q Hq. apply In_firstn in Hq.
  apply in_map_iff in Hq. destruct Hq as [line [<- Hline]].
  apply filter_In in Hline. destruct Hline as [Hin Hnb].
  apply negb_true_iff, String.eqb_neq in Hnb.
  split; [exact Hnb|]. split; [apply strip_idempotent|]. split.
  - apply all_chars_strip.
    pose proof (split_on_free newline_char reply) as Hfree.
    rewrite Forall_forall in Hfree. apply (Hfree line Hin).
  - exists line. split; [exact Hin | reflexivity].
Qed.

Lemma generate_questions_clean_witness :
  exists questions,
    generate_questions_from_document question_llm "text" 2 = Ok questions /\
    (List.length questions <= 2)%nat /\
    Forall (fun q => q <> EmptyString /\ strip q = q /\
                     free_of newline_char q = true /\
                     exists line,
                       In line
                         (split_on newline_char
                            ("What is x?" ++ newline ++ newline ++ "  Why x? " ++
                             newline ++ "How?")) /\
                       q = strip line)
      questions.
Proof.
  apply (@generate_questions_clean question_llm "text" 2).
  reflexivity.
Defined.

(** ** The document processor *)

Lemma truthy_iff (s : string) : truthy s = true <-> s <> EmptyString.
Proof. unfold truthy. rewrite negb_true_iff. apply String.eqb_neq. Qed.

Lemma lstrip_empty (s : string) :
  lstrip s = EmptyString <-> all_chars is_space s = true.
Proof.
  induction s as [|c s IH]; simpl; [tauto|].
  destruct (is_space c); simpl; [exact IH|]. split; discriminate.
Qed.

Lemma rstrip_empty (s : string) :
  rstrip s = EmptyString <-> all_chars is_space s = true.
Proof.
  induction s as [|c s IH]; simpl; [tauto|].
  destruct (rstrip s) as [|c' r].
  - destruct (is_space c); simpl.
    + split; [intros _; apply IH; reflexivity | reflexivity].
    + split; discriminate.
  - split; [discriminate|]. intros H. apply andb_true_iff in H.
    destruct H as [_ H]. apply IH in H. discriminate.
Qed.

Lemma lstrip_head (s : string) :
  match lstrip s with
  | EmptyString => True
  | String c _ => is_space c = false
  end.
Proof.
  induction s as [|c s IH]; simpl; [exact I|].
  destruct (is_space c) eqn:E; [exact IH | exact E].
Qed.

Lemma strip_empty (s : string) :
  strip s = EmptyString <-> all_chars is_space s = true.
Proof.
  unfold strip. rewrite rstrip_empty. split; intros H.
  - apply lstrip_empty. pose proof (lstrip_head s) as Hh.
    destruct (lstrip s) as [|c r]; [reflexivity|].
    simpl in H. rewrite Hh in H. discriminate.
  - apply lstrip_empty in H. rewrite H. reflexivity.
Qed.

(** The lines of a text, each with its line end, make the text and a
    final line end. *)
Lemma lines_join (s : string) :
  fold_right (fun line acc => (line ++ newline ++ acc)%string) EmptyString
    (split_on newline_char s) = (s ++ newline)%string.
Proof.
  induction s as [|c s IH]; [reflexivity|].
  cbn [split_on]. destruct (Ascii.eqb c newline_char) eqn:Ec.
  - apply Ascii.eqb_eq in Ec. subst c. cbn [fold_right]. rewrite IH. reflexivity.
  - destruct (split_on newline_char s) as [|piece pieces].
    + simpl in IH. destruct s; discriminate.
    + cbn [fold_right] in *. cbn [append]. rewrite IH. reflexivity.
Qed.

Section ProcessorFacts.

Variable is_header : string -> bool.
Variable split_text : string -> list string.

Lemma sections_step_eq (sections : list SectionDict) (current : SectionDict)
    (line : string) :
  sections_step is_header (sections, current) line =
  if is_header (strip line)
  then ((if truthy (strip (content current)) then sections ++ [current] else sections),
        {| title := strip line; content := EmptyString |})
  else (sections,
        {| title := title current;
           content := (content current ++ line ++ newline)%string |}).
Proof. reflexivity. Qed.

(** What the loop of [extract_sections] keeps: collected sections have
    content, and every title is the first one or a header line met. *)
Lemma sections_loop (all : list string) (lines : list string) :
  forall (sections : list SectionDict) (current : SectionDict),
    incl lines all ->
    Forall (proper_section is_header all) sections ->
    titled is_header all current ->
    Forall (proper_section is_header all)
      (fst (fold_left (sections_step is_header) lines (sections, current))) /\
    titled is_header all
      (snd (fold_left (sections_step is_header) lines (sections, current))).
Proof.
  induction lines as [|line lines IH]; intros sections current Hincl Hs Hc.
  - simpl. split; assumption.
  - cbn [fold_left]. rewrite sections_step_eq.
    assert (Hin : In line all) by (apply Hincl; left; reflexivity).
    assert (Hincl' : incl lines all) by (intros x Hx; apply Hincl; right; exact Hx).
    destruct (is_header (strip line)) eqn:Eh.
    + apply IH; [exact Hincl' | | right; exists line; auto].
      destruct (truthy (strip (content current))) eqn:Et; [|exact Hs].
      apply Forall_app. split; [exact Hs|]. constructor; [|constructor].
      split; [apply truthy_iff; exact Et | exact Hc].
    + apply IH; [exact Hincl' | exact Hs | exact Hc].
Qed.

Lemma sections_loop_plain (lines : list string) :
  forall (sections : list SectionDict) (current : SectionDict),
    Forall (fun line => is_header (strip line) = false) lines ->
    fold_left (sections_step is_header) lines (sections, current) =
    (sections,
     {| title := title current;
        content := (content current ++
                    fold_right (fun line acc => line ++ newline ++ acc) EmptyString lines)%string |}).
Proof.
  induction lines as [|line lines IH]; intros sections current H.
  - simpl. rewrite append_nil_r. destruct current; reflexivity.
  - inversion H as [|? ? Hl Hrest]; subst. cbn [fold_left]. rewrite sections_step_eq.
    rewrite Hl, (IH _ _ Hrest). cbn [title content fold_right].
    rewrite !append_assoc. reflexivity.
Qed.

End ProcessorFacts.

(** X25. [extract_sections] never returns an empty list.  Either it
    returns the single section [Document] holding the whole text as it is,
    blank or not; or every section it returns has content that is not
    blank, and its title is [Introduction] or a header line of the text
    without the white space around it.  So a header with nothing but blank
    lines under it is dropped, unless no section has content, when the
    [Document] section stands for the whole text. *)
Theorem extract_sections_sound (is_header : string -> bool) (text : string) :
  let sections := extract_sections is_header text in
  sections <> [] /\
  (sections = [ {| title := "Document"; content := text |} ] \/
   Forall (fun s =>
             strip (content s) <> EmptyString /\
             (title s = "Introduction"%string \/
              exists line,
                In line (split_on newline_char text) /\
                is_header (strip line) = true /\ title s = strip line))
     sections).
Proof.
  intros sections. subst sections. unfold extract_sections.
  pose proof (@sections_loop is_header (split_on newline_char text)
                (split_on newline_char text) []
                {| title := "Introduction"; content := EmptyString |}
                (incl_refl _) (Forall_nil _) (or_introl eq_refl)) as [Hs Hc].
  destruct (fold_left (sections_step is_header) (split_on newline_char text)
              ([], {| title := "Introduction"; content := EmptyString |}))
    as [sections current].
  cbn [fst snd] in Hs, Hc.
  set (final := if truthy (strip (content current))
                then sections ++ [current] else sections).
  assert (Hfinal : Forall (proper_section is_header (split_on newline_char text)) final).
  { unfold final. destruct (truthy (strip (content current))) eqn:Et; [|exact Hs].
    apply Forall_app. split; [exact Hs|]. constructor; [|constructor].
    split; [apply truthy_iff; exact Et | exact Hc]. }
  destruct final as [|s rest].
  - split; [discriminate | left; reflexivity].
  - split; [discriminate | right; exact Hfinal].
Qed.

(** X26. A text without header lines comes back whole: if it is not
    blank, [extract_sections] returns the one section [Introduction] whose
    content is the text with a line end added; if it is blank, the one
    section [Document] holding the text as it is. *)
Theorem extract_sections_plain_text (is_header : string -> bool) (text : string) :
  Forall (fun line => is_header (strip line) = false) (split_on newline_char text) ->
  extract_sections is_header text =
  if all_chars is_space text
  then [ {| title := "Document"; content := text |} ]
  else [ {| title := "Introduction"; content := (text ++ newline)%string |} ].
Proof.
  intros H. unfold extract_sections.
  rewrite (@sections_loop_plain is_header _ _ _ H). cbn [title content append].
  rewrite lines_join.
  assert (E : all_chars is_space (text ++ newline) = all_chars is_space text).
  { rewrite all_chars_append. simpl. apply andb_true_r. }
  destruct (all_chars is_space text) eqn:Es.
  - apply strip_empty in E. rewrite E. reflexivity.
  - assert (Hne : strip (text ++ newline) <> EmptyString).
    { intros Hc. apply strip_empty in Hc. congruence. }
    apply truthy_iff in Hne. rewrite Hne. reflexivity.
Qed.

Lemma extract_sections_plain_text_witness :
  extract_sections hash_header ("alpha" ++ newline ++ "beta") =
  if all_chars is_space ("alpha" ++ newline ++ "beta")
  then [ {| title := "Document"; content := ("alpha" ++ newline ++ "beta")%string |} ]
  else [ {| title := "Introduction";
            content := (("alpha" ++ newline ++ "beta") ++ newline)%string |} ].
Proof.
  apply (@extract_sections_plain_text hash_header ("alpha" ++ newline ++ "beta")).
  repeat constructor.
Defined.

Lemma create_semantic_chunks_file (is_header : string -> bool)
    (split_text : string -> list string) (text : string) (metadata : FileMetadata) :
  Forall (fun c => chunk_file c = metadata)
    (create_semantic_chunks is_header split_text text metadata).
Proof.
  unfold create_semantic_chunks. apply Forall_forall. intros c Hc.
  apply in_flat_map in Hc. destruct Hc as [s [_ Hc]].
  unfold section_chunks in Hc. apply in_map_iff in Hc.
  destruct Hc as [ic [<- _]]. reflexivity.
Qed.

Lemma uncited_pages (source : string) (p : Z) (docs : list Document) :
  Forall (fun d => meta_page (metadata d) = None) docs ->
  existsb (cites source (Some p)) docs = false.
Proof.
  induction 1 as [|d docs Hd _ IH]; [reflexivity|].
  cbn [existsb]. rewrite IH. unfold cites. rewrite Hd. cbn [option_eqb].
  rewrite andb_false_r. reflexivity.
Qed.

(** X27. The chunks of a text file carry the file's name and the first 16
    characters of its digest as document id, and no page.  So as evidence
    they never back a citation that gives a page: such a citation gets an
    empty excerpt from [_extract_citations]'s lookup and is not counted as
    valid by [evaluate_citation_accuracy]. *)
Theorem text_file_chunks_have_no_page
    (is_header : string -> bool) (split_text : string -> list string)
    (name path digest text : string) :
  let evidence :=
    map as_document (process_text_file is_header split_text name path digest text) in
  Forall (fun d => meta_filename (metadata d) = Some name /\
                   meta_page (metadata d) = None /\
                   meta_doc_id (metadata d) = Some (take 16 digest)) evidence /\
  forall (c : Citation) (p : Z),
    page c = Some p ->
    find_chunk_text (source c) (page c) evidence = EmptyString /\
    valid_citations [c] evidence = 0%nat.
Proof.
  intros evidence.
  assert (Hmeta : Forall (fun d => meta_filename (metadata d) = Some name /\
                   meta_page (metadata d) = None /\
                   meta_doc_id (metadata d) = Some (take 16 digest)) evidence).
  { unfold evidence, process_text_file. apply Forall_map.
    eapply Forall_impl; [|apply create_semantic_chunks_file].
    intros c Hc. unfold as_document. cbn [metadata meta_filename meta_page meta_doc_id].
    rewrite Hc. repeat split. }
  split; [exact Hmeta|].
  intros c p Hp. rewrite Hp.
  assert (Hnone : existsb (cites (source c) (Some p)) evidence = false).
  { apply uncited_pages. eapply Forall_impl; [|exact Hmeta]. intros d Hd. apply Hd. }
  split.
  - rewrite find_chunk_text_excerpt.
    pose proof (excerpt_empty evidence (source c) (Some p)) as E.
    rewrite Hnone in E. apply String.eqb_eq in E. exact E.
  - cbn [valid_citations]. rewrite Hp, Hnone. reflexivity.
Qed.

(** ** Reading a PDF *)

Lemma read_pages_all (texts : list (option string)) (total : nat) :
  forall (page_num : nat) (pages_content : list PageContent),
    read_pages (map Ok texts) page_num total pages_content =
    (None, pages_content ++ pages_with_text texts page_num total).
Proof.
  induction texts as [|text texts IH]; intros page_num pages_content.
  - simpl. rewrite app_nil_r. reflexivity.
  - cbn [map read_pages pages_with_text]. rewrite IH.
    destruct (has_text text); [rewrite <- app_assoc|]; reflexivity.
Qed.

Lemma read_pages_failing (texts : list (option string)) (e : exn)
    (rest : list (result (option string))) (total : nat) :
  forall (page_num : nat) (pages_content : list PageContent),
    read_pages (map Ok texts ++ Raise e :: rest) page_num total pages_content =
    (Some e, pages_content ++ pages_with_text texts page_num total).
Proof.
  induction texts as [|text texts IH]; intros page_num pages_content.
  - simpl. rewrite app_nil_r. reflexivity.
  - cbn [map app read_pages pages_with_text]. rewrite IH.
    destruct (has_text text); [rewrite <- app_assoc|]; reflexivity.
Qed.

Lemma pages_with_text_spec (texts : list (option string)) (total : nat) :
  forall (page_num : nat),
    Forall (fun pc =>
              pg_total_pages pc = total /\
              (page_num <= pg_page pc < page_num + List.length texts)%nat /\
              nth_error texts (pg_page pc - page_num) = Some (Some (pg_text pc)) /\
              strip (pg_text pc) <> EmptyString)
      (pages_with_text texts page_num total).
Proof.
  induction texts as [|text texts IH]; intros page_num; [constructor|].
  cbn [pages_with_text]. apply Forall_app. split.
  - destruct (has_text text) eqn:E; [|constructor].
    constructor; [|constructor]. cbn [pg_total_pages pg_page pg_text List.length].
    destruct text as [t|]; [|discriminate]. simpl in E. apply andb_true_iff in E.
    destruct E as [_ E]. apply truthy_iff in E.
    rewrite Nat.sub_diag. repeat split; try lia. exact E.
  - eapply Forall_impl; [|apply (IH (S page_num))].
    intros pc [Ht [Hp [Hn Hs]]]. cbn [List.length].
    split; [exact Ht|]. split; [lia|]. split; [|exact Hs].
    replace (pg_page pc - page_num)%nat with (S (pg_page pc - S page_num)) by lia.
    exact Hn.
Qed.

Lemma pages_with_text_count (texts : list (option string)) (total : nat) :
  forall (page_num i : nat) (text : option string),
    nth_error texts i = Some text ->
    count_occ Nat.eq_dec (map pg_page (pages_with_text texts page_num total))
      (page_num + i)%nat = if has_text text then 1%nat else 0%nat.
Proof.
  induction texts as [|t texts IH]; intros page_num i text Hi;
    [destruct i; discriminate|].
  cbn [pages_with_text]. rewrite map_app, count_occ_app.
  assert (Hlater : forall j, (page_num < j)%nat ->
            count_occ Nat.eq_dec
              (map pg_page (if has_text t
                            then [ {| pg_text := match t with
                                                 | Some t0 => t0
                                                 | None => EmptyString
                                                 end;
                                      pg_page := page_num; pg_total_pages := total |} ]
                            else [])) j = 0%nat).
  { intros j Hj. destruct (has_text t); [|reflexivity].
    cbn [map pg_page count_occ]. destruct (Nat.eq_dec page_num j); [lia | reflexivity]. }
  destruct i as [|i].
  - simpl in Hi. inversion Hi; subst t. rewrite Nat.add_0_r.
    assert (Hrest : count_occ Nat.eq_dec
                      (map pg_page (pages_with_text texts (S page_num) total)) page_num =
                    0%nat).
    { apply count_occ_not_In. intros Hin. apply in_map_iff in Hin.
      destruct Hin as [pc [Hpc Hin]].
      pose proof (pages_with_text_spec texts total (S page_num)) as Hspec.
      rewrite Forall_forall in Hspec. destruct (Hspec pc Hin) as [_ [Hp _]]. lia. }
    rewrite Hrest, Nat.add_0_r. destruct (has_text text); [|reflexivity].
    cbn [map pg_page count_occ]. destruct (Nat.eq_dec page_num page_num); [reflexivity|lia].
  - simpl in Hi. rewrite (Hlater (page_num + S i)%nat) by lia.
    replace (page_num + S i)%nat with (S page_num + i)%nat by lia.
    apply IH. exact Hi.
Qed.

(** X28. Every chunk [process_pdf] cuts from a PDF that [pdfplumber]
    reads carries the number of the page it was cut from, counted from 1
    over all pages of the file, blank ones included, and the number of
    pages of the file; pages without text give no chunk. *)
Theorem process_pdf_page_numbers
    (is_header : string -> bool) (split_text : string -> list string)
    (name path digest : string) (texts : list (option string)) (pypdf2 : PdfView) :
  exists chunks,
    process_pdf is_header split_text name path digest (Ok (map Ok texts)) pypdf2 =
      Ok chunks /\
    Forall (fun c => exists p text,
              fm_page (chunk_file c) = Some (Z.of_nat p) /\
              fm_total_pages (chunk_file c) = Some (Z.of_nat (List.length texts)) /\
              (1 <= p <= List.length texts)%nat /\
              nth_error texts (p - 1) = Some (Some text) /\
              strip text <> EmptyString /\
              In c (create_semantic_chunks is_header split_text text (chunk_file c)))
      chunks.
Proof.
  unfold process_pdf, extract_text_from_pdf, read_pdf.
  rewrite read_pages_all, length_map. cbn [app bind].
  eexists. split; [reflexivity|].
  apply Forall_forall. intros c Hc. apply in_flat_map in Hc.
  destruct Hc as [pc [Hpc Hc]].
  pose proof (pages_with_text_spec texts (List.length texts) 1) as Hspec.
  rewrite Forall_forall in Hspec. destruct (Hspec pc Hpc) as [Ht [Hp [Hn Hs]]].
  pose proof (create_semantic_chunks_file is_header split_text (pg_text pc)
                {| fm_filename := name; fm_source := path;
                   fm_page := Some (Z.of_nat (pg_page pc));
                   fm_total_pages := Some (Z.of_nat (pg_total_pages pc));
                   fm_doc_id := take 16 digest |}) as Hfile.
  rewrite Forall_forall in Hfile. specialize (Hfile c Hc).
  exists (pg_page pc), (pg_text pc). rewrite Hfile.
  cbn [fm_page fm_total_pages]. rewrite Ht.
  split; [reflexivity|]. split; [reflexivity|]. split; [lia|].
  split; [exact Hn|]. split; [exact Hs|]. rewrite Ht in Hc. exact Hc.
Qed.

(** X29. When [pdfplumber] fails part way through a file, the pages it
    had read stay in the result and [PyPDF2] then adds all it reads: the
    result is the pages from before the failure followed by the pages of
    the second reading, so a page that both readings find text on is
    there twice. *)
Theorem pdf_fallback_repeats_pages
    (read : list (option string)) (e : exn) (rest : list (result (option string)))
    (texts : list (option string)) :
  let pdfplumber := Ok (map Ok read ++ Raise e :: rest) in
  let pypdf2 := Ok (map Ok texts) in
  exists pages,
    extract_text_from_pdf pdfplumber pypdf2 = Ok pages /\
    pages = pages_with_text read 1 (List.length read + S (List.length rest)) ++
            pages_with_text texts 1 (List.length texts) /\
    forall i first second,
      nth_error read i = Some first -> has_text first = true ->
      nth_error texts i = Some second -> has_text second = true ->
      count_occ Nat.eq_dec (map pg_page pages) (S i) = 2%nat.
Proof.
  intros pdfplumber pypdf2. subst pdfplumber pypdf2.
  unfold extract_text_from_pdf, read_pdf.
  rewrite read_pages_failing, read_pages_all.
  rewrite length_app, !length_map. cbn [app List.length].
  eexists. split; [reflexivity|]. split; [reflexivity|].
  intros i first second H1 Hf H2 Hs.
  rewrite map_app, count_occ_app.
  change (S i) with (1 + i)%nat.
  rewrite (pages_with_text_count read _ 1 i H1), (pages_with_text_count texts _ 1 i H2).
  rewrite Hf, Hs. reflexivity.
Qed.

(** ** Listing the documents *)

Lemma info_update_keys (doc_id : string) (f : DocInfo -> DocInfo) (m : DocMap) :
  map fst (info_update doc_id f m) = map fst m.
Proof.
  induction m as [|[k v] m IH]; simpl; [reflexivity|].
  destruct (String.eqb k doc_id); simpl; [reflexivity | rewrite IH; reflexivity].
Qed.

Lemma info_get_update (doc_id key : string) (f : DocInfo -> DocInfo) (m : DocMap) :
  info_get key (info_update doc_id f m) =
  if String.eqb doc_id key then option_map f (info_get key m) else info_get key m.
Proof.
  induction m as [|[k v] m IH]; simpl; [destruct (String.eqb doc_id key); reflexivity|].
  destruct (String.eqb k doc_id) eqn:Ek; simpl.
  - apply String.eqb_eq in Ek. subst k.
    destruct (String.eqb doc_id key); reflexivity.
  - destruct (String.eqb k key) eqn:Ekk.
    + apply String.eqb_eq in Ekk. subst k. rewrite String.eqb_sym, Ek. reflexivity.
    + exact IH.
Qed.

Lemma info_mem_get (key : string) (m : DocMap) :
  info_mem key m = match info_get key m with Some _ => true | None => false end.
Proof.
  induction m as [|[k v] m IH]; simpl; [reflexivity|].
  destruct (String.eqb k key); [reflexivity | exact IH].
Qed.

Lemma info_get_none (key : string) (m : DocMap) :
  info_get key m = None -> ~ In key (map fst m).
Proof.
  induction m as [|[k v] m IH]; simpl; [tauto|].
  destruct (String.eqb k key) eqn:E; [discriminate|].
  apply String.eqb_neq in E. intros H [Hk|Hin]; [congruence | exact (IH H Hin)].
Qed.

Lemma info_get_app (key doc_id : string) (v : DocInfo) (m : DocMap) :
  info_get key (m ++ [(doc_id, v)]) =
  match info_get key m with
  | Some x => Some x
  | None => if String.eqb doc_id key then Some v else None
  end.
Proof.
  induction m as [|[k w] m IH]; simpl; [reflexivity|].
  destruct (String.eqb k key); [reflexivity | exact IH].
Qed.

Lemma info_get_In (key : string) (info : DocInfo) (m : DocMap) :
  NoDup (map fst m) -> In (key, info) m -> info_get key m = Some info.
Proof.
  induction m as [|[k v] m IH]; simpl; intros Hnd Hin; [destruct Hin|].
  inversion Hnd as [|? ? Hk Hm]; subst.
  destruct Hin as [Heq|Hin].
  - inversion Heq; subst. rewrite String.eqb_refl. reflexivity.
  - destruct (String.eqb k key) eqn:E.
    + apply String.eqb_eq in E. subst k. exfalso. apply Hk.
      apply in_map_iff. exists (key, info). split; [reflexivity | exact Hin].
    + apply IH; assumption.
Qed.

Lemma listed_chunks_update (doc_id : string) (f : DocInfo -> DocInfo) (m : DocMap)
    (v : DocInfo) :
  info_get doc_id m = Some v ->
  (listed_chunks (info_update doc_id f m) + info_chunks v =
   listed_chunks m + info_chunks (f v))%nat.
Proof.
  unfold listed_chunks. induction m as [|[k w] m IH]; simpl; [discriminate|].
  destruct (String.eqb k doc_id); simpl.
  - intros H. inversion H; subst. lia.
  - intros H. specialize (IH H). lia.
Qed.

Lemma listed_chunks_app (m : DocMap) (kv : string * DocInfo) :
  listed_chunks (m ++ [kv]) = (listed_chunks m + info_chunks (snd kv))%nat.
Proof.
  unfold listed_chunks. rewrite map_app, list_sum_app. simpl. lia.
Qed.

Lemma chunks_of_app (doc_id : string) (a b : list Document) :
  chunks_of doc_id (a ++ b) = chunks_of doc_id a ++ chunks_of doc_id b.
Proof. unfold chunks_of. apply filter_app. Qed.

(** One turn of the grouping loop keeps the grouping. *)
Lemma list_documents_step_groups (processed : list Document) (m : DocMap) (doc : Document) :
  groups processed m -> groups (processed ++ [doc]) (list_documents_step m doc).
Proof.
  intros [Hnd [Hsum Hget]].
  set (k := doc_id_or_unknown doc).
  set (fresh := {| info_filename := filename_or_unknown doc; info_chunks := 0;
                   info_pages := [] |}).
  set (m1 := if negb (info_mem k m) then m ++ [(k, fresh)] else m).
  set (inc := fun info => {| info_filename := info_filename info;
                             info_chunks := info_chunks info + 1;
                             info_pages := info_pages info |}).
  set (m2 := info_update k inc m1).
  assert (Hm1 : NoDup (map fst m1) /\ listed_chunks m1 = List.length processed /\
                exists v, info_get k m1 = Some v /\
                  info_chunks v = List.length (chunks_of k processed) /\
                  (forall first, hd_error (chunks_of k processed ++ [doc]) = Some first ->
                     info_filename v = filename_or_unknown first) /\
                forall key, String.eqb k key = false -> info_get key m1 = info_get key m).
  { unfold m1. rewrite info_mem_get. specialize (Hget k) as Hk.
    destruct (info_get k m) as [v|] eqn:Ev; cbn [negb].
    - split; [exact Hnd|]. split; [exact Hsum|]. exists v.
      destruct Hk as [Hc [first [Hf Hn]]].
      split; [exact Ev|]. split; [exact Hc|]. split; [|reflexivity].
      intros first' Hf'. destruct (chunks_of k processed); [discriminate|].
      simpl in Hf, Hf'. congruence.
    - split.
      { rewrite map_app. simpl. apply NoDup_app_remove_l with (l := []).
        simpl. apply Permutation_NoDup with (l := k :: map fst m).
        - apply Permutation_cons_append.
        - constructor; [apply info_get_none; exact Ev | exact Hnd]. }
      split; [rewrite listed_chunks_app; simpl; lia|].
      exists fresh. rewrite info_get_app, Ev, String.eqb_refl.
      split; [reflexivity|]. rewrite Hk. split; [reflexivity|]. split.
      + simpl. intros first Hf. inversion Hf; subst. reflexivity.
      + intros key Hkey. rewrite info_get_app, Hkey.
        destruct (info_get key m); reflexivity. }
  destruct Hm1 as [Hnd1 [Hsum1 [v [Hv [Hvc [Hvf Hother]]]]]].
  assert (Hm2 : groups (processed ++ [doc]) m2).
  { unfold groups, m2. rewrite info_update_keys.
    split; [exact Hnd1|]. split.
    - pose proof (listed_chunks_update k inc m1 Hv) as Hl.
      rewrite length_app. simpl in *. lia.
    - intros key. rewrite info_get_update, chunks_of_app.
      destruct (String.eqb k key) eqn:Ek.
      + apply String.eqb_eq in Ek. subst key. rewrite Hv. cbn [option_map inc].
        unfold chunks_of at 2 4. cbn [filter]. fold k. rewrite String.eqb_refl.
        unfold inc. cbn [info_chunks info_filename].
        rewrite length_app, Hvc. split; [reflexivity|].
        destruct (chunks_of k processed ++ [doc]) as [|first rest] eqn:E.
        * destruct (chunks_of k processed); discriminate.
        * exists first. split; [reflexivity|]. apply Hvf. reflexivity.
      + rewrite (Hother key Ek). unfold chunks_of at 2 4 6. cbn [filter]. fold k.
        rewrite Ek, app_nil_r. apply Hget. }
  unfold list_documents_step. fold k. fold fresh. fold m1. fold inc. fold m2.
  destruct (meta_page (metadata doc)) as [p|]; [|exact Hm2].
  destruct Hm2 as [Hnd2 [Hsum2 Hget2]].
  set (add := fun info => {| info_filename := info_filename info;
                             info_chunks := info_chunks info;
                             info_pages := pages_add p (info_pages info) |}).
  unfold groups. rewrite info_update_keys. split; [exact Hnd2|]. split.
  - specialize (Hget2 k) as Hk2.
    destruct (info_get k m2) as [v2|] eqn:Ev2.
    + pose proof (listed_chunks_update k add m2 Ev2) as Hl. simpl in Hl. lia.
    + exfalso. unfold m2 in Ev2. rewrite info_get_update, String.eqb_refl, Hv in Ev2.
      discriminate.
  - intros key. rewrite info_get_update. specialize (Hget2 key).
    destruct (String.eqb k key); [|exact Hget2].
    destruct (info_get key m2); [exact Hget2 | exact Hget2].
Qed.

Lemma list_documents_loop (rest : list Document) :
  forall (processed : list Document) (m : DocMap),
    groups processed m ->
    groups (processed ++ rest) (fold_left list_documents_step rest m).
Proof.
  induction rest as [|doc rest IH]; intros processed m H.
  - rewrite app_nil_r. exact H.
  - cbn [fold_left].
    replace (processed ++ doc :: rest) with ((processed ++ [doc]) ++ rest)
      by (rewrite <- app_assoc; reflexivity).
    apply IH. apply list_documents_step_groups. exact H.
Qed.

(** X30. [list_documents] lists every indexed chunk exactly once: the
    document ids it lists are distinct, each chunk is counted under its
    document id, or under [unknown] if it has none, the count of an id is
    the number of chunks with that id and the file name shown is that of
    its first chunk; the counts add up to the number of chunks.  With
    nothing indexed it lists nothing. *)
Theorem list_documents_groups (all_docs : list Document) :
  match list_documents all_docs with
  | None => all_docs = []
  | Some doc_map =>
      NoDup (map fst doc_map) /\
      listed_chunks doc_map = List.length all_docs /\
      (forall doc, In doc all_docs -> In (doc_id_or_unknown doc) (map fst doc_map)) /\
      forall doc_id info,
        In (doc_id, info) doc_map ->
        info_chunks info = List.length (chunks_of doc_id all_docs) /\
        exists first,
          hd_error (chunks_of doc_id all_docs) = Some first /\
          info_filename info = filename_or_unknown first
  end.
Proof.
  unfold list_documents. destruct all_docs as [|doc0 docs]; [reflexivity|].
  set (all_docs := doc0 :: docs).
  assert (H0 : groups [] []).
  { split; [constructor|]. split; [reflexivity|]. intros id. reflexivity. }
  pose proof (list_documents_loop all_docs H0) as [Hnd [Hsum Hget]].
  cbn [app] in Hnd, Hsum, Hget.
  split; [exact Hnd|]. split; [exact Hsum|]. split.
  - intros doc Hdoc. specialize (Hget (doc_id_or_unknown doc)).
    destruct (info_get (doc_id_or_unknown doc) (fold_left list_documents_step all_docs []))
      as [info|] eqn:E.
    + clear - E. induction (fold_left list_documents_step all_docs []) as [|[k v] m IH];
        simpl in *; [discriminate|].
      destruct (String.eqb k (doc_id_or_unknown doc)) eqn:Ek.
      * left. apply String.eqb_eq. exact Ek.
      * right. apply IH. exact E.
    + exfalso.
      assert (Hin : In doc (chunks_of (doc_id_or_unknown doc) all_docs)).
      { unfold chunks_of. apply filter_In. split; [exact Hdoc | apply String.eqb_refl]. }
      rewrite Hget in Hin. destruct Hin.
  - intros doc_id info Hin. specialize (Hget doc_id).
    rewrite (@info_get_In _ _ _ Hnd Hin) in Hget. exact Hget.
Qed.
